(** * The create-zip route: authenticated batch retrieval of reservation PDFs

    A shallow embedding of [app/api/create-zip/route.js].

    The route keeps a process-wide session (two module variables), logs in
    to the booking system on demand, fetches one PDF per reservation with
    retry and backoff, and packs the documents it obtained into a zip.

    - JavaScript values that reach the handler are JSON values ([JS.json]).
    - Asynchronous functions are finite trees of operations ([prog]); the
      only places where a continuation waits are [fetch] and [delay].
    - The booking system and the wall clock are an [environment]: what a
      request is answered with, and what [Date.now()] reads, are functions
      of everything that happened so far (the [trace]).
    - [Promise.all] over a batch is an explicit scheduler ([run_all]) that
      starts every task and then lets the pending waits settle in any
      order, until all have finished or one has rejected.
    - Of the calls to [console.log] and [console.error], which only write
      to the log sink, one thing is kept: a value interpolated in a
      template literal is converted to a string, which can throw.
    - [zip.file] is JSZip's: it keeps one entry per name and adds the
      folders of a name that contains a slash. *)

From Stdlib Require Import ZArith List String Ascii Bool Lia QArith Qround.
From Stdlib Require Import Strings.Byte.
From stdpp Require Import base option list strings gmap pretty.
From Equations Require Import Equations.
Import ListNotations.

Set Warnings "-register-all".

Local Open Scope string_scope.
Local Open Scope Z_scope.
Local Open Scope list_scope.

(** ** JavaScript values and string helpers *)

Module JS.

(** A JSON number. The handler never computes with the numbers it is sent:
    it only tests them ([!x]) and prints them (template literals), so a
    number is kept as these two observations. *)
Record number := { is_zero : bool; decimal : string }.

Inductive json :=
| JNull
| JBool (b : bool)
| JNum (n : number)
| JStr (s : string)
| JArr (items : list json)
| JObj (fields : list (string * json)).

(** A JavaScript value read out of JSON data: [None] is [undefined]. *)
Definition value := option json.

(** [ToBoolean]. *)
Definition truthy (v : value) : bool :=
  match v with
  | None => false
  | Some JNull => false
  | Some (JBool b) => b
  | Some (JNum n) => negb (is_zero n)
  | Some (JStr s) => negb (String.eqb s "")
  | Some (JArr _) => true
  | Some (JObj _) => true
  end.

(** [JSON.parse] keeps the last of several members with the same name. *)
Fixpoint member (key : string) (fields : list (string * json)) : value :=
  match fields with
  | [] => None
  | (k, v) :: rest =>
      match member key rest with
      | Some later => Some later
      | None => if String.eqb k key then Some v else None
      end
  end.

(** [v.key] for the three property names the handler reads
    ([reservationIds], [htl_code], [res_id]): own members of an object;
    [undefined] on strings, numbers, booleans and arrays, whose prototypes
    define none of the three. Reading a property of [null] throws, which
    is [None] here. *)
Definition property (v : json) (key : string) : option value :=
  match v with
  | JNull => None
  | JObj fields => Some (member key fields)
  | _ => Some None
  end.

(** [ToString], as a template literal applies it; [None] when it throws
    "TypeError: Cannot convert object to primitive value". An object is
    printed by the first of its [toString] and [valueOf] that is callable
    and returns a primitive. A member of a JSON object is never callable,
    so an object with a member named [toString] has no such method (the
    inherited [valueOf] returns the object itself) and the conversion
    throws; every other object inherits [Object.prototype.toString]. An
    array prints its elements joined by commas, a [null] among them as the
    empty string, and throws when one of them does. *)
Fixpoint ToString (v : json) : option string :=
  match v with
  | JNull => Some "null"
  | JBool true => Some "true"
  | JBool false => Some "false"
  | JNum n => Some (decimal n)
  | JStr s => Some s
  | JArr items =>
      option_map (String.concat ",")
        ((fix elements (l : list json) : option (list string) :=
            match l with
            | [] => Some []
            | x :: rest =>
                match match x with JNull => Some "" | _ => ToString x end,
                      elements rest with
                | Some s, Some ss => Some (s :: ss)
                | _, _ => None
                end
            end) items)
  | JObj fields =>
      match member "toString" fields with
      | Some _ => None
      | None => Some "[object Object]"
      end
  end.

(** [s.split(';')[0]]: the text before the first semicolon. *)
Fixpoint before_semicolon (s : string) : string :=
  match s with
  | EmptyString => EmptyString
  | String c rest =>
      if Ascii.eqb c ";" then EmptyString else String c (before_semicolon rest)
  end.

(** [s.includes(needle)]. *)
Fixpoint includes (needle s : string) : bool :=
  String.prefix needle s
  || match s with
     | EmptyString => false
     | String _ rest => includes needle rest
     end.

(** [x || fallback] on an environment variable: unset and empty both give
    the fallback. *)
Definition or_default (x : option string) (fallback : string) : string :=
  match x with
  | Some s => if String.eqb s "" then fallback else s
  | None => fallback
  end.

End JS.

Import JS.

(** ** Buffers *)

Definition buffer := list byte.

#[global] Instance byte_eq_dec : EqDecision byte := Byte.byte_eq_dec.

(** [Buffer.from('%PDF', 'utf-8')] *)
Definition pdfSignature : buffer := [x25; x50; x44; x46]%byte.

(** [isPDF(buffer)] *)
Definition isPDF (b : buffer) : bool :=
  if (Z.of_nat (length b) <? 4) then false
  else bool_decide (take 4 b = pdfSignature).

(** ** HTTP exchanges with the booking system *)

Record request := {
  req_method : string;
  req_url : string;
  req_headers : list (string * string);
  req_form : list (string * string);      (* URLSearchParams body *)
  req_manual_redirect : bool              (* redirect: 'manual' *)
}.

Record response := {
  status : Z;
  statusText : string;
  location : option string;               (* headers.get('location') *)
  setCookie : list string;                (* headers.getSetCookie() *)
  payload : buffer                        (* arrayBuffer() *)
}.

(** [response.ok] *)
Definition ok (r : response) : bool := (200 <=? status r) && (status r <=? 299).

(** Errors the route creates or receives, with the text of [err.message]. *)
Inductive error :=
| LoginNoCookies
| HttpError (code : Z) (text : string)
| NotPdf
| FetchFailed (msg : string)               (* fetch itself rejected *)
| FailedAfter (maxRetries : Q) (last : string)
| InvalidReservation
| TypeError (msg : string)
| SyntaxError (msg : string).

Definition message (e : error) : string :=
  match e with
  | LoginNoCookies => "Login failed - no cookies received"
  | HttpError code text => "HTTP " +:+ pretty code +:+ ": " +:+ text
  | NotPdf => "Response is not a valid PDF (likely HTML error page)"
  | FetchFailed msg => msg
  | FailedAfter n last =>
      (* thrown only when [attempt === maxRetries]: a whole number, which
         a template literal prints in decimal when it is below 10^21 *)
      "Failed after " +:+ pretty (Qfloor n) +:+ " attempts: " +:+ last
  | InvalidReservation => "Invalid reservation object structure"
  | TypeError msg => msg
  | SyntaxError msg => msg
  end.

(** What awaiting [fetch(...)] gives: a response, or the message of the
    error it rejects with. *)
Definition fetch_result := (string + response)%type.

(** What can be observed of a run, in the order it happened. *)
Inductive event :=
| Issued (r : request)                      (* fetch(...) is called *)
| Settled (r : request) (res : fetch_result) (* its promise settles *)
| TimerSet (ms : Z)                         (* delay(ms) is called *)
| TimerFired (ms : Z).                      (* its promise resolves *)

Definition trace := list event.

(** The process environment, the booking system and the clock. *)
Record environment := {
  LUCEE_URL : option string;
  PDF_USERNAME : option string;
  PDF_PASSWORD : option string;
  PDF_COMPANY_CODE : option string;
  upstream : trace -> request -> fetch_result;
  clock : trace -> Z                        (* Date.now() *)
}.

(** The module variables and the history of the run. *)
Record world := {
  sessionCookies : option string;
  sessionExpiry : option Z;
  history : trace
}.

Definition set_cookies (v : option string) (w : world) : world :=
  {| sessionCookies := v; sessionExpiry := sessionExpiry w; history := history w |}.

Definition set_expiry (v : option Z) (w : world) : world :=
  {| sessionCookies := sessionCookies w; sessionExpiry := v; history := history w |}.

Definition record (evs : trace) (w : world) : world :=
  {| sessionCookies := sessionCookies w; sessionExpiry := sessionExpiry w;
     history := history w ++ evs |}.

(** ** Asynchronous functions as trees of operations *)

Inductive op : Type -> Type :=
| Fetch (r : request) : op fetch_result
| Delay (ms : Z) : op unit
| DateNow : op Z
| ReadCookies : op (option string)
| WriteCookies (v : option string) : op unit
| ReadExpiry : op (option Z)
| WriteExpiry (v : option Z) : op unit.

Inductive prog (A : Type) : Type :=
| Ret (a : A)
| Throw (e : error)
| Vis {R : Type} (o : op R) (k : R -> prog A).

Arguments Ret {A} a.
Arguments Throw {A} e.
Arguments Vis {A R} o k.

Fixpoint bind {A B : Type} (p : prog A) (f : A -> prog B) : prog B :=
  match p with
  | Ret a => f a
  | Throw e => Throw e
  | Vis o k => Vis o (fun r => bind (k r) f)
  end.

(** [try { p } catch (err) { handler err }] *)
Fixpoint try_catch {A : Type} (p : prog A) (handler : error -> prog A) : prog A :=
  match p with
  | Ret a => Ret a
  | Throw e => handler e
  | Vis o k => Vis o (fun r => try_catch (k r) handler)
  end.

Definition call {R : Type} (o : op R) : prog R := Vis o Ret.

Notation "'let*' x := p 'in' q" := (bind p (fun x => q))
  (at level 10, x pattern, p at level 100, q at level 200).

(** [await fetch(...)]: a rejection is thrown at the [await]. *)
Definition fetch (r : request) : prog response :=
  let* res := call (Fetch r) in
  match res with
  | inl msg => Throw (FetchFailed msg)
  | inr resp => Ret resp
  end.

(** [await delay(ms)] *)
Definition delay (ms : Z) : prog unit := call (Delay ms).

(** A value interpolated in a template literal. *)
Definition template (v : json) : prog string :=
  match ToString v with
  | Some s => Ret s
  | None => Throw (TypeError "Cannot convert object to primitive value")
  end.

(** A whole number as a JavaScript number. *)
Definition whole (n : nat) : Q := inject_Z (Z.of_nat n).

(** ** The session manager and the document fetcher *)

Section Route.

Variable E : environment.

Definition baseUrl : string :=
  or_default (LUCEE_URL E) "https://hotel.webhotelier.localhost".

(** The authentication POST of [login()]. *)
Definition login_request : request :=
  {| req_method := "POST";
     req_url := baseUrl +:+ "/login/login";
     req_headers := [("Content-Type", "application/x-www-form-urlencoded")];
     req_form := [("cmp_code", or_default (PDF_COMPANY_CODE E) "");
                  ("username", or_default (PDF_USERNAME E) "");
                  ("password", or_default (PDF_PASSWORD E) "");
                  ("remember_me", "on")];
     req_manual_redirect := true |}.

(** [cookies.map(c => c.split(';')[0]).join('; ')] *)
Definition cookie_header (cookies : list string) : string :=
  String.concat "; " (map before_semicolon cookies).

(** [login()]. No wait lies between the assignment to [sessionCookies] and
    [return sessionCookies], so the value returned is the one assigned. *)
Definition login : prog string :=
  let* loginResponse := fetch login_request in
  let cookies := setCookie loginResponse in
  if (length cookies =? 0)%nat then Throw LoginNoCookies
  else
    let* _ := call (WriteCookies (Some (cookie_header cookies))) in
    let* now := call DateNow in
    let* _ := call (WriteExpiry (Some (now + 30 * 60 * 1000))) in
    Ret (cookie_header cookies).

(** [getSessionCookies()]. The test [sessionCookies && sessionExpiry &&
    Date.now() < sessionExpiry] reads the clock only when both variables
    are truthy: a string other than [''] and a number other than [0]. *)
Definition getSessionCookies : prog string :=
  let* cookies := call ReadCookies in
  let* expiry := call ReadExpiry in
  match cookies, expiry with
  | Some c, Some e =>
      if negb (String.eqb c "") && negb (e =? 0) then
        let* now := call DateNow in
        if now <? e then Ret c else login
      else login
  | _, _ => login
  end.

(** The template of [pdfUrl], with both values printed. *)
Definition pdfUrl (htlCode resId : string) : string :=
  baseUrl +:+ "/res/print.cfm?htl_code=" +:+ htlCode
          +:+ "&res_id=" +:+ resId +:+ "&download".

(** The document GET; only the first request of an attempt sets
    [redirect: 'manual']. *)
Definition pdf_request (url cookies : string) (manual : bool) : request :=
  {| req_method := "GET";
     req_url := url;
     req_headers := [("Cookie", cookies)];
     req_form := [];
     req_manual_redirect := manual |}.

(** Reading the body and checking its signature (both copies of it). *)
Definition read_pdf (r : response) : prog buffer :=
  let buffer := payload r in
  if negb (isPDF buffer) then Throw NotPdf else Ret buffer.

(** The body of [if (location && location.includes('forward='))]. *)
Definition relogin_and_retry (url : string) : prog buffer :=
  let* _ := call (WriteCookies None) in
  let* newCookies := getSessionCookies in
  let* retryResponse := fetch (pdf_request url newCookies false) in
  if negb (ok retryResponse)
  then Throw (HttpError (status retryResponse) (statusText retryResponse))
  else read_pdf retryResponse.

(** What an attempt does with the response to its first request. *)
Definition on_response (url : string) (r : response) : prog buffer :=
  let otherwise :=
    if negb (ok r) && negb (status r =? 302)
    then Throw (HttpError (status r) (statusText r))
    else read_pdf r in
  if status r =? 302 then
    match location r with
    | Some target =>
        if negb (String.eqb target "") && includes "forward=" target
        then relogin_and_retry url
        else otherwise
    | None => otherwise
    end
  else otherwise.

(** [Math.min(1000 * Math.pow(2, attempt - 1), 5000)] *)
Definition backoffDelay (attempt : nat) : Z :=
  Z.min (1000 * 2 ^ (Z.of_nat attempt - 1)) 5000.

(** The wait that opens every iteration but the first. *)
Definition backoff (attempt : nat) : prog unit :=
  if (1 <? attempt)%nat then delay (backoffDelay attempt) else Ret tt.

(** The [try] block up to the response to its first request. *)
Definition first_exchange (url : string) (attempt : nat) : prog response :=
  let* _ := backoff attempt in
  let* cookies := getSessionCookies in
  fetch (pdf_request url cookies true).

(** The [try] block of one iteration. *)
Definition attempt_body (url : string) (attempt : nat) : prog buffer :=
  let* r := first_exchange url attempt in
  on_response url r.

(** [attempt === maxRetries] *)
Definition is_last (attempt : nat) (maxRetries : Q) : bool :=
  Qeq_bool (whole attempt) maxRetries.

(** The [for] loop from [attempt] on. [remaining] counts the iterations
    that the loop condition [attempt <= maxRetries] still allows; when
    none is left the function falls off its end and gives [undefined]
    ([None]). *)
Fixpoint attempts (url : string) (maxRetries : Q) (remaining attempt : nat)
  : prog (option buffer) :=
  match remaining with
  | O => Ret None
  | S remaining' =>
      try_catch
        (let* buffer := attempt_body url attempt in Ret (Some buffer))
        (fun err =>
           if is_last attempt maxRetries
           then Throw (FailedAfter maxRetries (message err))
           else attempts url maxRetries remaining' (S attempt))
  end.

(** [generatePdfForReservation(htlCode, resId, maxRetries = 3)].
    [maxRetries] is any finite number (the handler, the only caller, passes
    none and gets 3): the loop condition holds for the attempts 1, 2, ...
    up to its integer part, none when it is below 1.
    The template of [pdfUrl] stands before the loop, outside its [try];
    the templates inside the loop print the same two values again. *)
Definition generatePdfForReservation
  (htlCode resId : json) (maxRetries : Q) : prog (option buffer) :=
  let* h := template htlCode in
  let* i := template resId in
  attempts (pdfUrl h i) maxRetries (Z.to_nat (Qfloor maxRetries)) 1.

(** ** Running a tree *)

(** The operations at which a continuation waits for the outside. *)
Definition waits {R : Type} (o : op R) : bool :=
  match o with
  | Fetch _ | Delay _ => true
  | _ => false
  end.

(** Calling a waiting operation: the request leaves, the timer is set. *)
Definition issue {R : Type} (o : op R) (w : world) : world :=
  match o with
  | Fetch r => record [Issued r] w
  | Delay ms => record [TimerSet ms] w
  | _ => w
  end.

(** The awaited promise settles; operations on the module variables and
    the clock take effect at once. *)
Definition settle {R : Type} (o : op R) (w : world) : R * world :=
  match o in op R return R * world with
  | Fetch r =>
      let res := upstream E (history w) r in
      (res, record [Settled r res] w)
  | Delay ms => (tt, record [TimerFired ms] w)
  | DateNow => (clock E (history w), w)
  | ReadCookies => (sessionCookies w, w)
  | WriteCookies v => (tt, set_cookies v w)
  | ReadExpiry => (sessionExpiry w, w)
  | WriteExpiry v => (tt, set_expiry v w)
  end.

Definition perform {R : Type} (o : op R) (w : world) : R * world :=
  settle o (issue o w).

(** A tree run alone: every wait settles before anything else happens. *)
Fixpoint run {A : Type} (p : prog A) (w : world) : (error + A) * world :=
  match p with
  | Ret a => (inr a, w)
  | Throw e => (inl e, w)
  | Vis o k => let '(r, w') := perform o w in run (k r) w'
  end.

(** ** Tasks that run at the same time

    A task is either finished or parked at a wait that has been issued,
    with the continuation that takes what the wait gives. *)

Inductive task (A : Type) : Type :=
| Done (r : error + A)
| Waiting {R : Type} (o : op R) (k : R -> prog A).

Arguments Done {A} r.
Arguments Waiting {A R} o k.

(** Run a tree up to its next wait. *)
Fixpoint advance {A : Type} (p : prog A) (w : world) : task A * world :=
  match p with
  | Ret a => (Done (inr a), w)
  | Throw e => (Done (inl e), w)
  | Vis o k =>
      if waits o then (Waiting o k, issue o w)
      else let '(r, w') := settle o w in advance (k r) w'
  end.

(** The wait a task is parked at settles and the task runs on to its next
    wait. *)
Definition resume {A : Type} (t : task A) (w : world) : task A * world :=
  match t with
  | Done r => (Done r, w)
  | Waiting o k => let '(r, w') := settle o w in advance (k r) w'
  end.

(** Let one task run to its end with nothing in between. *)
Definition finish {A : Type} (t : task A) (w : world) : (error + A) * world :=
  match t with
  | Done r => (r, w)
  | Waiting o k => let '(r, w') := settle o w in run (k r) w'
  end.

(** [list.map(async ...)]: every callback is called in turn and runs up to
    its first wait. *)
Fixpoint start_all {A : Type} (ps : list (prog A)) (w : world)
  : list (task A) * world :=
  match ps with
  | [] => ([], w)
  | p :: rest =>
      let '(t, w1) := advance p w in
      let '(ts, w2) := start_all rest w1 in
      (t :: ts, w2)
  end.

(** The error of the first task that has rejected, if one has. *)
Fixpoint rejection {A : Type} (ts : list (task A)) : option error :=
  match ts with
  | [] => None
  | Done (inl e) :: _ => Some e
  | _ :: rest => rejection rest
  end.

(** The waits settle in the order the schedule names their tasks; naming
    a finished task, or none, changes nothing. Once a task has rejected,
    [Promise.all] has rejected and the [await] on it is over: nothing more
    settles before the caller goes on. *)
Fixpoint settle_in_order {A : Type} (schedule : list nat) (ts : list (task A))
  (w : world) : list (task A) * world :=
  match schedule with
  | [] => (ts, w)
  | i :: later =>
      match rejection ts with
      | Some _ => (ts, w)
      | None =>
          match ts !! i with
          | Some t =>
              let '(t', w1) := resume t w in
              settle_in_order later (<[i := t']> ts) w1
          | None => settle_in_order later ts w
          end
      end
  end.

(** The tasks still parked run to their end one after the other, up to
    the first that rejects. *)
Fixpoint finish_all {A : Type} (ts : list (task A)) (w : world)
  : (error + list A) * world :=
  match ts with
  | [] => (inr [], w)
  | t :: rest =>
      match finish t w with
      | (inl e, w1) => (inl e, w1)
      | (inr a, w1) =>
          match finish_all rest w1 with
          | (inl e, w2) => (inl e, w2)
          | (inr l, w2) => (inr (a :: l), w2)
          end
      end
  end.

(** [await Promise.all(promises)] over the promises of a group: the
    tasks are started together and their waits settle as the schedule
    says; what is still parked when the schedule ends is finished task by
    task. It gives the results in the order of the promises when all have
    fulfilled, and the error of the first rejection as soon as there is
    one, with the other tasks left parked where they are. Every order in
    which the waits of a real run settle is some schedule. *)
Definition run_all {A : Type} (ps : list (prog A)) (schedule : list nat)
  (w : world) : (error + list A) * world :=
  let '(ts, w1) := start_all ps w in
  let '(ts', w2) := settle_in_order schedule ts w1 in
  match rejection ts' with
  | Some e => (inl e, w2)
  | None => finish_all ts' w2
  end.

(** ** The request handler *)

Record reservation := { htl_code : json; res_id : json }.

Record pdf_result := {
  result_htl_code : json;
  result_res_id : json;
  filename : string;
  blob : option buffer
}.

(** An entry of a JSZip archive: a file with its bytes, or a folder. *)
Inductive entry :=
| File (data : buffer)
| Folder.

(** What [NextResponse] is given. The body of the success response is the
    archive; it is kept as the table of entries the archive holds
    ([zip.files]). *)
Inductive response_body :=
| JsonBody (j : json)
| ZipBody (files : gmap string entry).

Record next_response := {
  res_status : Z;
  res_headers : list (string * string);
  res_body : response_body
}.

(** [NextResponse.json({ error: msg }, { status: code })] *)
Definition json_error (msg : string) (code : Z) : next_response :=
  {| res_status := code;
     res_headers := [];
     res_body := JsonBody (JObj [("error", JStr msg)]) |}.

(** The callback of [reservationIds.map] in the validation step. *)
Definition validate_item (item : json) : error + reservation :=
  match property item "htl_code" with
  | None => inl (TypeError "Cannot read properties of null (reading 'htl_code')")
  | Some None => inl InvalidReservation
  | Some (Some h) =>
      if negb (truthy (Some h)) then inl InvalidReservation
      else
        match property item "res_id" with
        | None => inl (TypeError "Cannot read properties of null (reading 'res_id')")
        | Some None => inl InvalidReservation
        | Some (Some r) =>
            if negb (truthy (Some r)) then inl InvalidReservation
            else inr {| htl_code := h; res_id := r |}
        end
  end.

(** [reservationIds.map(...)]: the first throwing element ends the map. *)
Fixpoint validate (items : list json) : error + list reservation :=
  match items with
  | [] => inr []
  | item :: rest =>
      match validate_item item with
      | inl e => inl e
      | inr r =>
          match validate rest with
          | inl e => inl e
          | inr rs => inr (r :: rs)
          end
      end
  end.

(** The callback of [batch.map]: one fetch, its failure turned into
    [null]. The template of the first [console.log] stands before the
    [try]: when it throws, the callback rejects. *)
Definition batch_task (r : reservation) : prog (option pdf_result) :=
  let* _ := template (res_id r) in
  let* _ := template (htl_code r) in
  try_catch
    (let* pdfBlob := generatePdfForReservation (htl_code r) (res_id r) 3 in
     let* h := template (htl_code r) in
     let* i := template (res_id r) in
     Ret (Some {| result_htl_code := htl_code r;
                  result_res_id := res_id r;
                  filename := h +:+ "-" +:+ i +:+ ".pdf";
                  blob := pdfBlob |}))
    (fun err => Ret None).

Definition batchSize : nat := 20.

(** [reservations.slice(i, i + batchSize)] *)
Definition slice {A : Type} (i j : nat) (l : list A) : list A :=
  take (j - i) (drop i l).

(** [batchResults.filter(result => result !== null)] *)
Definition non_null {A : Type} (l : list (option A)) : list A := omap id l.

(** One group: [batchPromises] and [await Promise.all(batchPromises)]. *)
Definition run_batch (schedule : list nat) (batch : list reservation)
  (w : world) : (error + list (option pdf_result)) * world :=
  run_all (map batch_task batch) schedule w.

(** [if (i + batchSize < reservations.length) await delay(200)] *)
Definition pause_between (i total : nat) (w : world) : world :=
  if (i + batchSize <? total)%nat then snd (run (delay 200) w) else w.

(** The [for (let i = 0; i < reservations.length; i += batchSize)] loop,
    from index [i] on. [schedules k] is the order in which the waits of
    group number [k] settle. *)
Equations? process_batches (schedules : nat -> list nat)
  (reservations : list reservation) (i : nat) (pdfResults : list pdf_result)
  (w : world) : (error + list pdf_result) * world
  by wf (length reservations - i)%nat lt :=
  process_batches schedules reservations i pdfResults w
    with lt_dec i (length reservations) := {
    | right _ => (inr pdfResults, w)
    | left _
        with run_batch (schedules (i / batchSize)%nat)
               (slice i (i + batchSize) reservations) w := {
        | (inl e, w1) => (inl e, w1)
        | (inr batchResults, w1) =>
            process_batches schedules reservations (i + batchSize)%nat
              (pdfResults ++ non_null batchResults)
              (pause_between i (length reservations) w1) } }.
Proof. unfold batchSize. lia. Qed.

(** [path.slice(-1) === "/"] *)
Fixpoint ends_with_slash (path : string) : bool :=
  match path with
  | EmptyString => false
  | String c rest =>
      match rest with
      | EmptyString => Ascii.eqb c "/"
      | String _ _ => ends_with_slash rest
      end
  end.

(** [path.substring(0, path.length - 1)] *)
Fixpoint without_last (path : string) : string :=
  match path with
  | EmptyString => EmptyString
  | String c rest =>
      match rest with
      | EmptyString => EmptyString
      | String _ _ => String c (without_last rest)
      end
  end.

(** [path.substring(0, path.lastIndexOf("/"))] when there is a slash. *)
Fixpoint before_last_slash (path : string) : option string :=
  match path with
  | EmptyString => None
  | String c rest =>
      match before_last_slash rest with
      | Some parent => Some (String c parent)
      | None => if Ascii.eqb c "/" then Some EmptyString else None
      end
  end.

(** JSZip's [forceTrailingSlash(path)] *)
Definition forceTrailingSlash (path : string) : string :=
  if ends_with_slash path then path else path +:+ "/".

(** JSZip's [parentFolder(path)]: what stands before the last slash of the
    path without its final slash; the empty string when that is nothing. *)
Definition parentFolder (path : string) : string :=
  let path := if ends_with_slash path then without_last path else path in
  default "" (before_last_slash path).

Definition inspect {A : Type} (a : A) : {b : A | a = b} := exist _ a eq_refl.

(** JSZip's [folderAdd(name, true)]: a folder that is not there yet is
    added after its own parent folder. *)
Equations? folderAdd (name : string) (files : gmap string entry)
  : gmap string entry by wf (String.length name) lt :=
  folderAdd name files with files !! forceTrailingSlash name := {
    | Some _ => files
    | None with inspect (parentFolder (forceTrailingSlash name)) := {
        | exist _ EmptyString _ => <[forceTrailingSlash name := Folder]> files
        | exist _ (String c parent) Hparent =>
            <[forceTrailingSlash name := Folder]>
              (folderAdd (String c parent) files) } }.
Proof.
  assert (forall s p, before_last_slash s = Some p
                      -> (String.length p < String.length s)%nat) as Hshorter.
  { induction s as [|a s IH]; intros p; simpl; [discriminate|].
    destruct (before_last_slash s) as [q|].
    - intros [= <-]. specialize (IH q eq_refl). simpl. lia.
    - destruct (Ascii.eqb a "/"); [intros [= <-]; simpl; lia | discriminate]. }
  assert (forall s, ends_with_slash (s +:+ "/") = true
                    /\ without_last (s +:+ "/") = s) as Hforced.
  { induction s as [|a s [IH1 IH2]]; [split; reflexivity|]. simpl.
    destruct s as [|b s]; [split; reflexivity|]. simpl in IH1, IH2 |- *.
    rewrite IH2. split; [exact IH1 | reflexivity]. }
  assert (forall s, (String.length (without_last s) <= String.length s)%nat) as Hlast.
  { induction s as [|a s IH]; simpl; [lia|]. destruct s; simpl in *; lia. }
  unfold parentFolder, forceTrailingSlash in Hparent.
  destruct (ends_with_slash name) eqn:Hname.
  - rewrite Hname in Hparent.
    destruct (before_last_slash (without_last name)) as [q|] eqn:Hq; [|discriminate].
    simpl in Hparent. subst q. apply Hshorter in Hq. specialize (Hlast name).
    simpl in Hq. lia.
  - destruct (Hforced name) as [Hends Hstrip]. rewrite Hends, Hstrip in Hparent.
    destruct (before_last_slash name) as [q|] eqn:Hq; [|discriminate].
    simpl in Hparent. subst q. apply Hshorter in Hq. exact Hq.
Qed.

(** [zip.file(name, data)], JSZip's [fileAdd] with its defaults: the
    parent folder of the name is added when the name has one, and the file
    becomes the entry of its name, in place of any entry that has this
    name already. Data that is [undefined] makes an empty file. *)
Definition zip_file (name : string) (data : option buffer)
  (zip : gmap string entry) : gmap string entry :=
  let zip :=
    if String.eqb (parentFolder name) "" then zip
    else folderAdd (parentFolder name) zip in
  <[name := File (default [] data)]> zip.

(** [for (const result of pdfResults) zip.file(result.filename, result.blob)] *)
Definition build_zip (pdfResults : list pdf_result) : gmap string entry :=
  fold_left (fun zip result => zip_file (filename result) (blob result) zip)
    pdfResults ∅.

Definition success_response (successCount : nat) (failCount : Z)
  (zip : gmap string entry) : next_response :=
  {| res_status := 200;
     res_headers := [("Content-Type", "application/zip");
                     ("Content-Disposition", "attachment; filename=reservations.zip");
                     ("Access-Control-Allow-Origin", "*");
                     ("X-PDF-Success-Count", pretty successCount);
                     ("X-PDF-Fail-Count", pretty failCount)];
     res_body := ZipBody zip |}.

(** [POST(req)]. [body] is what [await req.json()] gives: the decoded
    value, or the error it rejects with. *)
Definition POST (body : error + json) (schedules : nat -> list nat)
  (w : world) : next_response * world :=
  match body with
  | inl err => (json_error (message err) 500, w)
  | inr decoded =>
      match property decoded "reservationIds" with
      | None =>
          (json_error
             (message (TypeError "Cannot destructure property 'reservationIds' of '(intermediate value)' as it is null."))
             500, w)
      | Some (Some (JArr reservationIds)) =>
          match validate reservationIds with
          | inl validationErr => (json_error (message validationErr) 400, w)
          | inr reservations =>
              match process_batches schedules reservations 0 [] w with
              | (inl err, w') => (json_error (message err) 500, w')
              | (inr pdfResults, w') =>
                  let successCount := length pdfResults in
                  let failCount :=
                    Z.of_nat (length reservations) - Z.of_nat successCount in
                  if (length pdfResults =? 0)%nat
                  then (json_error "Failed to fetch any PDFs" 500, w')
                  else (success_response successCount failCount
                          (build_zip pdfResults), w')
              end
          end
      | Some _ => (json_error "Invalid or missing reservationIds" 400, w)
      end
  end.

End Route.

Arguments Done {A} r.
Arguments Waiting {A R} o k.

(** ** What the properties are stated with

    Observations of a run, predicates on trees, and the orchestration as the
    specification words it. *)

(** The durations of the timers set in a trace, in order. *)
Fixpoint timers (t : trace) : list Z :=
  match t with
  | [] => []
  | TimerSet ms :: rest => ms :: timers rest
  | _ :: rest => timers rest
  end.

(** How many 200 ms timers a trace sets. *)
Definition pauses (t : trace) : nat :=
  length (filter (fun ms => ms = 200) (timers t)).

(** What happened between two worlds of one run. *)
Definition since (w w' : world) : trace := drop (length (history w)) (history w').

(** Every way the tree can end satisfies [P]. *)
Inductive ends_in {A : Type} (P : error + A -> Prop) : prog A -> Prop :=
| ends_ret a : P (inr a) -> ends_in P (Ret a)
| ends_throw e : P (inl e) -> ends_in P (Throw e)
| ends_vis R (o : op R) k : (forall r, ends_in P (k r)) -> ends_in P (Vis o k).

(** A parked task ends as [P] says whatever its wait gives. *)
Definition task_ends {A : Type} (P : error + A -> Prop) (t : task A) : Prop :=
  match t with
  | Done r => P r
  | Waiting o k => forall r, ends_in P (k r)
  end.

(** Every operation in the tree satisfies [Q]. *)
Inductive uses_only {A : Type} (Q : forall R, op R -> Prop) : prog A -> Prop :=
| uses_ret a : uses_only Q (Ret a)
| uses_throw e : uses_only Q (Throw e)
| uses_vis R (o : op R) k :
    Q R o -> (forall r, uses_only Q (k r)) -> uses_only Q (Vis o k).

Create HintDb route.
#[export] Hint Constructors uses_only : route.

(** The trees a parked task can go on with use only operations that
    satisfy [Q]. *)
Definition task_uses {A : Type} (Q : forall R, op R -> Prop) (t : task A) : Prop :=
  match t with
  | Done _ => True
  | Waiting o k => forall r, uses_only Q (k r)
  end.

(** The operation, if it is a timer, waits a duration that satisfies [P]. *)
Definition delay_ok (P : Z -> Prop) (R : Type) (o : op R) : Prop :=
  match o with
  | Delay ms => P ms
  | _ => True
  end.

(** A result that carries a buffer carries a PDF. *)
Definition pdf_only {A : Type} (unwrap : A -> option buffer) (out : error + A) : Prop :=
  forall a buf, out = inr a -> unwrap a = Some buf -> isPDF buf = true.

(** The name under which the document of a reservation is filed, when
    its two values print. *)
Definition archive_name (r : reservation) : option string :=
  match ToString (htl_code r), ToString (res_id r) with
  | Some h, Some i => Some (h +:+ "-" +:+ i +:+ ".pdf")
  | _, _ => None
  end.

(** Both values of the reservation print: every string, number and
    boolean does, and every array and object that holds no object with a
    member named [toString]. *)
Definition prints (r : reservation) : bool :=
  match archive_name r with
  | Some _ => true
  | None => false
  end.

(** All the calls [zip.file(result.filename, result.blob)] on a given zip. *)
Definition add_all (results : list pdf_result) (zip : gmap string entry)
  : gmap string entry :=
  fold_left (fun zip result => zip_file (filename result) (blob result) zip) results zip.

(** The last of the results that is filed under [name]. *)
Definition last_named (name : string) (results : list pdf_result) : option pdf_result :=
  last (filter (fun result => filename result = name) results).

(** An element of [reservationIds] lacks the property [key], or has the
    empty string there; [null] has no properties at all. *)
Definition missing_or_empty (item : json) (key : string) : Prop :=
  match property item key with
  | None => True
  | Some None => True
  | Some (Some (JStr s)) => s = ""
  | Some (Some _) => False
  end.

(** Following the specification, 4.3: "partition refs into consecutive
    groups of size batchSize". The fuel is the length of the list, which is
    as many groups as there can be. *)
Fixpoint spec_partition_fuel {A : Type} (fuel size : nat) (refs : list A)
  : list (list A) :=
  match fuel with
  | O => []
  | S fuel' =>
      match refs with
      | [] => []
      | _ => take size refs :: spec_partition_fuel fuel' size (drop size refs)
      end
  end.

Definition spec_partition {A : Type} (size : nat) (refs : list A) : list (list A) :=
  spec_partition_fuel (length refs) size refs.

(** The requests sent in a trace, in order. *)
Fixpoint requests (t : trace) : list request :=
  match t with
  | [] => []
  | Issued q :: rest => q :: requests rest
  | _ :: rest => requests rest
  end.

(** The two requests the route has for a reservation of the list: the
    login, and the download of its document with some cookie header. *)
Definition route_request (E : environment) (reservations : list reservation)
  (q : request) : Prop :=
  q = login_request E
  \/ exists r h i cookies manual,
       r ∈ reservations
       /\ ToString (htl_code r) = Some h
       /\ ToString (res_id r) = Some i
       /\ q = pdf_request (pdfUrl E h i) cookies manual.

(** The waits of a trace that were issued and have not settled in it:
    requests without their answer, timers that have not fired. *)
Fixpoint open_waits (t : trace) : Z :=
  match t with
  | [] => 0
  | Issued _ :: rest => open_waits rest + 1
  | TimerSet _ :: rest => open_waits rest + 1
  | Settled _ _ :: rest => open_waits rest - 1
  | TimerFired _ :: rest => open_waits rest - 1
  end.

(** How many of the tasks are parked at a wait. *)
Fixpoint parked {A : Type} (ts : list (task A)) : Z :=
  match ts with
  | [] => 0
  | Done _ :: rest => parked rest
  | Waiting _ _ :: rest => parked rest + 1
  end.

Section Observations.

Variable E : environment.

(** How many times a run of the loop enters its [try] block. *)
Fixpoint attempts_made (url : string) (maxRetries : Q) (remaining attempt : nat)
  (w : world) : nat :=
  match remaining with
  | O => O
  | S remaining' =>
      match run E (attempt_body E url attempt) w with
      | (inr _, _) => 1
      | (inl _, w1) =>
          if is_last attempt maxRetries then 1
          else S (attempts_made url maxRetries remaining' (S attempt) w1)
      end
  end.

(** Following the specification, 4.3: "Launch one fetchDocument call per
    ref in the group, concurrently, each independently wrapped so a
    failure in one does not cancel siblings ... convert fetch failures
    into Failure outcomes". *)
Definition spec_task (r : reservation) : prog (option pdf_result) :=
  try_catch
    (let* bytes := generatePdfForReservation E (htl_code r) (res_id r) 3 in
     let* h := template (htl_code r) in
     let* i := template (res_id r) in
     Ret (Some {| result_htl_code := htl_code r; result_res_id := res_id r;
                  filename := h +:+ "-" +:+ i +:+ ".pdf"; blob := bytes |}))
    (fun _ => Ret None).

(** Following the specification, 4.3: "For each group, in order: launch one
    fetchDocument call per ref in the group, concurrently; await all
    launches in the group; convert fetch failures into Failure outcomes; if
    more groups remain, wait a fixed inter-batch delay (default 200ms)
    before starting the next group. Returns the concatenation, across all
    groups, of every outcome." *)
Fixpoint spec_orchestrate (schedules : nat -> list nat) (number : nat)
  (groups : list (list reservation)) (w : world)
  : list (option pdf_result) * world :=
  match groups with
  | [] => ([], w)
  | group :: more =>
      let '(settled, w1) := run_all E (map spec_task group) (schedules number) w in
      let w2 := match more with
                | [] => w1
                | _ => snd (run E (delay 200) w1)
                end in
      let '(later, w3) := spec_orchestrate schedules (S number) more w2 in
      (match settled with
       | inr group_outcomes => group_outcomes
       | inl _ => map (fun _ => None) group
       end ++ later, w3)
  end.

(** The outcome of every reservation of a request, in the order of the
    request: the document fetched for it, or [None] when its fetch failed. *)
Definition outcomes (schedules : nat -> list nat) (reservations : list reservation)
  (w : world) : list (option pdf_result) :=
  fst (spec_orchestrate schedules 0 (spec_partition batchSize reservations) w).

(** [o] is an outcome of fetching the document of [r]: none, or a PDF
    under the name of [r]. *)
Definition fetched (r : reservation) (o : option pdf_result) : Prop :=
  o = None
  \/ exists buf name,
       isPDF buf = true
       /\ archive_name r = Some name
       /\ o = Some {| result_htl_code := htl_code r; result_res_id := res_id r;
                      filename := name; blob := Some buf |}.

(** The trace of one group: it begins with one request for each
    reservation of the group, sent before anything settles; every wait
    issued in it has settled in it; its requests are logins and downloads
    for the reservations of the group; and it sets no 200 ms timer. *)
Definition group_run (group : list reservation) (t : trace) : Prop :=
  (exists first later,
     length first = length group /\ t = map Issued first ++ later)
  /\ open_waits t = 0
  /\ Forall (route_request E group) (requests t)
  /\ pauses t = 0%nat.

(** The trace of the groups one after the other: the trace of a group,
    then, when another group follows, the 200 ms timer set and fired, and
    the trace of the groups that follow. *)
Fixpoint in_groups (groups : list (list reservation)) (t : trace) : Prop :=
  match groups with
  | [] => t = []
  | group :: more =>
      match more with
      | [] => group_run group t
      | _ :: _ =>
          exists first rest,
            t = first ++ [TimerSet 200; TimerFired 200] ++ rest
            /\ group_run group first
            /\ in_groups more rest
      end
  end.

End Observations.

(** ** Booking systems to run the route against *)

Module Scenario.

Definition pdf_document : buffer := list_byte_of_string "%PDF-1.4 voucher".

Definition html_page : buffer := list_byte_of_string "<html>Error</html>".

Definition answer (code : Z) (text : string) (target : option string)
  (body : buffer) : response :=
  {| status := code; statusText := text; location := target;
     setCookie := []; payload := body |}.

(** The answer to a login that is accepted. *)
Definition accepted (cookies : list string) : response :=
  {| status := 302; statusText := "Found"; location := Some "/home";
     setCookie := cookies; payload := [] |}.

Definition is_login (q : request) : bool := String.eqb (req_method q) "POST".

(** A booking system that accepts every login with [cookies] and answers a
    document request with [documents]; the clock stands at 1000. *)
Definition office (cookies : list string) (documents : request -> response)
  : environment :=
  {| LUCEE_URL := Some "https://pms.example";
     PDF_USERNAME := Some "clerk";
     PDF_PASSWORD := Some "secret";
     PDF_COMPANY_CODE := Some "ACME";
     upstream := fun _ q =>
                   if is_login q then inr (accepted cookies) else inr (documents q);
     clock := fun _ => 1000 |}.

Definition two_cookies : list string :=
  ["JSESSIONID=abc; Path=/; HttpOnly"; "lang=en"].

Definition always_pdf (q : request) : response := answer 200 "OK" None pdf_document.

Definition always_html (q : request) : response := answer 200 "OK" None html_page.

Definition not_found (q : request) : response := answer 404 "Not Found" None html_page.

(** Only hotel H1 has its documents. *)
Definition only_H1 (q : request) : response :=
  if includes "htl_code=H1&" (req_url q) then always_pdf q else not_found q.

(** The session has expired: the first request of an attempt is sent to the
    login page, the request after the new login is served. *)
Definition expired_once (q : request) : response :=
  if req_manual_redirect q
  then answer 302 "Found" (Some "/login/?forward=%2Fres%2Fprint.cfm") []
  else always_pdf q.

Definition temporary_redirect (q : request) : response :=
  answer 307 "Temporary Redirect" (Some "/login/?forward=%2Fres%2Fprint.cfm") [].

Definition moved (body : buffer) (q : request) : response :=
  answer 302 "Found" (Some "/maintenance") body.

Definition fresh : world :=
  {| sessionCookies := None; sessionExpiry := None; history := [] |}.

Definition signed_in : world :=
  {| sessionCookies := Some "JSESSIONID=abc; lang=en";
     sessionExpiry := Some 1801000;
     history := [] |}.

Definition item (h r : string) : json :=
  JObj [("htl_code", JStr h); ("res_id", JStr r)].

Definition request_body (items : list json) : json :=
  JObj [("reservationIds", JArr items)].

(** A value that validation accepts and no template literal prints: its
    [toString] is not a function. *)
Definition unprintable : json := JObj [("toString", JBool true)].

Definition in_turn (number : nat) : list nat := [].

Definition interleaved (number : nat) : list nat := [1; 0; 1; 0; 0; 1]%nat.

End Scenario.


(** ** More of the route, and what its further properties are stated with *)

(** What [new NextResponse(null, ...)] is given: a status and headers, no
    body. *)
Record preflight_response := {
  preflight_status : Z;
  preflight_headers : list (string * string)
}.

(** [OPTIONS()] *)
Definition OPTIONS : preflight_response :=
  {| preflight_status := 200;
     preflight_headers := [("Access-Control-Allow-Origin", "*");
                           ("Access-Control-Allow-Methods", "GET, POST, OPTIONS");
                           ("Access-Control-Allow-Headers", "Content-Type")] |}.

(** The sum of a list of durations. *)
Definition total_ms (durations : list Z) : Z := foldr Z.add 0 durations.

(** How many requests calling an operation sends. *)
Definition cost {R : Type} (o : op R) : nat :=
  match o with
  | Fetch _ => 1
  | _ => 0
  end.

(** The operation, if it is a request, sends one that satisfies [Q]. *)
Definition request_ok (Q : request -> Prop) {R : Type} (o : op R) : Prop :=
  match o with
  | Fetch q => Q q
  | _ => True
  end.

(** Whatever it is answered, the tree sends at most [n] requests, and only
    requests that satisfy [Q]. *)
Inductive sends_within {A : Type} (Q : request -> Prop) : nat -> prog A -> Prop :=
| sends_ret n a : sends_within Q n (Ret a)
| sends_throw n e : sends_within Q n (Throw e)
| sends_vis n m R (o : op R) k :
    request_ok Q o -> (forall r, sends_within Q n (k r)) -> (cost o + n <= m)%nat ->
    sends_within Q m (Vis o k).

(** The same of a parked task, whose wait has been issued already. *)
Definition task_sends {A : Type} (Q : request -> Prop) (n : nat) (t : task A) : Prop :=
  match t with
  | Done _ => True
  | Waiting o k => forall r, sends_within Q n (k r)
  end.

(** The tasks of a group send at most [n] requests between them. *)
Inductive tasks_send {A : Type} (Q : request -> Prop) : nat -> list (task A) -> Prop :=
| tasks_send_nil n : tasks_send Q n []
| tasks_send_cons a b n t ts :
    task_sends Q a t -> tasks_send Q b ts -> (a + b <= n)%nat ->
    tasks_send Q n (t :: ts).

(** From [w] to [w'] at most [n] requests were sent, all satisfying [Q]. *)
Definition sent (Q : request -> Prop) (n : nat) (w w' : world) : Prop :=
  exists evs, history w' = history w ++ evs
              /\ Forall Q (requests evs)
              /\ (length (requests evs) <= n)%nat.

(** From [w] to [w'] the number of open waits changed by [d]. *)
Definition moves (d : Z) (w w' : world) : Prop :=
  exists evs, history w' = history w ++ evs /\ open_waits evs = d.

(** A parked task waits at an operation that waits. *)
Definition well_parked {A} (t : task A) : Prop :=
  match t with
  | Done _ => True
  | Waiting o _ => waits o = true
  end.


(** * Properties *)

(** ** Running trees *)

Section Running.
Variable E : environment.

Lemma run_bind {A B : Type} (p : prog A) (f : A -> prog B) w :
  run E (bind p f) w =
    match run E p w with
    | (inr a, w') => run E (f a) w'
    | (inl e, w') => (inl e, w')
    end.
Proof.
  revert w. induction p as [a|e|R o k IH]; intros w; simpl; try reflexivity.
  destruct (perform E o w) as [r w']. apply IH.
Qed.

Lemma run_try_catch {A : Type} (p : prog A) (h : error -> prog A) w :
  run E (try_catch p h) w =
    match run E p w with
    | (inr a, w') => (inr a, w')
    | (inl e, w') => run E (h e) w'
    end.
Proof.
  revert w. induction p as [a|e|R o k IH]; intros w; simpl; try reflexivity.
  destruct (perform E o w) as [r w']. apply IH.
Qed.

Lemma ends_in_mono {A : Type} (P Q : error + A -> Prop) p :
  (forall r, P r -> Q r) -> ends_in P p -> ends_in Q p.
Proof. intros H; induction 1; constructor; auto. Qed.

Lemma ends_in_bind {A B : Type} (Q : error + A -> Prop) (P : error + B -> Prop)
  (p : prog A) (f : A -> prog B) :
  ends_in Q p ->
  (forall a, Q (inr a) -> ends_in P (f a)) ->
  (forall e, Q (inl e) -> P (inl e)) ->
  ends_in P (bind p f).
Proof. intros Hp Hf He. induction Hp; simpl; auto; constructor; auto. Qed.

Lemma ends_in_try_catch {A : Type} (Q P : error + A -> Prop)
  (p : prog A) (h : error -> prog A) :
  ends_in Q p ->
  (forall a, Q (inr a) -> P (inr a)) ->
  (forall e, Q (inl e) -> ends_in P (h e)) ->
  ends_in P (try_catch p h).
Proof. intros Hp Ha Hh. induction Hp; simpl; auto; constructor; auto. Qed.

Lemma ends_in_run {A : Type} (P : error + A -> Prop) (p : prog A) w :
  ends_in P p -> P (fst (run E p w)).
Proof.
  intros Hp. revert w. induction Hp; intros w; simpl; auto.
  destruct (perform E o w) as [r w']. auto.
Qed.

End Running.

Lemma isPDF_spec (b : buffer) :
  isPDF b = true <-> (4 <= length b)%nat /\ take 4 b = pdfSignature.
Proof.
  unfold isPDF. destruct (Z.ltb_spec (Z.of_nat (length b)) 4) as [Hlt|Hge].
  - split; [discriminate | intros [H _]; lia].
  - rewrite bool_decide_eq_true. split; [intros H; split; [lia | exact H] | intros [_ H]; exact H].
Qed.

(** ** The session manager *)

Section Session.
Variable E : environment.

Lemma login_run w :
  run E (login E) w =
    let w1 := record [Issued (login_request E)] w in
    let res := upstream E (history w1) (login_request E) in
    let w2 := record [Settled (login_request E) res] w1 in
    match res with
    | inl msg => (inl (FetchFailed msg), w2)
    | inr r =>
        if (length (setCookie r) =? 0)%nat then (inl LoginNoCookies, w2)
        else (inr (cookie_header (setCookie r)),
              set_expiry (Some (clock E (history w2) + 30 * 60 * 1000))
                (set_cookies (Some (cookie_header (setCookie r))) w2))
    end.
Proof.
  unfold login, fetch, call. simpl.
  destruct (upstream E _ _) as [msg|r]; simpl; [reflexivity|].
  destruct (length (setCookie r) =? 0)%nat; reflexivity.
Qed.

Lemma includes_semicolon_cons c s :
  includes ";" (String c s) = Ascii.eqb c ";" || includes ";" s.
Proof.
  cbn [includes String.prefix].
  destruct (Ascii.ascii_dec ";" c) as [<-|Hne]; simpl.
  - destruct s; reflexivity.
  - destruct (Ascii.eqb_spec c ";") as [->|_]; [congruence | reflexivity].
Qed.

Lemma before_semicolon_stops nv attrs :
  includes ";" nv = false -> before_semicolon (nv +:+ ";" +:+ attrs) = nv.
Proof.
  induction nv as [|c nv IH]; intros H.
  - reflexivity.
  - rewrite includes_semicolon_cons in H. apply orb_false_iff in H as [Hc Hnv].
    simpl. rewrite Hc. f_equal. apply IH. exact Hnv.
Qed.

Lemma before_semicolon_whole nv :
  includes ";" nv = false -> before_semicolon nv = nv.
Proof.
  induction nv as [|c nv IH]; intros H.
  - reflexivity.
  - rewrite includes_semicolon_cons in H. apply orb_false_iff in H as [Hc Hnv].
    simpl. rewrite Hc. f_equal. apply IH. exact Hnv.
Qed.

(** C8. [login] fails with "Login failed - no cookies received" exactly when
    the authentication response carries no cookie. Otherwise it returns and
    caches the texts before the first semicolon of each cookie (its
    name=value pair), joined with "; ", and sets the expiry 30 minutes
    after the clock. *)
Theorem login_caches_session w :
  let w1 := record [Issued (login_request E)] w in
  let res := upstream E (history w1) (login_request E) in
  let w' := snd (run E (login E) w) in
  (fst (run E (login E) w) = inl LoginNoCookies
   <-> exists r, res = inr r /\ setCookie r = [])
  /\ (forall r, res = inr r -> setCookie r <> [] ->
      let header := String.concat "; " (map before_semicolon (setCookie r)) in
      fst (run E (login E) w) = inr header
      /\ sessionCookies w' = Some header
      /\ sessionExpiry w' = Some (clock E (history w') + 30 * 60 * 1000))
  /\ (forall nv attrs, includes ";" nv = false ->
      before_semicolon (nv +:+ ";" +:+ attrs) = nv /\ before_semicolon nv = nv).
Proof.
  intros w1 res w'. subst w'. rewrite login_run. cbv zeta.
  change (upstream E (history (record [Issued (login_request E)] w)) (login_request E))
    with res.
  clearbody res. clear w1.
  split; [|split].
  - destruct res as [msg|r]; simpl.
    + split; [discriminate | intros (r & Hr & _); discriminate].
    + destruct (setCookie r) as [|c cs] eqn:Hc; simpl.
      * split; [eauto | reflexivity].
      * split; [discriminate | intros (r' & Hr' & Hn)].
        injection Hr' as <-. congruence.
  - intros r Hr Hne. rewrite Hr. simpl.
    destruct (setCookie r) as [|c cs] eqn:Hc; [congruence|]. simpl. auto.
  - intros nv attrs H. split;
      [apply before_semicolon_stops | apply before_semicolon_whole]; exact H.
Qed.

Lemma getSessionCookies_run w :
  run E (getSessionCookies E) w =
    match sessionCookies w, sessionExpiry w with
    | Some c, Some e =>
        if negb (String.eqb c "") && negb (e =? 0) && (clock E (history w) <? e)
        then (inr c, w) else run E (login E) w
    | _, _ => run E (login E) w
    end.
Proof.
  unfold getSessionCookies, call. cbn [bind run perform issue settle].
  destruct (sessionCookies w) as [c|]; [|reflexivity].
  destruct (sessionExpiry w) as [e|]; [|destruct w; reflexivity].
  destruct (negb (String.eqb c "") && negb (e =? 0)) eqn:H.
  - cbn [bind run perform issue settle andb].
    destruct (clock E (history w) <? e); [reflexivity|]. destruct w; reflexivity.
  - cbn [andb]. destruct w; reflexivity.
Qed.

Lemma login_extends w :
  history (snd (run E (login E) w)) <> history w.
Proof.
  rewrite login_run. cbv zeta.
  assert (forall (l : trace) a b, l ++ [a] ++ [b] <> l) as Hneq.
  { intros l a b H. apply (f_equal (@length _)) in H.
    rewrite !length_app in H. simpl in H. lia. }
  destruct (upstream E _ _) as [msg|r]; simpl.
  - rewrite <- app_assoc. apply Hneq.
  - destruct (length (setCookie r) =? 0)%nat; simpl; rewrite <- app_assoc; apply Hneq.
Qed.

End Session.

(** ** One attempt and the retry loop *)

Section Attempts.
Variable E : environment.

(** Every run only adds to the history. *)
Lemma perform_history {R} (o : op R) w :
  exists evs, history (snd (perform E o w)) = history w ++ evs.
Proof.
  destruct o; simpl; try (exists []; rewrite app_nil_r; reflexivity).
  - eexists. rewrite <- app_assoc. reflexivity.
  - eexists. rewrite <- app_assoc. reflexivity.
Qed.

Lemma run_history {A} (p : prog A) w :
  exists evs, history (snd (run E p w)) = history w ++ evs.
Proof.
  revert w. induction p as [a|e|R o k IH]; intros w; simpl.
  - exists []. apply eq_sym, app_nil_r.
  - exists []. apply eq_sym, app_nil_r.
  - destruct (perform_history o w) as [evs1 H1].
    destruct (perform E o w) as [r w1]. simpl in H1.
    destruct (IH r w1) as [evs2 H2]. exists (evs1 ++ evs2).
    rewrite H2, H1, app_assoc. reflexivity.
Qed.

Lemma since_app w w' evs : history w' = history w ++ evs -> since w w' = evs.
Proof. unfold since. intros ->. apply drop_app_length. Qed.

Lemma since_run {A} (p : prog A) w :
  history (snd (run E p w)) = history w ++ since w (snd (run E p w)).
Proof. destruct (run_history p w) as [evs H]. rewrite (since_app _ _ _ H). exact H. Qed.

Lemma since_trans w1 w2 w3 :
  (exists e1, history w2 = history w1 ++ e1) ->
  (exists e2, history w3 = history w2 ++ e2) ->
  since w1 w3 = since w1 w2 ++ since w2 w3.
Proof.
  intros [e1 H1] [e2 H2].
  rewrite (since_app _ _ _ H1), (since_app _ _ _ H2).
  apply since_app. rewrite H2, H1, app_assoc. reflexivity.
Qed.

Lemma timers_app t1 t2 : timers (t1 ++ t2) = timers t1 ++ timers t2.
Proof.
  induction t1 as [|ev t1 IH]; simpl; [reflexivity|].
  destruct ev; simpl; rewrite IH; reflexivity.
Qed.

Lemma read_pdf_run r w :
  run E (read_pdf r) w =
    if isPDF (payload r) then (inr (payload r), w) else (inl NotPdf, w).
Proof. unfold read_pdf. destruct (isPDF (payload r)); reflexivity. Qed.

Lemma fetch_run q w :
  run E (fetch q) w =
    match perform E (Fetch q) w with
    | (inl msg, w1) => (inl (FetchFailed msg), w1)
    | (inr r, w1) => (inr r, w1)
    end.
Proof.
  unfold fetch, call. cbn [bind run].
  destruct (perform E (Fetch q) w) as [[msg|r] w1]; reflexivity.
Qed.

Lemma relogin_and_retry_run url w :
  run E (relogin_and_retry E url) w =
    match run E (login E) (set_cookies None w) with
    | (inl e, w1) => (inl e, w1)
    | (inr c, w1) =>
        match perform E (Fetch (pdf_request url c false)) w1 with
        | (inl msg, w2) => (inl (FetchFailed msg), w2)
        | (inr r2, w2) =>
            if ok r2 then
              if isPDF (payload r2) then (inr (payload r2), w2) else (inl NotPdf, w2)
            else (inl (HttpError (status r2) (statusText r2)), w2)
        end
    end.
Proof.
  unfold relogin_and_retry, call. cbn [bind run].
  change (perform E (WriteCookies None) w) with (tt, set_cookies None w).
  cbv iota beta.
  rewrite run_bind, getSessionCookies_run. cbn [sessionCookies set_cookies].
  destruct (run E (login E) (set_cookies None w)) as [[e|c] w1]; [reflexivity|].
  rewrite run_bind, fetch_run.
  destruct (perform E (Fetch (pdf_request url c false)) w1) as [[msg|r2] w2];
    [reflexivity|].
  destruct (ok r2); simpl; [apply read_pdf_run | reflexivity].
Qed.

Lemma on_response_run url r w :
  run E (on_response E url r) w =
    if (status r =? 302)
       && match location r with
          | Some target => includes "forward=" target
          | None => false
          end
    then run E (relogin_and_retry E url) w
    else if negb (ok r) && negb (status r =? 302)
         then (inl (HttpError (status r) (statusText r)), w)
         else if isPDF (payload r) then (inr (payload r), w) else (inl NotPdf, w).
Proof.
  unfold on_response.
  assert (forall t, negb (String.eqb t "") && includes "forward=" t = includes "forward=" t) as Hinc.
  { intros [|c t]; reflexivity. }
  destruct (status r =? 302); cbn [andb].
  - destruct (location r) as [t|].
    + rewrite Hinc. destruct (includes "forward=" t); [reflexivity|].
      destruct (negb (ok r) && negb true); [reflexivity | apply read_pdf_run].
    + destruct (negb (ok r) && negb true); [reflexivity | apply read_pdf_run].
  - destruct (negb (ok r) && negb false); [reflexivity | apply read_pdf_run].
Qed.

Lemma attempt_body_run url k w :
  run E (attempt_body E url k) w =
    match run E (first_exchange E url k) w with
    | (inl e, w1) => (inl e, w1)
    | (inr r, w1) => run E (on_response E url r) w1
    end.
Proof. unfold attempt_body. rewrite run_bind. destruct (run E _ w) as [[e|r] w1]; reflexivity. Qed.

Lemma attempts_step url n rem k w :
  run E (attempts E url n (S rem) k) w =
    match run E (attempt_body E url k) w with
    | (inr buf, w1) => (inr (Some buf), w1)
    | (inl e, w1) =>
        if is_last k n then (inl (FailedAfter n (message e)), w1)
        else run E (attempts E url n rem (S k)) w1
    end.
Proof.
  cbn [attempts]. rewrite run_try_catch, run_bind.
  destruct (run E (attempt_body E url k) w) as [[e|buf] w1]; [|reflexivity].
  destruct (is_last k n); reflexivity.
Qed.

Lemma template_run v w :
  run E (template v) w =
    match ToString v with
    | Some s => (inr s, w)
    | None => (inl (TypeError "Cannot convert object to primitive value"), w)
    end.
Proof. unfold template. destruct (ToString v); reflexivity. Qed.

(** [attempt === maxRetries] when [maxRetries] is the whole number [n]. *)
Lemma is_last_whole k n maxRetries :
  maxRetries == whole n -> is_last k maxRetries = (k =? n)%nat.
Proof.
  intros Hn. unfold is_last. rewrite Hn. unfold whole.
  destruct (Nat.eqb_spec k n) as [->|Hne].
  - apply Qeq_bool_refl.
  - destruct (Qeq_bool _ _) eqn:H; [|reflexivity].
    apply Qeq_bool_eq in H. apply -> inject_Z_injective in H. exfalso. lia.
Qed.

Lemma floor_whole n maxRetries :
  maxRetries == whole n -> Z.to_nat (Qfloor maxRetries) = n.
Proof.
  intros Hn. rewrite (Qfloor_comp _ _ Hn). unfold whole. rewrite Qfloor_Z. lia.
Qed.

(** The loop condition [attempt <= maxRetries] holds for the attempts up
    to the integer part of [maxRetries], and for no other. *)
Lemma loop_condition attempt maxRetries :
  (1 <= attempt)%nat ->
  Qle_bool (whole attempt) maxRetries = (attempt <=? Z.to_nat (Qfloor maxRetries))%nat.
Proof.
  intros Hattempt. unfold whole. destruct (Nat.leb_spec attempt (Z.to_nat (Qfloor maxRetries))) as [H|H].
  - apply Qle_bool_iff. eapply Qle_trans; [|apply Qfloor_le].
    rewrite <- Zle_Qle. lia.
  - destruct (Qle_bool _ _) eqn:Hle; [|reflexivity].
    apply Qle_bool_iff in Hle. apply Qfloor_resp_le in Hle. rewrite Qfloor_Z in Hle. lia.
Qed.

End Attempts.

(** ** Timers *)

Section Timers.
Variable E : environment.

Lemma uses_only_bind {A B} (Q : forall R, op R -> Prop) (p : prog A) (f : A -> prog B) :
  uses_only Q p -> (forall a, uses_only Q (f a)) -> uses_only Q (bind p f).
Proof. intros Hp Hf. induction Hp; simpl; auto with route. Qed.

Lemma uses_only_try_catch {A} (Q : forall R, op R -> Prop) (p : prog A) h :
  uses_only Q p -> (forall e, uses_only Q (h e)) -> uses_only Q (try_catch p h).
Proof. intros Hp Hh. induction Hp; simpl; auto with route. Qed.

Lemma uses_only_call {R} (Q : forall R, op R -> Prop) (o : op R) :
  Q R o -> uses_only Q (call o).
Proof. intros H. unfold call. auto with route. Qed.

Lemma uses_only_fetch (Q : forall R, op R -> Prop) q :
  Q _ (Fetch q) -> uses_only Q (fetch q).
Proof.
  intros H. unfold fetch. apply uses_only_bind; [apply uses_only_call, H|].
  intros [msg|r]; auto with route.
Qed.

Lemma login_uses P : uses_only (delay_ok P) (login E).
Proof.
  unfold login. apply uses_only_bind; [apply uses_only_fetch; exact I|].
  intros r. destruct (length (setCookie r) =? 0)%nat; auto with route.
  repeat (apply uses_only_bind; [apply uses_only_call; exact I | intros ?]).
  auto with route.
Qed.

Lemma getSessionCookies_uses P : uses_only (delay_ok P) (getSessionCookies E).
Proof.
  unfold getSessionCookies.
  apply uses_only_bind; [apply uses_only_call; exact I | intros c].
  apply uses_only_bind; [apply uses_only_call; exact I | intros e].
  destruct c as [c|]; [|apply login_uses].
  destruct e as [e|]; [|apply login_uses].
  destruct (negb (String.eqb c "") && negb (e =? 0)); [|apply login_uses].
  apply uses_only_bind; [apply uses_only_call; exact I | intros now].
  destruct (now <? e); [auto with route | apply login_uses].
Qed.

Lemma read_pdf_uses (Q : forall R, op R -> Prop) r : uses_only Q (read_pdf r).
Proof. unfold read_pdf. destruct (negb (isPDF (payload r))); auto with route. Qed.

Lemma on_response_uses P url r : uses_only (delay_ok P) (on_response E url r).
Proof.
  assert (uses_only (delay_ok P) (relogin_and_retry E url)) as Hre.
  { unfold relogin_and_retry.
    apply uses_only_bind; [apply uses_only_call; exact I | intros _].
    apply uses_only_bind; [apply getSessionCookies_uses | intros c].
    apply uses_only_bind; [apply uses_only_fetch; exact I | intros r2].
    destruct (negb (ok r2)); [auto with route | apply read_pdf_uses]. }
  assert (uses_only (delay_ok P)
            (if negb (ok r) && negb (status r =? 302)
             then Throw (HttpError (status r) (statusText r))
             else read_pdf r)) as Hother.
  { destruct (negb (ok r) && negb (status r =? 302));
      [auto with route | apply read_pdf_uses]. }
  unfold on_response. destruct (status r =? 302); [|exact Hother].
  destruct (location r) as [t|]; [|exact Hother].
  destruct (negb (String.eqb t "") && includes "forward=" t); [exact Hre | exact Hother].
Qed.

Lemma attempt_body_uses (P : Z -> Prop) url k :
  ((1 < k)%nat -> P (backoffDelay k)) ->
  uses_only (delay_ok P) (attempt_body E url k).
Proof.
  intros Hk. unfold attempt_body, first_exchange, backoff.
  apply uses_only_bind; [|intros r; apply on_response_uses].
  apply uses_only_bind.
  - destruct (Nat.ltb_spec 1 k); [|auto with route].
    apply uses_only_call. simpl. auto.
  - intros _. apply uses_only_bind; [apply getSessionCookies_uses|].
    intros c. apply uses_only_fetch. exact I.
Qed.

Lemma attempts_uses (P : Z -> Prop) url n rem k :
  (forall a, (1 < a)%nat -> P (backoffDelay a)) ->
  uses_only (delay_ok P) (attempts E url n rem k).
Proof.
  intros HP. revert k. induction rem as [|rem IH]; intros k; simpl.
  - auto with route.
  - apply uses_only_try_catch.
    + apply uses_only_bind; [apply attempt_body_uses; auto | auto with route].
    + intros e. destruct (is_last k n); [auto with route | apply IH].
Qed.

(** What a run adds to the history sets only timers the tree contains. *)
Lemma perform_timers {R} P (o : op R) w :
  delay_ok P R o ->
  exists evs, history (snd (perform E o w)) = history w ++ evs
              /\ Forall P (timers evs).
Proof.
  destruct o; simpl; intros H;
    try (exists []; split; [apply eq_sym, app_nil_r | constructor]).
  - eexists. rewrite <- app_assoc. split; [reflexivity | constructor].
  - eexists. rewrite <- app_assoc. split; [reflexivity|]. simpl. auto.
Qed.

Lemma run_timers {A} P (p : prog A) w :
  uses_only (delay_ok P) p ->
  Forall P (timers (since w (snd (run E p w)))).
Proof.
  intros Hp.
  enough (exists evs, history (snd (run E p w)) = history w ++ evs
                      /\ Forall P (timers evs)) as (evs & H & HP).
  { rewrite (since_app _ _ _ H). exact HP. }
  revert w. induction Hp as [a|e|R o k Ho Hk IH]; intros w; simpl.
  - exists []. split; [apply eq_sym, app_nil_r | constructor].
  - exists []. split; [apply eq_sym, app_nil_r | constructor].
  - destruct (perform_timers P o w Ho) as (evs1 & H1 & HP1).
    destruct (perform E o w) as [r w1]. simpl in H1.
    destruct (IH r w1) as (evs2 & H2 & HP2). exists (evs1 ++ evs2). split.
    + rewrite H2, H1, app_assoc. reflexivity.
    + rewrite timers_app. apply Forall_app. auto.
Qed.

Lemma run_no_timers {A} (p : prog A) w :
  uses_only (delay_ok (fun _ => False)) p ->
  timers (since w (snd (run E p w))) = [].
Proof.
  intros Hp. pose proof (run_timers _ p w Hp) as H.
  destruct (timers _) as [|ms l]; [reflexivity|]. inversion H; contradiction.
Qed.

Lemma attempt_body_backoff url k w :
  (1 < k)%nat ->
  run E (attempt_body E url k) w =
    run E (attempt_body E url 1)
      (record [TimerSet (backoffDelay k); TimerFired (backoffDelay k)] w).
Proof.
  intros Hk. unfold attempt_body, first_exchange, backoff.
  destruct (Nat.ltb_spec 1 k); [|lia]. simpl. unfold perform. simpl.
  unfold record. simpl. rewrite <- app_assoc. reflexivity.
Qed.

Lemma attempt_body_timers url k w :
  timers (since w (snd (run E (attempt_body E url k) w)))
  = if (1 <? k)%nat then [backoffDelay k] else [].
Proof.
  destruct (Nat.ltb_spec 1 k) as [Hk|Hk].
  - rewrite attempt_body_backoff by exact Hk.
    set (w0 := record _ w).
    rewrite (since_trans w w0).
    + rewrite timers_app, run_no_timers by (apply attempt_body_uses; lia).
      rewrite app_nil_r. unfold since, w0. simpl. rewrite drop_app_length. reflexivity.
    + eexists. reflexivity.
    + apply run_history.
  - apply run_no_timers. apply attempt_body_uses. lia.
Qed.

Lemma attempts_run_from url maxRetries rem k w :
  let made := attempts_made E url maxRetries rem k w in
  let outcome := run E (attempts E url maxRetries rem k) w in
  (made <= rem)%nat
  /\ timers (since w (snd outcome))
     = flat_map (fun a => if (1 <? a)%nat then [backoffDelay a] else []) (seq k made)
  /\ (forall n, maxRetries == whole n -> (k + rem = S n)%nat -> (1 <= rem)%nat ->
      (exists buf, fst outcome = inr (Some buf))
      \/ (made = rem
          /\ exists e, fst outcome = inl (FailedAfter maxRetries (message e))))
  /\ ((forall a, is_last a maxRetries = false) ->
      (exists buf, fst outcome = inr (Some buf))
      \/ (made = rem /\ fst outcome = inr None)).
Proof.
  revert k w. induction rem as [|rem IH]; intros k w made outcome.
  - subst made outcome. simpl. split; [lia|]. split; [|split; [lia | auto]].
    unfold since. rewrite drop_all. reflexivity.
  - subst made outcome. rewrite attempts_step. cbn [attempts_made].
    pose proof (attempt_body_timers url k w) as Ht.
    pose proof (run_history E (attempt_body E url k) w) as Hh.
    destruct (run E (attempt_body E url k) w) as [[e|buf] w1]; simpl in Ht, Hh.
    + destruct (is_last k maxRetries) eqn:Hlast.
      * simpl. split; [lia|]. split; [rewrite app_nil_r; exact Ht|]. split.
        -- intros n Hn Hsum _. rewrite (is_last_whole k n maxRetries Hn) in Hlast.
           apply Nat.eqb_eq in Hlast. right. split; [lia | eauto].
        -- intros Hnever. rewrite Hnever in Hlast. discriminate.
      * destruct (IH (S k) w1) as (Hle & Htim & Hout & Hfall).
        split; [lia|]. split; [|split].
        -- rewrite (since_trans w w1); [|exact Hh | apply run_history].
           rewrite timers_app, Ht, Htim. reflexivity.
        -- intros n Hn Hsum _. rewrite (is_last_whole k n maxRetries Hn) in Hlast.
           apply Nat.eqb_neq in Hlast.
           destruct (Hout n Hn) as [Hok|[Hm Hfail]]; [lia | lia | auto |].
           right. split; [lia | exact Hfail].
        -- intros Hnever. destruct (Hfall Hnever) as [Hok|[Hm Hnone]]; [auto|].
           right. split; [lia | exact Hnone].
    + simpl. split; [lia|]. split; [rewrite app_nil_r; exact Ht|].
      split; [intros n _ _ _|intros _]; left; eauto.
Qed.

(** What [generatePdfForReservation] does once its two values have
    printed. *)
Lemma generatePdf_run htlCode resId maxRetries w :
  run E (generatePdfForReservation E htlCode resId maxRetries) w =
    match ToString htlCode, ToString resId with
    | Some h, Some i =>
        run E (attempts E (pdfUrl E h i) maxRetries (Z.to_nat (Qfloor maxRetries)) 1) w
    | _, _ => (inl (TypeError "Cannot convert object to primitive value"), w)
    end.
Proof.
  unfold generatePdfForReservation, template.
  destruct (ToString htlCode) as [h|]; [|reflexivity].
  destruct (ToString resId) as [i|]; reflexivity.
Qed.

End Timers.

(** ** The cached session; documents are PDFs *)

Section Documents.
Variable E : environment.

(** C7, as amended. [getSessionCookies] returns the cached cookie header,
    without touching the world, exactly when [sessionCookies] holds a
    non-empty header, [sessionExpiry] holds a non-zero time and the clock is
    strictly before it; otherwise it is [login], which on success caches
    the new header with its expiry and returns it. *)
Theorem getSessionCookies_cached_or_fresh w :
  let live c :=
    c <> "" /\ exists e, sessionExpiry w = Some e /\ e <> 0
                         /\ clock E (history w) < e in
  (forall c, sessionCookies w = Some c -> live c ->
     run E (getSessionCookies E) w = (inr c, w))
  /\ (forall c, run E (getSessionCookies E) w = (inr c, w) ->
      sessionCookies w = Some c /\ live c)
  /\ ((forall c, sessionCookies w = Some c -> ~ live c) ->
      run E (getSessionCookies E) w = run E (login E) w
      /\ forall header w', run E (getSessionCookies E) w = (inr header, w') ->
           sessionCookies w' = Some header
           /\ sessionExpiry w' = Some (clock E (history w') + 30 * 60 * 1000)
           /\ exists r,
               history w' = history w ++ [Issued (login_request E);
                                          Settled (login_request E) (inr r)]).
Proof.
  cbv zeta. rewrite getSessionCookies_run.
  assert (forall c, run E (login E) w <> (inr c, w)) as Hlogin.
  { intros c H. apply (login_extends E w). rewrite H. reflexivity. }
  assert (forall header w', run E (login E) w = (inr header, w') ->
            sessionCookies w' = Some header
            /\ sessionExpiry w' = Some (clock E (history w') + 30 * 60 * 1000)
            /\ exists r, history w' = history w ++ [Issued (login_request E);
                                                    Settled (login_request E) (inr r)])
    as Hcached.
  { intros header w' Hrun. rewrite login_run in Hrun. cbv zeta in Hrun.
    destruct (upstream E _ _) as [msg|r] eqn:Hup; [discriminate|].
    destruct (length (setCookie r) =? 0)%nat; [discriminate|].
    injection Hrun as <- <-. simpl. split; [reflexivity|]. split; [reflexivity|].
    exists r. rewrite <- app_assoc. reflexivity. }
  destruct (sessionCookies w) as [c|] eqn:Hc.
  2:{ split; [discriminate|]. split; [intros c H; destruct (Hlogin c H)|].
      intros _. split; [reflexivity | exact Hcached]. }
  destruct (sessionExpiry w) as [e|] eqn:He.
  2:{ split; [intros c' _ (_ & e & He' & _); discriminate|].
      split; [intros c' H; destruct (Hlogin c' H)|].
      intros _. split; [reflexivity | exact Hcached]. }
  destruct (negb (String.eqb c "") && negb (e =? 0) && (clock E (history w) <? e)) eqn:Hb.
  - apply andb_true_iff in Hb as [Hb Hnow]. apply andb_true_iff in Hb as [Hne He0].
    apply negb_true_iff, String.eqb_neq in Hne. apply negb_true_iff, Z.eqb_neq in He0.
    apply Z.ltb_lt in Hnow.
    split; [intros c' [= <-] _; reflexivity|].
    split; [intros c' [= <-]; split; [reflexivity|]; split; [exact Hne|]; exists e; auto|].
    intros Hno. exfalso. apply (Hno c eq_refl). split; [exact Hne|]. exists e. auto.
  - assert (~ (c <> "" /\ e <> 0 /\ clock E (history w) < e)) as Hnot.
    { intros (Hne & He0 & Hnow).
      apply String.eqb_neq in Hne. apply Z.eqb_neq in He0. apply Z.ltb_lt in Hnow.
      rewrite Hne, He0, Hnow in Hb. discriminate. }
    split; [intros c' [= <-] (Hne & e' & [= <-] & He0 & Hnow); exfalso; auto|].
    split; [intros c' H; destruct (Hlogin c' H)|].
    intros _. split; [reflexivity | exact Hcached].
Qed.

Lemma read_pdf_ends r : ends_in (pdf_only Some) (read_pdf r).
Proof.
  unfold read_pdf. destruct (isPDF (payload r)) eqn:H; simpl; constructor.
  - intros a buf [= <-] [= <-]. exact H.
  - discriminate.
Qed.

Lemma ends_in_any {A : Type} (p : prog A) : ends_in (fun _ => True) p.
Proof. induction p; constructor; auto. Qed.

Lemma on_response_ends url r : ends_in (pdf_only Some) (on_response E url r).
Proof.
  assert (ends_in (pdf_only Some) (relogin_and_retry E url)) as Hre.
  { unfold relogin_and_retry.
    apply (ends_in_bind (fun _ => True)); [apply ends_in_any | intros _ _ | discriminate].
    apply (ends_in_bind (fun _ => True)); [apply ends_in_any | intros c _ | discriminate].
    apply (ends_in_bind (fun _ => True)); [apply ends_in_any | intros r2 _ | discriminate].
    destruct (negb (ok r2)); [constructor; discriminate | apply read_pdf_ends]. }
  assert (ends_in (pdf_only Some)
            (if negb (ok r) && negb (status r =? 302)
             then Throw (HttpError (status r) (statusText r))
             else read_pdf r)) as Hother.
  { destruct (negb (ok r) && negb (status r =? 302));
      [constructor; discriminate | apply read_pdf_ends]. }
  unfold on_response. destruct (status r =? 302); [|exact Hother].
  destruct (location r) as [t|]; [|exact Hother].
  destruct (negb (String.eqb t "") && includes "forward=" t); [exact Hre | exact Hother].
Qed.

Lemma attempts_ends url n rem k : ends_in (pdf_only id) (attempts E url n rem k).
Proof.
  revert k. induction rem as [|rem IH]; intros k; simpl.
  - constructor. intros a buf [= <-]. discriminate.
  - apply (ends_in_try_catch (pdf_only id) (pdf_only id)).
    + apply (ends_in_bind (pdf_only Some)).
      * unfold attempt_body.
        apply (ends_in_bind (fun _ => True));
          [apply ends_in_any | intros r _; apply on_response_ends | discriminate].
      * intros buf H. constructor. intros a buf' [= <-] [= <-]. apply (H buf buf); reflexivity.
      * discriminate.
    + auto.
    + intros e _. destruct (is_last k n); [constructor; discriminate | apply IH].
Qed.

Lemma generatePdf_ends htl res n :
  ends_in (pdf_only id) (generatePdfForReservation E htl res n).
Proof.
  unfold generatePdfForReservation, template.
  destruct (ToString htl) as [h|]; [|constructor; discriminate].
  destruct (ToString res) as [i|]; [|constructor; discriminate].
  apply attempts_ends.
Qed.

End Documents.

(** ** Tasks of a group *)

Section Scheduler.
Variable E : environment.
Context {A X : Type}.
Variable P : X -> error + A -> Prop.

Lemma advance_ends x (p : prog A) w :
  ends_in (P x) p -> task_ends (P x) (fst (advance E p w)).
Proof.
  intros Hp. revert w. induction Hp as [a Ha|e He|R o k Hk IH]; intros w; simpl; auto.
  destruct (waits o); simpl; [exact Hk|].
  destruct (settle E o w) as [r w1]. apply IH.
Qed.

Lemma resume_ends x (t : task A) w :
  task_ends (P x) t -> task_ends (P x) (fst (resume E t w)).
Proof.
  destruct t as [r|R o k]; simpl; [auto|]. intros H.
  destruct (settle E o w) as [r w1]. apply advance_ends, H.
Qed.

Lemma finish_ends x (t : task A) w :
  task_ends (P x) t -> P x (fst (finish E t w)).
Proof.
  destruct t as [r|R o k]; simpl; [auto|]. intros H.
  destruct (settle E o w) as [r w1]. apply ends_in_run, H.
Qed.

Lemma start_all_ends xs (ps : list (prog A)) w :
  Forall2 (fun x p => ends_in (P x) p) xs ps ->
  Forall2 (fun x t => task_ends (P x) t) xs (fst (start_all E ps w)).
Proof.
  intros H. revert w. induction H as [|x p xs ps Hp _ IH]; intros w; simpl.
  - constructor.
  - pose proof (advance_ends x p w Hp) as Ht.
    destruct (advance E p w) as [t w1]. specialize (IH w1).
    destruct (start_all E ps w1) as [ts w2]. simpl in *. constructor; assumption.
Qed.

Lemma settle_in_order_ends schedule xs (ts : list (task A)) w :
  Forall2 (fun x t => task_ends (P x) t) xs ts ->
  Forall2 (fun x t => task_ends (P x) t) xs (fst (settle_in_order E schedule ts w)).
Proof.
  revert ts w. induction schedule as [|i later IH]; intros ts w H; simpl; [exact H|].
  destruct (rejection ts); [exact H|].
  destruct (ts !! i) as [t|] eqn:Hi; [|apply IH, H].
  destruct (Forall2_lookup_r _ _ _ _ _ H Hi) as (x & Hx & Ht).
  pose proof (resume_ends x t w Ht) as Ht'.
  destruct (resume E t w) as [t' w1]. simpl in Ht'. apply IH.
  rewrite <- (list_insert_id xs i x Hx). apply Forall2_insert; assumption.
Qed.

Lemma rejection_ends xs (ts : list (task A)) e :
  Forall2 (fun x t => task_ends (P x) t) xs ts ->
  rejection ts = Some e -> exists x, x ∈ xs /\ P x (inl e).
Proof.
  induction 1 as [|x t xs ts Ht _ IH]; simpl; [discriminate|].
  destruct t as [[e'|a]|R o k].
  - intros [= ->]. exists x. split; [left | exact Ht].
  - intros H. destruct (IH H) as (x' & Hin & Hx'). exists x'. split; [right|]; assumption.
  - intros H. destruct (IH H) as (x' & Hin & Hx'). exists x'. split; [right|]; assumption.
Qed.

Lemma finish_all_ends xs (ts : list (task A)) w :
  Forall2 (fun x t => task_ends (P x) t) xs ts ->
  match fst (finish_all E ts w) with
  | inr l => Forall2 (fun x a => P x (inr a)) xs l
  | inl e => exists x, x ∈ xs /\ P x (inl e)
  end.
Proof.
  intros H. revert w. induction H as [|x t xs ts Ht _ IH]; intros w; simpl.
  - constructor.
  - pose proof (finish_ends x t w Ht) as Hr.
    destruct (finish E t w) as [[e|a] w1]; simpl in *.
    + exists x. split; [left | exact Hr].
    + specialize (IH w1). destruct (finish_all E ts w1) as [[e|l] w2]; simpl in *.
      * destruct IH as (x' & Hin & Hx'). exists x'. split; [right|]; assumption.
      * constructor; assumption.
Qed.

Lemma run_all_ends schedule xs (ps : list (prog A)) w :
  Forall2 (fun x p => ends_in (P x) p) xs ps ->
  match fst (run_all E ps schedule w) with
  | inr l => Forall2 (fun x a => P x (inr a)) xs l
  | inl e => exists x, x ∈ xs /\ P x (inl e)
  end.
Proof.
  intros H. unfold run_all.
  pose proof (start_all_ends xs ps w H) as H1.
  destruct (start_all E ps w) as [ts w1]. simpl in H1.
  pose proof (settle_in_order_ends schedule xs ts w1 H1) as H2.
  destruct (settle_in_order E schedule ts w1) as [ts' w2]. simpl in H2.
  destruct (rejection ts') as [e|] eqn:Hrej.
  - simpl. apply (rejection_ends xs ts' e H2 Hrej).
  - apply finish_all_ends, H2.
Qed.

End Scheduler.

(** ** Outcomes of a group *)

Section Orchestrator.
Variable E : environment.

Lemma attempts_defined url maxRetries n rem k :
  maxRetries == whole n -> (k + rem = S n)%nat -> (1 <= rem)%nat ->
  ends_in (fun out => forall a, out = inr a -> exists buf, a = Some buf /\ isPDF buf = true)
    (attempts E url maxRetries rem k).
Proof.
  intros Hn. revert k. induction rem as [|rem IH]; intros k Hsum Hrem; [lia|]. simpl.
  eapply ends_in_try_catch with (Q := fun out => forall a, out = inr a ->
                                        exists buf, a = Some buf /\ isPDF buf = true).
  - apply (ends_in_bind (pdf_only Some)).
    + unfold attempt_body.
      apply (ends_in_bind (fun _ => True));
        [apply ends_in_any | intros r _; apply on_response_ends | discriminate].
    + intros buf H. constructor. intros a [= <-]. exists buf. split; [reflexivity|].
      apply (H buf buf); reflexivity.
    + discriminate.
  - auto.
  - intros e _. rewrite (is_last_whole k n maxRetries Hn).
    destruct (Nat.eqb_spec k n) as [Hk|Hk]; [constructor; discriminate|].
    apply IH; lia.
Qed.

Lemma prints_values r :
  prints r = true <-> exists h i, ToString (htl_code r) = Some h /\ ToString (res_id r) = Some i.
Proof.
  unfold prints, archive_name.
  destruct (ToString (htl_code r)) as [h|]; [destruct (ToString (res_id r)) as [i|]|].
  - split; [eauto | reflexivity].
  - split; [discriminate | intros (h' & i & _ & H); discriminate].
  - split; [discriminate | intros (h' & i & H & _); discriminate].
Qed.

(** The callback without the template that stands before its [try]. *)
Lemma batch_task_prints r :
  batch_task E r = if prints r then spec_task E r
                   else Throw (TypeError "Cannot convert object to primitive value").
Proof.
  unfold batch_task, spec_task, prints, archive_name, template.
  destruct (ToString (res_id r)) as [i|], (ToString (htl_code r)) as [h|]; reflexivity.
Qed.

Lemma spec_task_ends r :
  prints r = true ->
  ends_in (fun out => exists o, out = inr o /\ fetched r o) (spec_task E r).
Proof.
  intros Hr. apply prints_values in Hr as (h & i & Hh & Hi).
  unfold spec_task, generatePdfForReservation, template. rewrite Hh, Hi. cbn [bind].
  eapply ends_in_try_catch with (Q := fun out => forall o, out = inr o -> fetched r o).
  - eapply ends_in_bind;
      [apply (attempts_defined _ 3 3 3 1); [reflexivity | lia | lia] | |discriminate].
    intros a Ha. destruct (Ha a eq_refl) as (buf & -> & Hpdf).
    constructor. intros o [= <-]. right. exists buf, (h +:+ "-" +:+ i +:+ ".pdf").
    split; [exact Hpdf|]. split; [|reflexivity].
    unfold archive_name. rewrite Hh, Hi. reflexivity.
  - intros a Ha. exists a. split; [reflexivity | apply Ha; reflexivity].
  - intros e _. constructor. exists None. split; [reflexivity | left; reflexivity].
Qed.

Lemma batch_task_ends r :
  ends_in (fun out => if prints r then exists o, out = inr o /\ fetched r o
                      else out = inl (TypeError "Cannot convert object to primitive value"))
    (batch_task E r).
Proof.
  rewrite batch_task_prints. destruct (prints r) eqn:Hr.
  - apply spec_task_ends, Hr.
  - constructor. reflexivity.
Qed.

Lemma map_batch_task batch :
  Forall (fun r => prints r = true) batch ->
  map (batch_task E) batch = map (spec_task E) batch.
Proof.
  induction 1 as [|r batch Hr _ IH]; [reflexivity|]. simpl.
  rewrite IH, batch_task_prints, Hr. reflexivity.
Qed.

(** A group whose values all print gives one outcome for each of its
    reservations, in their order. *)
Lemma run_batch_outcomes schedule (batch : list reservation) w :
  Forall (fun r => prints r = true) batch ->
  exists outs,
    run_all E (map (spec_task E) batch) schedule w
    = (inr outs, snd (run_all E (map (spec_task E) batch) schedule w))
    /\ run_batch E schedule batch w = run_all E (map (spec_task E) batch) schedule w
    /\ Forall2 fetched batch outs.
Proof.
  intros Hbatch.
  pose proof (run_all_ends E (fun r out => exists o, out = inr o /\ fetched r o)
                schedule batch (map (spec_task E) batch) w) as H.
  unfold run_batch. rewrite (map_batch_task batch Hbatch).
  destruct (run_all E (map (spec_task E) batch) schedule w) as [[e|outs] w1]; simpl in *.
  - destruct H as (x & _ & o & Ho & _); [|discriminate].
    apply Forall2_fmap_r, Forall_Forall2_diag.
    eapply Forall_impl; [exact Hbatch|]. intros r Hr. apply spec_task_ends, Hr.
  - exists outs. split; [reflexivity|]. split; [reflexivity|].
    eapply Forall2_impl; [apply H|].
    + apply Forall2_fmap_r, Forall_Forall2_diag.
      eapply Forall_impl; [exact Hbatch|]. intros r Hr. apply spec_task_ends, Hr.
    + intros r o (o' & [= <-] & Hf). exact Hf.
Qed.

End Orchestrator.

(** ** The partition into groups *)

Section Partition.
Context {A : Type}.
Implicit Types (l : list A) (size fuel : nat).

Lemma spec_partition_fuel_enough size fuel1 fuel2 l :
  (1 <= size)%nat -> (length l <= fuel1)%nat -> (length l <= fuel2)%nat ->
  spec_partition_fuel fuel1 size l = spec_partition_fuel fuel2 size l.
Proof.
  intros Hsize. revert fuel2 l.
  induction fuel1 as [|fuel1 IH]; intros fuel2 l H1 H2.
  - destruct l; [|simpl in H1; lia]. destruct fuel2; reflexivity.
  - destruct l as [|x l]; [destruct fuel2; reflexivity|].
    destruct fuel2 as [|fuel2]; [simpl in H2; lia|].
    cbn [spec_partition_fuel]. f_equal.
    apply IH; rewrite length_drop; simpl in *; lia.
Qed.

Lemma spec_partition_nil size : spec_partition size (@nil A) = [].
Proof. reflexivity. Qed.

Lemma spec_partition_step size l :
  (1 <= size)%nat -> l <> [] ->
  spec_partition size l = take size l :: spec_partition size (drop size l).
Proof.
  intros Hsize Hl. unfold spec_partition.
  destruct l as [|x l]; [congruence|]. cbn [length spec_partition_fuel]. f_equal.
  apply spec_partition_fuel_enough; [exact Hsize | | lia].
  rewrite length_drop. simpl. lia.
Qed.

Lemma spec_partition_ind size (P : list A -> list (list A) -> Prop) :
  (1 <= size)%nat ->
  P [] [] ->
  (forall l, l <> [] -> P (drop size l) (spec_partition size (drop size l)) ->
             P l (take size l :: spec_partition size (drop size l))) ->
  forall l, P l (spec_partition size l).
Proof.
  intros Hsize Hnil Hstep l.
  remember (length l) as n eqn:Hn. revert l Hn.
  induction n as [n IH] using lt_wf_ind. intros l Hn.
  destruct l as [|x l]; [exact Hnil|].
  rewrite spec_partition_step by (auto; discriminate).
  apply Hstep; [discriminate|].
  apply (IH (length (drop size (x :: l)))); [|reflexivity].
  rewrite length_drop. simpl in *. lia.
Qed.

Lemma spec_partition_concat size l :
  (1 <= size)%nat -> concat (spec_partition size l) = l.
Proof.
  intros Hsize. apply (spec_partition_ind size (fun l gs => concat gs = l) Hsize).
  - reflexivity.
  - intros l' _ IH. simpl. rewrite IH. apply take_drop.
Qed.




End Partition.



(** ** The loop of the handler *)

Section Refinement.
Variable E : environment.

Lemma spec_task_first_wait r w :
  prints r = true ->
  exists q k, advance E (spec_task E r) w = (Waiting (Fetch q) k, record [Issued q] w).
Proof.
  intros Hr. apply prints_values in Hr as (h & i & Hh & Hi).
  unfold spec_task, generatePdfForReservation, template. rewrite Hh, Hi. cbn [bind].
  change (Z.to_nat (Qfloor 3)) with 3%nat. cbn [attempts].
  unfold attempt_body, first_exchange, backoff, getSessionCookies, call.
  cbn [Nat.ltb Nat.leb bind try_catch advance waits settle].
  destruct (sessionCookies w) as [c|]; [destruct (sessionExpiry w) as [e|]|].
  - destruct (negb (String.eqb c "") && negb (e =? 0)).
    + cbn [Nat.ltb Nat.leb bind try_catch advance waits settle].
      destruct (clock E (history w) <? e).
      * cbn. eexists _, _. reflexivity.
      * cbn. eexists _, _. reflexivity.
    + cbn. eexists _, _. reflexivity.
  - cbn. eexists _, _. reflexivity.
  - cbn. eexists _, _. reflexivity.
Qed.

(** Starting a group issues one request per reservation and settles none. *)
Lemma start_all_issues (batch : list reservation) w :
  Forall (fun r => prints r = true) batch ->
  exists reqs,
    length reqs = length batch
    /\ history (snd (start_all E (map (spec_task E) batch) w))
       = history w ++ map Issued reqs.
Proof.
  intros Hbatch. revert w.
  induction Hbatch as [|r batch Hr _ IH]; intros w; cbn [map start_all].
  - exists []. split; [reflexivity | apply eq_sym, app_nil_r].
  - destruct (spec_task_first_wait r w Hr) as (q & k & ->).
    destruct (IH (record [Issued q] w)) as (reqs & Hlen & Hh).
    destruct (start_all E _ (record [Issued q] w)) as [ts w2]. simpl in *.
    exists (q :: reqs). split; [simpl; lia|].
    rewrite Hh. simpl. rewrite <- app_assoc. reflexivity.
Qed.

Lemma settle_history {R} (o : op R) w :
  exists evs, history (snd (settle E o w)) = history w ++ evs.
Proof.
  destruct o; simpl; try (exists []; rewrite app_nil_r; reflexivity); eauto.
Qed.

Lemma advance_history {A} (p : prog A) w :
  exists evs, history (snd (advance E p w)) = history w ++ evs.
Proof.
  revert w. induction p as [a|e|R o k IH]; intros w; simpl.
  - exists []. apply eq_sym, app_nil_r.
  - exists []. apply eq_sym, app_nil_r.
  - destruct (waits o) eqn:Hw.
    + destruct o; try discriminate; simpl; eauto.
    + destruct (settle_history o w) as [evs1 H1].
      destruct (settle E o w) as [r w1]. simpl in H1.
      destruct (IH r w1) as [evs2 H2]. exists (evs1 ++ evs2).
      rewrite H2, H1, app_assoc. reflexivity.
Qed.

Lemma resume_history {A} (t : task A) w :
  exists evs, history (snd (resume E t w)) = history w ++ evs.
Proof.
  destruct t as [r|R o k]; simpl; [exists []; apply eq_sym, app_nil_r|].
  destruct (settle_history o w) as [evs1 H1].
  destruct (settle E o w) as [r w1]. simpl in H1.
  destruct (advance_history (k r) w1) as [evs2 H2]. exists (evs1 ++ evs2).
  rewrite H2, H1, app_assoc. reflexivity.
Qed.

Lemma finish_history {A} (t : task A) w :
  exists evs, history (snd (finish E t w)) = history w ++ evs.
Proof.
  destruct t as [r|R o k]; simpl; [exists []; apply eq_sym, app_nil_r|].
  destruct (settle_history o w) as [evs1 H1].
  destruct (settle E o w) as [r w1]. simpl in H1.
  destruct (run_history E (k r) w1) as [evs2 H2]. exists (evs1 ++ evs2).
  rewrite H2, H1, app_assoc. reflexivity.
Qed.

Lemma settle_in_order_history {A} schedule (ts : list (task A)) w :
  exists evs, history (snd (settle_in_order E schedule ts w)) = history w ++ evs.
Proof.
  revert ts w. induction schedule as [|i later IH]; intros ts w; simpl.
  - exists []. apply eq_sym, app_nil_r.
  - destruct (rejection ts); [exists []; apply eq_sym, app_nil_r|].
    destruct (ts !! i) as [t|]; [|apply IH].
    destruct (resume_history t w) as [evs1 H1].
    destruct (resume E t w) as [t' w1]. simpl in H1.
    destruct (IH (<[i:=t']> ts) w1) as [evs2 H2]. exists (evs1 ++ evs2).
    rewrite H2, H1, app_assoc. reflexivity.
Qed.

Lemma finish_all_history {A} (ts : list (task A)) w :
  exists evs, history (snd (finish_all E ts w)) = history w ++ evs.
Proof.
  revert w. induction ts as [|t ts IH]; intros w; simpl.
  - exists []. apply eq_sym, app_nil_r.
  - destruct (finish_history t w) as [evs1 H1].
    destruct (finish E t w) as [[e|a] w1]; simpl in H1; [eauto|].
    destruct (IH w1) as [evs2 H2].
    destruct (finish_all E ts w1) as [[e|l] w2]; simpl in *; exists (evs1 ++ evs2);
      rewrite H2, H1, app_assoc; reflexivity.
Qed.

(** A group runs at the same time: every task has its first request out
    before anything settles. *)
Lemma run_all_concurrent schedule (batch : list reservation) w :
  Forall (fun r => prints r = true) batch ->
  exists reqs later,
    length reqs = length batch
    /\ history (snd (run_all E (map (spec_task E) batch) schedule w))
       = history w ++ map Issued reqs ++ later.
Proof.
  intros Hbatch. unfold run_all.
  destruct (start_all_issues batch w Hbatch) as (reqs & Hlen & H1).
  destruct (start_all E (map (spec_task E) batch) w) as [ts w1]. simpl in H1.
  destruct (settle_in_order_history schedule ts w1) as [evs2 H2].
  destruct (settle_in_order E schedule ts w1) as [ts' w2]. simpl in H2.
  destruct (finish_all_history ts' w2) as [evs3 H3].
  destruct (rejection ts') as [e|].
  - exists reqs, evs2. split; [exact Hlen|]. simpl. rewrite H2, H1, <- !app_assoc. reflexivity.
  - exists reqs, (evs2 ++ evs3). split; [exact Hlen|].
    rewrite H3, H2, H1, <- !app_assoc. reflexivity.
Qed.

(** A reservation that does not print makes its callback reject when it is
    called, and with it [Promise.all], before any wait of the group has
    settled. *)
Lemma start_all_rejection (batch : list reservation) w :
  Exists (fun r => prints r = false) batch ->
  rejection (fst (start_all E (map (batch_task E) batch) w))
  = Some (TypeError "Cannot convert object to primitive value").
Proof.
  revert w. induction batch as [|r batch IH]; intros w Hex; [inversion Hex|].
  cbn [map start_all]. rewrite batch_task_prints.
  destruct (prints r) eqn:Hr.
  - destruct (spec_task_first_wait r w Hr) as (q & k & ->).
    assert (Exists (fun r => prints r = false) batch) as Hrest
      by (inversion Hex; [congruence | assumption]).
    specialize (IH (record [Issued q] w) Hrest).
    destruct (start_all E _ (record [Issued q] w)) as [ts w2]. exact IH.
  - cbn [advance]. destruct (start_all E _ w) as [ts w2]. reflexivity.
Qed.

Lemma settle_in_order_rejected {A} schedule (ts : list (task A)) w e :
  rejection ts = Some e -> settle_in_order E schedule ts w = (ts, w).
Proof. intros H. destruct schedule; simpl; [|rewrite H]; reflexivity. Qed.

Lemma run_batch_rejects schedule (batch : list reservation) w :
  Exists (fun r => prints r = false) batch ->
  run_batch E schedule batch w
  = (inl (TypeError "Cannot convert object to primitive value"),
     snd (start_all E (map (batch_task E) batch) w)).
Proof.
  intros Hex. unfold run_batch, run_all.
  pose proof (start_all_rejection batch w Hex) as Hrej.
  destruct (start_all E (map (batch_task E) batch) w) as [ts w1]. simpl in Hrej |- *.
  rewrite (settle_in_order_rejected schedule ts w1 _ Hrej), Hrej. reflexivity.
Qed.

Lemma process_batches_refines schedules reservations i pdfResults w :
  Forall (fun r => prints r = true) reservations ->
  forall number, i = (number * batchSize)%nat ->
  process_batches E schedules reservations i pdfResults w =
    (inr (pdfResults
          ++ non_null (fst (spec_orchestrate E schedules number
                             (spec_partition batchSize (drop i reservations)) w))),
     snd (spec_orchestrate E schedules number
            (spec_partition batchSize (drop i reservations)) w)).
Proof.
  apply (process_batches_elim E
           (fun schedules reservations i pdfResults w result =>
              Forall (fun r => prints r = true) reservations ->
              forall number, i = (number * batchSize)%nat ->
              result =
                (inr (pdfResults
                      ++ non_null (fst (spec_orchestrate E schedules number
                                         (spec_partition batchSize (drop i reservations)) w))),
                 snd (spec_orchestrate E schedules number
                        (spec_partition batchSize (drop i reservations)) w))));
    clear schedules reservations i pdfResults w.
  - intros schedules reservations i Hi pdfResults w _ _ number Hnum.
    rewrite drop_ge by lia. simpl. rewrite app_nil_r. reflexivity.
  - intros schedules reservations i Hi pdfResults w e w1 Hrun _ Hall number Hnum.
    destruct (run_batch_outcomes E (schedules (i / batchSize)%nat)
                (slice i (i + batchSize) reservations) w) as (outs & Heq & Hsame & _).
    { unfold slice. apply Forall_take, Forall_drop, Hall. }
    rewrite Hsame, Heq in Hrun. discriminate.
  - intros schedules reservations i Hi pdfResults w batchResults w1 IH Hrun _ Hall number Hnum.
    assert ((i / batchSize)%nat = number) as Hdiv
      by (subst i; unfold batchSize; rewrite Nat.div_mul; lia).
    assert (slice i (i + batchSize) reservations = take batchSize (drop i reservations))
      as Hslice by (unfold slice; f_equal; lia).
    rewrite Hdiv, Hslice in Hrun.
    destruct (run_batch_outcomes E (schedules number)
                (take batchSize (drop i reservations)) w) as (outs & Heq & Hsame & _).
    { apply Forall_take, Forall_drop, Hall. }
    rewrite Hsame in Hrun.
    assert (drop i reservations <> []) as Hne.
    { intros H. apply (f_equal (@length _)) in H. rewrite length_drop in H.
      simpl in H. lia. }
    rewrite (IH Hall (S number)) by (unfold batchSize in *; lia).
    rewrite (spec_partition_step batchSize (drop i reservations))
      by (auto; unfold batchSize; lia).
    rewrite drop_drop. cbn [spec_orchestrate].
    destruct (run_all E (map (spec_task E) (take batchSize (drop i reservations)))
                (schedules number) w) as [settled w1'].
    cbn [fst snd] in Hrun, Heq.
    assert (settled = inr batchResults) as -> by congruence.
    assert (w1 = w1') as -> by congruence.
    assert (pause_between E i (length reservations) w1'
            = match spec_partition batchSize (drop (i + batchSize) reservations) with
              | [] => w1'
              | _ => snd (run E (delay 200) w1')
              end) as ->.
    { unfold pause_between.
      destruct (Nat.ltb_spec (i + batchSize) (length reservations)) as [Hlt|Hge].
      - assert (drop (i + batchSize) reservations <> []) as Hne'.
        { intros H. apply (f_equal (@length _)) in H. rewrite length_drop in H.
          simpl in H. lia. }
        rewrite (spec_partition_step batchSize _) by (auto; unfold batchSize; lia).
        reflexivity.
      - rewrite drop_ge by lia. reflexivity. }
    destruct (spec_orchestrate E schedules (S number) _ _) as [later w3].
    cbn [fst snd]. unfold non_null. rewrite omap_app, app_assoc. reflexivity.
Qed.

Lemma spec_orchestrate_fetched schedules number groups w :
  Forall (fun r => prints r = true) (concat groups) ->
  Forall2 fetched (concat groups) (fst (spec_orchestrate E schedules number groups w)).
Proof.
  revert number w. induction groups as [|g more IH]; intros number w Hall; simpl.
  - constructor.
  - simpl in Hall. apply Forall_app in Hall as [Hg Hmore].
    destruct (run_batch_outcomes E (schedules number) g w Hg) as (outs & Heq & _ & Hf).
    destruct (run_all E (map (spec_task E) g) (schedules number) w) as [settled w1].
    simpl in Heq. injection Heq as ->.
    set (w2 := match more with [] => w1 | _ => _ end).
    specialize (IH (S number) w2 Hmore).
    destruct (spec_orchestrate E schedules (S number) more w2) as [later w3].
    simpl in *. apply Forall2_app; assumption.
Qed.

Lemma outcomes_fetched schedules reservations w :
  Forall (fun r => prints r = true) reservations ->
  Forall2 fetched reservations (outcomes E schedules reservations w).
Proof.
  intros Hall. unfold outcomes.
  pose proof (spec_orchestrate_fetched schedules 0
                (spec_partition batchSize reservations) w) as H.
  rewrite spec_partition_concat in H by (unfold batchSize; lia). apply H, Hall.
Qed.

End Refinement.

(** ** The timers of a group *)

Section GroupTimers.
Variable E : environment.
Variable P : Z -> Prop.

Definition adds_timers (w w' : world) : Prop :=
exists evs, history w' = history w ++ evs /\ Forall P (timers evs).

Lemma adds_timers_refl w : adds_timers w w.
Proof. exists []. split; [apply eq_sym, app_nil_r | constructor]. Qed.

Lemma adds_timers_trans w1 w2 w3 :
adds_timers w1 w2 -> adds_timers w2 w3 -> adds_timers w1 w3.
Proof.
intros (e1 & H1 & P1) (e2 & H2 & P2). exists (e1 ++ e2). split.
- rewrite H2, H1, app_assoc. reflexivity.
- rewrite timers_app. apply Forall_app. auto.
Qed.

Lemma settle_adds {R} (o : op R) w : adds_timers w (snd (settle E o w)).
Proof.
destruct o; simpl;
  try (exists []; split; [apply eq_sym, app_nil_r | constructor]; fail);
  eexists; (split; [reflexivity | simpl; constructor]).
Qed.

Lemma issue_adds {R} (o : op R) w : delay_ok P R o -> adds_timers w (issue o w).
Proof.
destruct o; simpl; intros H; try apply adds_timers_refl.
- eexists. split; [reflexivity | simpl; constructor].
- eexists. split; [reflexivity|]. simpl. auto.
Qed.

Lemma run_adds {A} (p : prog A) w :
uses_only (delay_ok P) p -> adds_timers w (snd (run E p w)).
Proof.
intros Hp. revert w. induction Hp as [a|e|R o k Ho Hk IH]; intros w; simpl;
  try apply adds_timers_refl.
unfold perform.
pose proof (issue_adds o w Ho) as H1.
pose proof (settle_adds o (issue o w)) as H2.
destruct (settle E o (issue o w)) as [r w1]. simpl in H2.
eapply adds_timers_trans; [exact H1|]. eapply adds_timers_trans; [exact H2 | apply IH].
Qed.

Lemma advance_adds {A} (p : prog A) w :
uses_only (delay_ok P) p ->
task_uses (delay_ok P) (fst (advance E p w)) /\ adds_timers w (snd (advance E p w)).
Proof.
intros Hp. revert w. induction Hp as [a|e|R o k Ho Hk IH]; intros w; simpl;
  try (split; [exact I | apply adds_timers_refl]).
destruct (waits o); simpl.
- split; [exact Hk | apply issue_adds, Ho].
- pose proof (settle_adds o w) as H1.
  destruct (settle E o w) as [r w1]. simpl in H1.
  destruct (IH r w1) as [Ht H2]. split; [exact Ht|].
  eapply adds_timers_trans; eassumption.
Qed.

Lemma resume_adds {A} (t : task A) w :
task_uses (delay_ok P) t ->
task_uses (delay_ok P) (fst (resume E t w)) /\ adds_timers w (snd (resume E t w)).
Proof.
destruct t as [r|R o k]; simpl; intros Ht.
- split; [exact I | apply adds_timers_refl].
- pose proof (settle_adds o w) as H1.
  destruct (settle E o w) as [r w1]. simpl in H1.
  destruct (advance_adds (k r) w1 (Ht r)) as [Ht' H2]. split; [exact Ht'|].
  eapply adds_timers_trans; eassumption.
Qed.

Lemma finish_adds {A} (t : task A) w :
task_uses (delay_ok P) t -> adds_timers w (snd (finish E t w)).
Proof.
destruct t as [r|R o k]; simpl; intros Ht; [apply adds_timers_refl|].
pose proof (settle_adds o w) as H1.
destruct (settle E o w) as [r w1]. simpl in H1.
eapply adds_timers_trans; [exact H1 | apply run_adds, Ht].
Qed.

Lemma start_all_adds {A} (ps : list (prog A)) w :
Forall (uses_only (delay_ok P)) ps ->
Forall (task_uses (delay_ok P)) (fst (start_all E ps w))
/\ adds_timers w (snd (start_all E ps w)).
Proof.
intros H. revert w. induction H as [|p ps Hp _ IH]; intros w; simpl.
- split; [constructor | apply adds_timers_refl].
- destruct (advance_adds p w Hp) as [Ht H1].
  destruct (advance E p w) as [t w1]. destruct (IH w1) as [Hts H2].
  destruct (start_all E ps w1) as [ts w2]. simpl in *.
  split; [constructor; assumption | eapply adds_timers_trans; eassumption].
Qed.

Lemma settle_in_order_adds {A} schedule (ts : list (task A)) w :
Forall (task_uses (delay_ok P)) ts ->
Forall (task_uses (delay_ok P)) (fst (settle_in_order E schedule ts w))
/\ adds_timers w (snd (settle_in_order E schedule ts w)).
Proof.
revert ts w. induction schedule as [|i later IH]; intros ts w Hts; simpl.
- split; [exact Hts | apply adds_timers_refl].
- destruct (rejection ts); [split; [exact Hts | apply adds_timers_refl]|].
  destruct (ts !! i) as [t|] eqn:Hi; [|apply IH, Hts].
  destruct (resume_adds t w (Forall_lookup_1 _ _ _ _ Hts Hi)) as [Ht H1].
  destruct (resume E t w) as [t' w1]. simpl in *.
  destruct (IH (<[i:=t']> ts) w1) as [Hts' H2]; [apply Forall_insert; assumption|].
  split; [exact Hts' | eapply adds_timers_trans; eassumption].
Qed.

Lemma finish_all_adds {A} (ts : list (task A)) w :
Forall (task_uses (delay_ok P)) ts -> adds_timers w (snd (finish_all E ts w)).
Proof.
intros H. revert w. induction H as [|t ts Ht _ IH]; intros w; simpl.
- apply adds_timers_refl.
- pose proof (finish_adds t w Ht) as H1.
  destruct (finish E t w) as [[e|a] w1]; simpl in H1; [exact H1|]. specialize (IH w1).
  destruct (finish_all E ts w1) as [[e|l] w2]; simpl in *;
    eapply adds_timers_trans; eassumption.
Qed.

Lemma run_all_adds {A} schedule (ps : list (prog A)) w :
Forall (uses_only (delay_ok P)) ps -> adds_timers w (snd (run_all E ps schedule w)).
Proof.
intros H. unfold run_all.
destruct (start_all_adds ps w H) as [Hts H1].
destruct (start_all E ps w) as [ts w1]. simpl in *.
destruct (settle_in_order_adds schedule ts w1 Hts) as [Hts' H2].
destruct (settle_in_order E schedule ts w1) as [ts' w2]. simpl in *.
eapply adds_timers_trans; [exact H1|].
destruct (rejection ts'); [exact H2|].
eapply adds_timers_trans; [exact H2|]. apply finish_all_adds, Hts'.
Qed.

End GroupTimers.

Section Pauses.
Variable E : environment.

Lemma template_uses {B} (Q : forall R, op R -> Prop) v (f : string -> prog B) :
  (forall s, uses_only Q (f s)) -> uses_only Q (let* s := template v in f s).
Proof.
  intros Hf. unfold template. destruct (ToString v); simpl; auto with route.
Qed.

Lemma attempts_uses_upto (P : Z -> Prop) url n rem k :
  (forall a, (1 < a)%nat -> (a < k + rem)%nat -> P (backoffDelay a)) ->
  uses_only (delay_ok P) (attempts E url n rem k).
Proof.
  revert k. induction rem as [|rem IH]; intros k HP; simpl.
  - auto with route.
  - apply uses_only_try_catch.
    + apply uses_only_bind; [|auto with route].
      apply attempt_body_uses. intros Hk. apply HP; lia.
    + intros e. destruct (is_last k n); [auto with route|].
      apply IH. intros a H1 H2. apply HP; lia.
Qed.

(** The timers of a callback are those before its second and its third
    attempt. *)
Lemma spec_task_uses (P : Z -> Prop) r :
  P 2000 -> P 4000 -> uses_only (delay_ok P) (spec_task E r).
Proof.
  intros H2 H4. unfold spec_task, generatePdfForReservation.
  apply uses_only_try_catch; [|auto with route].
  apply uses_only_bind.
  - apply template_uses. intros h. apply template_uses. intros i.
    change (Z.to_nat (Qfloor 3)) with 3%nat.
    apply attempts_uses_upto. intros a Ha1 Ha2.
    assert (a = 2 \/ a = 3)%nat as [->| ->] by lia; assumption.
  - intros pdfBlob. apply template_uses. intros h. apply template_uses. intros i.
    auto with route.
Qed.

Lemma batch_task_uses (P : Z -> Prop) r :
  P 2000 -> P 4000 -> uses_only (delay_ok P) (batch_task E r).
Proof.
  intros H2 H4. rewrite batch_task_prints.
  destruct (prints r); [apply spec_task_uses; assumption | auto with route].
Qed.


Lemma pauses_none evs : Forall (fun ms => ms <> 200) (timers evs) -> pauses evs = 0%nat.
Proof.
unfold pauses. induction 1 as [|ms l Hms _ IH]; [reflexivity|].
rewrite filter_cons_False by exact Hms. exact IH.
Qed.

End Pauses.

(** ** The archive *)

Lemma includes_char_cons a c s :
  includes (String a "") (String c s) = Ascii.eqb c a || includes (String a "") s.
Proof.
  cbn [includes String.prefix].
  destruct (Ascii.ascii_dec a c) as [<-|Hne]; simpl.
  - rewrite Ascii.eqb_refl. destruct s; reflexivity.
  - destruct (Ascii.eqb_spec c a) as [->|_]; [congruence | reflexivity].
Qed.

Lemma forceTrailingSlash_ends path : ends_with_slash (forceTrailingSlash path) = true.
Proof.
  unfold forceTrailingSlash. destruct (ends_with_slash path) eqn:H; [exact H|].
  clear H. induction path as [|c path IH]; [reflexivity|].
  simpl. destruct path; [reflexivity | exact IH].
Qed.

(** A name without a slash has no parent folder. *)
Lemma parentFolder_none name : includes "/" name = false -> parentFolder name = "".
Proof.
  intros H.
  assert (before_last_slash name = None /\ ends_with_slash name = false) as [Hb He].
  { induction name as [|c name IH]; [split; reflexivity|].
    rewrite includes_char_cons in H. apply orb_false_iff in H as [Hc Hname].
    destruct (IH Hname) as [Hb He]. simpl. rewrite Hb, Hc.
    split; [reflexivity|]. destruct name; [reflexivity | exact He]. }
  unfold parentFolder. rewrite He, Hb. reflexivity.
Qed.

(** Adding a folder leaves every entry as it is and adds only folders,
    under names that end with a slash. *)
Lemma folderAdd_lookup name files k :
  folderAdd name files !! k = files !! k
  \/ (files !! k = None /\ folderAdd name files !! k = Some Folder
      /\ ends_with_slash k = true).
Proof.
  funelim (folderAdd name files).
  - left. reflexivity.
  - destruct (decide (k = forceTrailingSlash name)) as [->|Hne].
    + right. rewrite lookup_insert_eq. split; [assumption|].
      split; [reflexivity | apply forceTrailingSlash_ends].
    + left. apply lookup_insert_ne. congruence.
  - destruct (decide (k = forceTrailingSlash name)) as [->|Hne].
    + right. rewrite lookup_insert_eq. split; [assumption|].
      split; [reflexivity | apply forceTrailingSlash_ends].
    + rewrite lookup_insert_ne by congruence. apply H.
Qed.

Lemma zip_file_lookup_eq name data zip :
  zip_file name data zip !! name = Some (File (default [] data)).
Proof. unfold zip_file. apply lookup_insert_eq. Qed.

Lemma zip_file_lookup_ne name data zip k :
  k <> name ->
  zip_file name data zip !! k = zip !! k
  \/ (zip !! k = None /\ zip_file name data zip !! k = Some Folder
      /\ ends_with_slash k = true).
Proof.
  intros Hne. unfold zip_file. rewrite lookup_insert_ne by congruence.
  destruct (String.eqb (parentFolder name) ""); [left; reflexivity|].
  apply folderAdd_lookup.
Qed.

Lemma zip_file_noslash name data zip :
  includes "/" name = false ->
  zip_file name data zip = <[name := File (default [] data)]> zip.
Proof. intros H. unfold zip_file. rewrite (parentFolder_none name H). reflexivity. Qed.

Lemma build_zip_add_all results : build_zip results = add_all results ∅.
Proof. reflexivity. Qed.

Lemma add_all_snoc results result zip :
  add_all (results ++ [result]) zip
  = zip_file (filename result) (blob result) (add_all results zip).
Proof. unfold add_all. rewrite fold_left_app. reflexivity. Qed.

Lemma add_all_cons result results zip :
  add_all (result :: results) zip
  = add_all results (zip_file (filename result) (blob result) zip).
Proof. reflexivity. Qed.

Lemma last_named_snoc name results result :
  last_named name (results ++ [result])
  = if decide (filename result = name) then Some result else last_named name results.
Proof.
  unfold last_named. rewrite filter_app, filter_cons, filter_nil.
  destruct (decide (filename result = name)) as [Heq|Hne].
  - apply last_snoc.
  - rewrite app_nil_r. reflexivity.
Qed.

Lemma last_named_elem name results result :
  last_named name results = Some result -> result ∈ results /\ filename result = name.
Proof.
  unfold last_named. intros H. apply last_Some_elem_of in H.
  apply list_elem_of_filter in H as [Hname Hin]. auto.
Qed.

(** The file under a name is the last that was filed under it. *)
Lemma add_all_last_wins results zip name bytes :
  add_all results zip !! name = Some (File bytes)
  <-> match last_named name results with
      | Some result => default [] (blob result) = bytes
      | None => zip !! name = Some (File bytes)
      end.
Proof.
  induction results as [|result results IH] using rev_ind; [reflexivity|].
  rewrite add_all_snoc, last_named_snoc.
  destruct (decide (filename result = name)) as [<-|Hne].
  - rewrite zip_file_lookup_eq. split; [intros [= <-]; reflexivity | intros ->; reflexivity].
  - rewrite <- IH.
    destruct (zip_file_lookup_ne (filename result) (blob result)
                (add_all results zip) name) as [->|(Hnone & -> & _)];
      [congruence | reflexivity|].
    rewrite Hnone. split; discriminate.
Qed.

(** Every folder has a name that ends with a slash. *)
Lemma add_all_folder results zip name :
  add_all results zip !! name = Some Folder ->
  zip !! name = Some Folder \/ ends_with_slash name = true.
Proof.
  induction results as [|result results IH] using rev_ind; [left; assumption|].
  rewrite add_all_snoc.
  destruct (decide (name = filename result)) as [->|Hne].
  - rewrite zip_file_lookup_eq. discriminate.
  - destruct (zip_file_lookup_ne (filename result) (blob result)
                (add_all results zip) name Hne) as [->|(_ & _ & Hends)]; auto.
Qed.

Lemma add_all_noslash results zip :
  Forall (fun result => includes "/" (filename result) = false) results ->
  forall name, add_all results zip !! name = Some Folder -> zip !! name = Some Folder.
Proof.
  induction results as [|result results IH] using rev_ind; intros Hall name; [auto|].
  apply Forall_app in Hall as [Hall Hname]. apply Forall_inv in Hname.
  rewrite add_all_snoc, (zip_file_noslash _ _ _ Hname).
  destruct (decide (name = filename result)) as [->|Hne].
  - rewrite lookup_insert_eq. discriminate.
  - rewrite lookup_insert_ne by congruence. apply IH, Hall.
Qed.

Lemma add_all_dom results zip name :
  Forall (fun result => includes "/" (filename result) = false) results ->
  is_Some (add_all results zip !! name)
  <-> is_Some (zip !! name) \/ name ∈ map filename results.
Proof.
  induction results as [|result results IH] using rev_ind; intros Hall.
  - simpl. split; [auto | intros [H|H]; [exact H | inversion H]].
  - apply Forall_app in Hall as [Hall Hname]. apply Forall_inv in Hname.
    rewrite add_all_snoc, (zip_file_noslash _ _ _ Hname), map_app.
    destruct (decide (name = filename result)) as [->|Hne].
    + rewrite lookup_insert_eq. split; [|eauto].
      intros _. right. apply elem_of_app. right. left.
    + rewrite lookup_insert_ne by congruence. rewrite (IH Hall). split.
      * intros [H|H]; [left; exact H | right; apply elem_of_app; left; exact H].
      * intros [H|H]; [left; exact H|]. apply elem_of_app in H as [H|H]; [right; exact H|].
        apply list_elem_of_singleton in H. congruence.
Qed.

Lemma add_all_size results zip :
  Forall (fun result => includes "/" (filename result) = false) results ->
  NoDup (map filename results) ->
  (forall result, result ∈ results -> zip !! filename result = None) ->
  size (add_all results zip) = (size zip + length results)%nat.
Proof.
  induction results as [|result results IH] using rev_ind; intros Hall Hnd Hfree.
  - simpl. lia.
  - apply Forall_app in Hall as [Hall Hname]. apply Forall_inv in Hname.
    rewrite map_app in Hnd. apply NoDup_app in Hnd as (Hnd & Hdisj & _).
    rewrite add_all_snoc, (zip_file_noslash _ _ _ Hname), length_app.
    rewrite map_size_insert_None.
    + rewrite IH; [simpl; lia | exact Hall | exact Hnd|].
      intros r Hr. apply Hfree, elem_of_app. left. exact Hr.
    + destruct (add_all results zip !! filename result) eqn:Hlook; [|reflexivity].
      exfalso. assert (is_Some (add_all results zip !! filename result)) as Hsome by eauto.
      apply (add_all_dom results zip _ Hall) in Hsome as [Hz|Hin].
      * rewrite Hfree in Hz by (apply elem_of_app; right; left). destruct Hz. discriminate.
      * apply (Hdisj _ Hin). simpl. left.
Qed.

Lemma non_null_cons_Some {A : Type} (x : A) outs :
  non_null (Some x :: outs) = x :: non_null outs.
Proof. reflexivity. Qed.

Lemma non_null_cons_None {A : Type} (outs : list (option A)) :
  non_null (None :: outs) = non_null outs.
Proof. reflexivity. Qed.

Lemma non_null_elem {A : Type} (x : A) outs : x ∈ non_null outs <-> Some x ∈ outs.
Proof.
  unfold non_null. rewrite list_elem_of_omap. split.
  - intros (o & Ho & Hid). simpl in Hid. subst o. exact Ho.
  - intros H. exists (Some x). auto.
Qed.

Section Archive.
Variable E : environment.

Lemma validate_items items reservations :
  validate items = inr reservations ->
  Forall2 (fun item r => property item "htl_code" = Some (Some (htl_code r))
                         /\ property item "res_id" = Some (Some (res_id r))
                         /\ truthy (Some (htl_code r)) = true
                         /\ truthy (Some (res_id r)) = true)
    items reservations.
Proof.
  revert reservations. induction items as [|item items IH]; intros rs H; simpl in H.
  - injection H as <-. constructor.
  - destruct (validate_item item) as [e|r] eqn:Hitem; [discriminate|].
    destruct (validate items) as [e|rs'] eqn:Hrest; [discriminate|].
    injection H as <-. constructor; [|apply IH; reflexivity].
    unfold validate_item in Hitem.
    destruct (property item "htl_code") as [[h|]|]; try discriminate.
    destruct (truthy (Some h)) eqn:Hh; [|discriminate]. cbn [negb] in Hitem.
    destruct (property item "res_id") as [[i|]|]; try discriminate.
    destruct (truthy (Some i)) eqn:Hi; [|discriminate]. cbn [negb] in Hitem.
    injection Hitem as <-. auto.
Qed.

Lemma POST_valid body items reservations schedules w :
  property body "reservationIds" = Some (Some (JArr items)) ->
  validate items = inr reservations ->
  Forall (fun r => prints r = true) reservations ->
  POST E (inr body) schedules w =
    let run := spec_orchestrate E schedules 0 (spec_partition batchSize reservations) w in
    let pdfResults := non_null (fst run) in
    if (length pdfResults =? 0)%nat
    then (json_error "Failed to fetch any PDFs" 500, snd run)
    else (success_response (length pdfResults)
            (Z.of_nat (length reservations) - Z.of_nat (length pdfResults))
            (build_zip pdfResults), snd run).
Proof.
  intros Hbody Hvalid Hall. unfold POST. rewrite Hbody, Hvalid.
  rewrite (process_batches_refines E schedules reservations 0 [] w Hall 0%nat)
    by reflexivity.
  reflexivity.
Qed.

Lemma prints_dec (l : list reservation) :
  Forall (fun r => prints r = true) l \/ Exists (fun r => prints r = false) l.
Proof.
  induction l as [|r l [IH|IH]]; [left; constructor| |right; right; exact IH].
  destruct (prints r) eqn:Hr; [left; constructor; assumption | right; left; exact Hr].
Qed.

(** The loop is left by the rejection of [Promise.all] in the first group
    that holds a reservation that does not print. *)
Lemma process_batches_rejects schedules reservations i pdfResults w :
  Exists (fun r => prints r = false) (drop i reservations) ->
  fst (process_batches E schedules reservations i pdfResults w)
  = inl (TypeError "Cannot convert object to primitive value").
Proof.
  apply (process_batches_elim E
           (fun schedules reservations i pdfResults w result =>
              Exists (fun r => prints r = false) (drop i reservations) ->
              fst result = inl (TypeError "Cannot convert object to primitive value")));
    clear schedules reservations i pdfResults w.
  - intros schedules reservations i Hi pdfResults w _ Hex.
    rewrite drop_ge in Hex by lia. inversion Hex.
  - intros schedules reservations i Hi pdfResults w e w1 Hrun _ Hex.
    destruct (prints_dec (slice i (i + batchSize) reservations)) as [Hall|Hbad].
    + destruct (run_batch_outcomes E (schedules (i / batchSize)%nat) _ w Hall)
        as (outs & Heq & Hsame & _).
      rewrite Hsame, Heq in Hrun. discriminate.
    + rewrite (run_batch_rejects E _ _ w Hbad) in Hrun. injection Hrun as <- _. reflexivity.
  - intros schedules reservations i Hi pdfResults w batchResults w1 IH Hrun _ Hex.
    apply IH. clear IH.
    destruct (prints_dec (slice i (i + batchSize) reservations)) as [Hall|Hbad].
    + unfold slice in Hall. replace (i + batchSize - i)%nat with batchSize in Hall by lia.
      rewrite <- (take_drop batchSize (drop i reservations)), drop_drop in Hex.
      apply Exists_app in Hex as [Hex|Hex]; [|exact Hex].
      apply Exists_exists in Hex as (r & Hin & Hr).
      rewrite Forall_forall in Hall. rewrite (Hall r Hin) in Hr. discriminate.
    + rewrite (run_batch_rejects E _ _ w Hbad) in Hrun. discriminate.
Qed.

(** What [POST] answers a request that passes validation. *)
Lemma POST_cases body items reservations schedules w :
  property body "reservationIds" = Some (Some (JArr items)) ->
  validate items = inr reservations ->
  (Forall (fun r => prints r = true) reservations
   /\ POST E (inr body) schedules w =
      let run := spec_orchestrate E schedules 0 (spec_partition batchSize reservations) w in
      let pdfResults := non_null (fst run) in
      if (length pdfResults =? 0)%nat
      then (json_error "Failed to fetch any PDFs" 500, snd run)
      else (success_response (length pdfResults)
              (Z.of_nat (length reservations) - Z.of_nat (length pdfResults))
              (build_zip pdfResults), snd run))
  \/ (Exists (fun r => prints r = false) reservations
      /\ POST E (inr body) schedules w
         = (json_error "Cannot convert object to primitive value" 500,
            snd (process_batches E schedules reservations 0 [] w))).
Proof.
  intros Hbody Hvalid. destruct (prints_dec reservations) as [Hall|Hbad].
  - left. split; [exact Hall | apply (POST_valid body items); assumption].
  - right. split; [exact Hbad|]. unfold POST. rewrite Hbody, Hvalid.
    pose proof (process_batches_rejects schedules reservations 0 [] w Hbad) as Hrej.
    destruct (process_batches E schedules reservations 0 [] w) as [[e|results] w'];
      simpl in Hrej; [|discriminate].
    injection Hrej as ->. reflexivity.
Qed.

(** The loop as a chain of steps: a group, a pause, a group, ... What
    holds of every step, in a measure that adds up, holds of the loop. *)
Lemma process_batches_steps (R : nat -> world -> world -> Prop) (c : nat)
  schedules reservations i pdfResults w :
  (forall n w, R n w w) ->
  (forall a b n w1 w2 w3, R a w1 w2 -> R b w2 w3 -> (a + b <= n)%nat -> R n w1 w3) ->
  (forall schedule batch w,
     (forall r, r ∈ batch -> r ∈ reservations) ->
     R (c * length batch)%nat w (snd (run_batch E schedule batch w))) ->
  (forall w, R 0%nat w (snd (run E (delay 200) w))) ->
  R (c * (length reservations - i))%nat w
    (snd (process_batches E schedules reservations i pdfResults w)).
Proof.
  intros Hrefl Htrans Hbatch Hpause.
  assert (forall i r, r ∈ slice i (i + batchSize) reservations -> r ∈ reservations) as Hsub.
  { intros j r Hr. unfold slice in Hr.
    apply elem_of_take in Hr as (k & Hk & _). apply list_elem_of_lookup_2 in Hk.
    apply list_elem_of_lookup in Hk as (k' & Hk'). rewrite lookup_drop in Hk'.
    eapply list_elem_of_lookup_2, Hk'. }
  assert (forall i, (i < length reservations)%nat ->
            (length (slice i (i + batchSize) reservations)
             + (length reservations - (i + batchSize))
             = length reservations - i)%nat) as Hlen.
  { intros j Hj. unfold slice. rewrite length_take, length_drop. lia. }
  apply (process_batches_elim E
           (fun schedules reservations' i pdfResults w result =>
              reservations' = reservations ->
              R (c * (length reservations - i))%nat w (snd result)));
    [| | |reflexivity]; clear schedules i pdfResults w.
  - intros schedules reservations' i Hi pdfResults w _ _. apply Hrefl.
  - intros schedules reservations' i Hi pdfResults w e w1 Hrun _ ->. simpl.
    pose proof (Hbatch (schedules (i / batchSize)%nat)
                  (slice i (i + batchSize) reservations) w (Hsub i)) as H1.
    rewrite Hrun in H1. simpl in H1.
    eapply Htrans; [exact H1 | apply (Hrefl 0%nat)|].
    specialize (Hlen i Hi). nia.
  - intros schedules reservations' i Hi pdfResults w batchResults w1 IH Hrun _ ->.
    pose proof (Hbatch (schedules (i / batchSize)%nat)
                  (slice i (i + batchSize) reservations) w (Hsub i)) as H1.
    rewrite Hrun in H1. simpl in H1.
    assert (R 0%nat w1 (pause_between E i (length reservations) w1)) as H2.
    { unfold pause_between. destruct (i + batchSize <? length reservations)%nat;
        [apply Hpause | apply Hrefl]. }
    eapply Htrans; [exact H1 | |].
    + eapply Htrans; [exact H2 | apply IH; reflexivity | reflexivity].
    + specialize (Hlen i Hi). nia.
Qed.

End Archive.

(** ** The retry policy *)

Section Retry.
Variable E : environment.



(** C3, as amended. When the first response of an attempt has status 302
    and a [location] that contains [forward=], the attempt clears
    [sessionCookies], sends exactly one login request and, when that login
    yields a session, sends the document request once more with the new
    cookies; no timer is set in between and the attempt number does not
    change. A retry whose status is not successful, like a failed login,
    throws out of the attempt, and the loop then goes on or gives up as for
    any other error. *)
Theorem login_redirect_recovered_in_place url attempt w r w1 target :
  run E (first_exchange E url attempt) w = (inr r, w1) ->
  status r = 302 ->
  location r = Some target ->
  includes "forward=" target = true ->
  let invalidated := set_cookies None w1 in
  let relogin := run E (login E) invalidated in
  let outcome := run E (attempt_body E url attempt) w in
  sessionCookies invalidated = None
  /\ (exists reply,
        since w1 (snd relogin)
        = [Issued (login_request E); Settled (login_request E) reply])
  /\ match fst relogin with
     | inl e => outcome = (inl e, snd relogin)
     | inr fresh =>
         let retry := pdf_request url fresh false in
         exists reply,
           since (snd relogin) (snd outcome) = [Issued retry; Settled retry reply]
           /\ fst outcome =
              match reply with
              | inl msg => inl (FetchFailed msg)
              | inr r2 =>
                  if ok r2
                  then if isPDF (payload r2) then inr (payload r2) else inl NotPdf
                  else inl (HttpError (status r2) (statusText r2))
              end
     end
  /\ timers (since w1 (snd outcome)) = []
  /\ forall maxRetries remaining,
       run E (attempts E url maxRetries (S remaining) attempt) w =
         match outcome with
         | (inr buf, w') => (inr (Some buf), w')
         | (inl e, w') =>
             if is_last attempt maxRetries
             then (inl (FailedAfter maxRetries (message e)), w')
             else run E (attempts E url maxRetries remaining (S attempt)) w'
         end.
Proof.
  intros Hfirst Hstatus Hloc Hmark invalidated relogin outcome.
  assert (outcome = run E (relogin_and_retry E url) w1) as Hout.
  { subst outcome. rewrite attempt_body_run, Hfirst, on_response_run.
    rewrite Hstatus, Hloc, Hmark. reflexivity. }
  split; [reflexivity|]. split; [|split; [|split]].
  - subst relogin. rewrite login_run. cbv zeta.
    destruct (upstream E _ _) as [msg|r0] eqn:Hup.
    + eexists. apply since_app. simpl. rewrite <- app_assoc. reflexivity.
    + destruct (length (setCookie r0) =? 0)%nat;
        eexists; apply since_app; simpl; rewrite <- app_assoc; reflexivity.
  - rewrite Hout, relogin_and_retry_run. fold invalidated. fold relogin.
    destruct relogin as [[e|fresh] w2]; [reflexivity|]. cbn [fst snd].
    unfold perform. cbn [issue settle].
    set (retry := pdf_request url fresh false).
    set (reply := upstream E _ retry).
    exists reply. split.
    + destruct reply as [msg|r2]; [|destruct (ok r2); [destruct (isPDF (payload r2))|]];
        apply since_app; simpl; rewrite <- app_assoc; reflexivity.
    + destruct reply as [msg|r2]; [reflexivity|].
      destruct (ok r2); [destruct (isPDF (payload r2))|]; reflexivity.
  - assert (snd outcome = snd (run E (on_response E url r) w1)) as ->.
    { subst outcome. rewrite attempt_body_run, Hfirst. reflexivity. }
    apply run_no_timers, on_response_uses.
  - intros maxRetries remaining. rewrite attempts_step. fold outcome.
    destruct outcome as [[e|buf] w']; reflexivity.
Qed.

(** C4, as amended. When the first response of an attempt has a status that
    is neither successful nor 302, the attempt throws the error
    "HTTP [status]: [statusText]", which the loop catches: the next attempt
    follows, or the terminal error when this was the last one. A 302 whose
    target does not contain [forward=] goes on to the signature check
    instead. *)
Theorem http_error_is_transient url attempt w r w1 :
  run E (first_exchange E url attempt) w = (inr r, w1) ->
  (ok r = false -> status r <> 302 ->
   let failure := HttpError (status r) (statusText r) in
   run E (attempt_body E url attempt) w = (inl failure, w1)
   /\ forall maxRetries remaining,
        run E (attempts E url maxRetries (S remaining) attempt) w
        = if is_last attempt maxRetries
          then (inl (FailedAfter maxRetries (message failure)), w1)
          else run E (attempts E url maxRetries remaining (S attempt)) w1)
  /\ (status r = 302 ->
      (forall target, location r = Some target -> includes "forward=" target = false) ->
      run E (attempt_body E url attempt) w
      = (if isPDF (payload r) then inr (payload r) else inl NotPdf, w1)).
Proof.
  intros Hfirst. split.
  - intros Hok Hstatus failure.
    assert (run E (attempt_body E url attempt) w = (inl failure, w1)) as Hbody.
    { rewrite attempt_body_run, Hfirst, on_response_run.
      apply Z.eqb_neq in Hstatus. rewrite Hstatus, Hok. reflexivity. }
    split; [exact Hbody|].
    intros maxRetries remaining. rewrite attempts_step, Hbody. reflexivity.
  - intros Hstatus Hplain.
    rewrite attempt_body_run, Hfirst, on_response_run, Hstatus.
    assert (match location r with
            | Some target => includes "forward=" target
            | None => false
            end = false) as ->.
    { destruct (location r) as [target|]; [apply Hplain|]; reflexivity. }
    rewrite andb_false_r. cbn [Z.eqb Pos.eqb negb andb]. rewrite andb_false_r.
    destruct (isPDF (payload r)); reflexivity.
Qed.

End Retry.

(** ** The responses of the handler *)

Section Handler.
Variable E : environment.

Lemma missing_or_empty_falsy item key :
  missing_or_empty item key ->
  match property item key with
  | None => True
  | Some v => truthy v = false
  end.
Proof.
  unfold missing_or_empty. destruct (property item key) as [[v|]|]; auto.
  destruct v; try contradiction. intros ->. reflexivity.
Qed.

Lemma validate_rejects items item :
  item ∈ items ->
  missing_or_empty item "htl_code" \/ missing_or_empty item "res_id" ->
  exists e, validate items = inl e
            /\ (e = InvalidReservation
                \/ e = TypeError "Cannot read properties of null (reading 'htl_code')").
Proof.
  intros Hin Hbad. induction items as [|first items IH]; [inversion Hin|].
  assert (forall e, validate_item first = inl e ->
            e = InvalidReservation
            \/ e = TypeError "Cannot read properties of null (reading 'htl_code')") as Hkinds.
  { intros e. unfold validate_item.
    destruct first; cbn [property];
      repeat match goal with
             | |- context [match ?x with _ => _ end] => destruct x
             end; intros [= <-]; auto. }
  simpl. destruct (validate_item first) as [e|r] eqn:Hfirst.
  - exists e. split; [reflexivity | apply Hkinds; reflexivity].
  - apply elem_of_cons in Hin as [->|Hin].
    + exfalso. unfold validate_item in Hfirst.
      destruct Hbad as [Hbad|Hbad]; apply missing_or_empty_falsy in Hbad.
      * destruct (property first "htl_code") as [[h|]|]; try discriminate.
        rewrite Hbad in Hfirst. discriminate.
      * destruct (property first "htl_code") as [[h|]|]; try discriminate.
        destruct (negb (truthy (Some h))); [discriminate|].
        destruct (property first "res_id") as [[i|]|]; try discriminate.
        rewrite Hbad in Hfirst. discriminate.
    + destruct (IH Hin) as (e & -> & He). exists e. split; [reflexivity | exact He].
Qed.

(** C5, as amended. For every request whose body decodes to a value other
    than [null] that has no array under [reservationIds], or whose array
    has an element with a missing or empty [htl_code] or [res_id], the
    handler answers with status 400 and a message naming the violation, and
    the world is unchanged: no request was sent upstream. *)
Theorem malformed_request_rejected decoded schedules w :
  decoded <> JNull ->
  ((forall items, property decoded "reservationIds" <> Some (Some (JArr items))) ->
   POST E (inr decoded) schedules w
   = (json_error "Invalid or missing reservationIds" 400, w))
  /\ (forall items item,
        property decoded "reservationIds" = Some (Some (JArr items)) ->
        item ∈ items ->
        missing_or_empty item "htl_code" \/ missing_or_empty item "res_id" ->
        exists msg,
          POST E (inr decoded) schedules w = (json_error msg 400, w)
          /\ (msg = "Invalid reservation object structure"
              \/ msg = "Cannot read properties of null (reading 'htl_code')")).
Proof.
  intros Hnull. split.
  - intros Hshape. unfold POST.
    destruct (property decoded "reservationIds") as [[v|]|] eqn:Hp.
    + destruct v; try reflexivity. destruct (Hshape items). reflexivity.
    + reflexivity.
    + destruct decoded; try discriminate. congruence.
  - intros items item Hp Hin Hbad.
    destruct (validate_rejects items item Hin Hbad) as (e & He & Hkind).
    exists (message e). unfold POST. rewrite Hp, He. split; [reflexivity|].
    destruct Hkind as [->| ->]; [left | right]; reflexivity.
Qed.

(** C9. For every request that passes validation and of which no
    reservation is fetched successfully (every outcome is a failure, or a
    value does not print and the loop is left without outcomes) the
    response has status 500 and a JSON body with one error message, not an
    archive. The message is "Failed to fetch any PDFs" when all values
    print. *)
Theorem no_success_is_server_error body items reservations schedules w :
  property body "reservationIds" = Some (Some (JArr items)) ->
  validate items = inr reservations ->
  (Forall (fun r => prints r = true) reservations ->
   Forall (fun o => o = None) (outcomes E schedules reservations w)) ->
  exists resp msg w',
    POST E (inr body) schedules w = (resp, w')
    /\ resp = json_error msg 500
    /\ res_status resp = 500
    /\ res_body resp = JsonBody (JObj [("error", JStr msg)])
    /\ (forall files, res_body resp <> ZipBody files)
    /\ msg = (if forallb prints reservations
              then "Failed to fetch any PDFs"
              else "Cannot convert object to primitive value").
Proof.
  intros Hbody Hvalid Hnone.
  destruct (POST_cases E body items reservations schedules w Hbody Hvalid)
    as [[Hall ->]|[Hbad ->]].
  - cbv zeta.
    change (fst (spec_orchestrate E schedules 0 (spec_partition batchSize reservations) w))
      with (outcomes E schedules reservations w).
    assert (non_null (outcomes E schedules reservations w) = []) as ->.
    { specialize (Hnone Hall). induction Hnone as [|o outs -> _ IH]; [reflexivity|].
      exact IH. }
    simpl. eexists _, _, _. split; [reflexivity|]. split; [reflexivity|].
    split; [reflexivity|]. split; [reflexivity|]. split; [discriminate|].
    assert (forallb prints reservations = true) as ->; [|reflexivity].
    apply forallb_forall. intros r Hr. rewrite Forall_forall in Hall.
    apply Hall, list_elem_of_In, Hr.
  - eexists _, _, _. split; [reflexivity|]. split; [reflexivity|].
    split; [reflexivity|]. split; [reflexivity|]. split; [discriminate|].
    assert (forallb prints reservations = false) as ->; [|reflexivity].
    apply not_true_is_false. intros Htrue. rewrite forallb_forall in Htrue.
    apply Exists_exists in Hbad as (r & Hin & Hr).
    rewrite (Htrue r) in Hr by (apply list_elem_of_In, Hin). discriminate.
Qed.

Lemma validate_length items reservations :
  validate items = inr reservations -> length reservations = length items.
Proof.
  intros H. apply validate_items in H. apply Forall2_length in H. auto.
Qed.

(** C1, as amended. For every request that passes validation, whose values
    all print and of which at least one fetch succeeds, the response is an
    archive and two count headers. Every outcome is a failure or a PDF
    filed under [{htl_code}-{res_id}.pdf]. The files of the archive are the
    names of the successful fetches, each holding the document of the last
    successful fetch of that name; a failed fetch adds nothing. Every
    other entry is a folder, under a name that ends with a slash, and
    there is none when no name of a successful fetch contains a slash.
    When these names are also pairwise distinct, the archive has exactly
    one entry for each successful fetch. The count headers carry the
    number of successes and of failures, which sum to the length of the
    input list. *)
Theorem archive_holds_distinct_successes body items reservations schedules w :
  property body "reservationIds" = Some (Some (JArr items)) ->
  validate items = inr reservations ->
  Forall (fun r => prints r = true) reservations ->
  let outs := outcomes E schedules reservations w in
  (exists result, Some result ∈ outs) ->
  exists files w',
    let successes := non_null outs in
    let succeeded := length successes in
    let failed := Z.of_nat (length items) - Z.of_nat succeeded in
    POST E (inr body) schedules w = (success_response succeeded failed files, w')
    /\ Forall2 (fun item r =>
                  property item "htl_code" = Some (Some (htl_code r))
                  /\ property item "res_id" = Some (Some (res_id r)))
         items reservations
    /\ Forall2 (fun r o =>
                  o = None
                  \/ exists h i buf,
                       ToString (htl_code r) = Some h
                       /\ ToString (res_id r) = Some i
                       /\ isPDF buf = true
                       /\ o = Some {| result_htl_code := htl_code r;
                                      result_res_id := res_id r;
                                      filename := h +:+ "-" +:+ i +:+ ".pdf";
                                      blob := Some buf |})
         reservations outs
    /\ (forall name bytes,
          files !! name = Some (File bytes)
          <-> exists result,
                last_named name successes = Some result /\ blob result = Some bytes)
    /\ (forall name, files !! name = Some Folder -> ends_with_slash name = true)
    /\ (Forall (fun result => includes "/" (filename result) = false) successes ->
        (forall name, files !! name <> Some Folder)
        /\ (NoDup (map filename successes) ->
            size files = succeeded
            /\ forall name, is_Some (files !! name) <-> name ∈ map filename successes))
    /\ Z.of_nat succeeded + failed = Z.of_nat (length items)
    /\ failed = Z.of_nat (length (filter (fun o => o = None) outs)).
Proof.
  intros Hbody Hvalid Hall outs Hsome.
  pose proof (outcomes_fetched E schedules reservations w Hall) as Hf. fold outs in Hf.
  rewrite (POST_valid E body items reservations schedules w Hbody Hvalid Hall). cbv zeta.
  change (fst (spec_orchestrate E schedules 0 (spec_partition batchSize reservations) w))
    with outs.
  assert (non_null outs <> []) as Hne.
  { destruct Hsome as (result & Hin). apply non_null_elem in Hin.
    intros Hnil. rewrite Hnil in Hin. inversion Hin. }
  destruct (length (non_null outs) =? 0)%nat eqn:Hlen.
  { apply Nat.eqb_eq in Hlen. destruct (non_null outs); [congruence | discriminate]. }
  assert (forall result, result ∈ non_null outs -> exists buf, blob result = Some buf)
    as Hblob.
  { intros result Hin. apply non_null_elem in Hin.
    apply list_elem_of_lookup in Hin as (k & Hk).
    destruct (Forall2_lookup_r _ _ _ _ _ Hf Hk) as (r & _ & [Hr|(buf & name & _ & _ & Hr)]);
      [discriminate|].
    injection Hr as ->. eauto. }
  rewrite (validate_length _ _ Hvalid).
  eexists _, _. split; [reflexivity|]. rewrite build_zip_add_all.
  split; [|split; [|split; [|split; [|split; [|split]]]]].
  - eapply Forall2_impl; [apply validate_items, Hvalid|]. intros item r (H1 & H2 & _). auto.
  - eapply Forall2_impl; [exact Hf|].
    intros r o [->|(buf & name & Hpdf & Hname & ->)]; [left; reflexivity|]. right.
    unfold archive_name in Hname.
    destruct (ToString (htl_code r)) as [h|]; [|discriminate].
    destruct (ToString (res_id r)) as [i|]; [|discriminate].
    injection Hname as <-. exists h, i, buf. auto.
  - intros name bytes. rewrite add_all_last_wins.
    destruct (last_named name (non_null outs)) as [result|] eqn:Hlast.
    + destruct (Hblob result) as (buf & Hbuf); [apply (last_named_elem _ _ _ Hlast)|].
      rewrite Hbuf. simpl. split.
      * intros <-. exists result. auto.
      * intros (result' & [= <-] & Hb). congruence.
    + rewrite lookup_empty. split; [discriminate | intros (result & H & _); discriminate].
  - intros name Hfolder. apply add_all_folder in Hfolder as [H|H]; [|exact H].
    rewrite lookup_empty in H. discriminate.
  - intros Hnoslash. split.
    + intros name Hfolder. apply (add_all_noslash _ _ Hnoslash) in Hfolder.
      rewrite lookup_empty in Hfolder. discriminate.
    + intros Hnd. split.
      * rewrite (add_all_size _ _ Hnoslash Hnd), map_size_empty; [reflexivity|].
        intros result _. apply lookup_empty.
      * intros name. rewrite (add_all_dom _ _ _ Hnoslash), lookup_empty. split.
        -- intros [[x Hx]|H]; [discriminate | exact H].
        -- auto.
  - lia.
  - rewrite <- (validate_length _ _ Hvalid), (Forall2_length _ _ _ Hf).
    clear. induction outs as [|[x|] outs IH].
    + reflexivity.
    + rewrite non_null_cons_Some, filter_cons_False by discriminate.
      cbn [length]. lia.
    + rewrite non_null_cons_None, filter_cons_True by reflexivity.
      cbn [length]. lia.
Qed.

End Handler.

(** ** The requests of the route *)

Lemma requests_app t1 t2 : requests (t1 ++ t2) = requests t1 ++ requests t2.
Proof.
  induction t1 as [|[q|q res|ms|ms] t1 IH]; simpl; [reflexivity| |assumption..].
  rewrite IH. reflexivity.
Qed.

Lemma requests_Issued qs : requests (map Issued qs) = qs.
Proof. induction qs as [|q qs IH]; simpl; [reflexivity|]. rewrite IH. reflexivity. Qed.

Section Sending.
Variable E : environment.
Variable Q : request -> Prop.

Lemma sends_within_mono {A} n m (p : prog A) :
  sends_within Q n p -> (n <= m)%nat -> sends_within Q m p.
Proof.
  intros Hp. revert m. induction Hp as [n a|n e|n n' R o k Ho Hk IH Hle]; intros m Hm.
  - constructor.
  - constructor.
  - apply (sends_vis Q n m R o k Ho Hk). lia.
Qed.

Lemma sends_within_bind {A B} a b (p : prog A) (f : A -> prog B) :
  sends_within Q a p -> (forall x, sends_within Q b (f x)) ->
  sends_within Q (a + b) (bind p f).
Proof.
  intros Hp Hf. induction Hp as [n x|n e|n n' R o k Ho Hk IH Hle]; cbn [bind].
  - apply (sends_within_mono b); [apply Hf | lia].
  - constructor.
  - apply (sends_vis Q (n + b) _ R o _ Ho IH). lia.
Qed.

Lemma sends_within_try_catch {A} a b (p : prog A) (h : error -> prog A) :
  sends_within Q a p -> (forall e, sends_within Q b (h e)) ->
  sends_within Q (a + b) (try_catch p h).
Proof.
  intros Hp Hh. induction Hp as [n x|n e|n n' R o k Ho Hk IH Hle]; cbn [try_catch].
  - constructor.
  - apply (sends_within_mono b); [apply Hh | lia].
  - apply (sends_vis Q (n + b) _ R o _ Ho IH). lia.
Qed.

Lemma sends_within_call {R} (o : op R) :
  request_ok Q o -> sends_within Q (cost o) (call o).
Proof.
  intros Ho. unfold call. apply (sends_vis Q 0 _ R o Ret Ho); [constructor | lia].
Qed.

Lemma sends_within_fetch q : Q q -> sends_within Q 1 (fetch q).
Proof.
  intros Hq. unfold fetch.
  apply (sends_within_bind 1 0); [apply (sends_within_call (Fetch q)), Hq|].
  intros [msg|r]; constructor.
Qed.

Lemma sent_refl n w : sent Q n w w.
Proof.
  exists []. split; [apply eq_sym, app_nil_r|]. split; [constructor | simpl; lia].
Qed.

Lemma sent_trans a b n w1 w2 w3 :
  sent Q a w1 w2 -> sent Q b w2 w3 -> (a + b <= n)%nat -> sent Q n w1 w3.
Proof.
  intros (e1 & H1 & Q1 & L1) (e2 & H2 & Q2 & L2) Hn. exists (e1 ++ e2).
  split; [rewrite H2, H1, app_assoc; reflexivity|].
  rewrite requests_app. split; [apply Forall_app; auto|].
  rewrite length_app. lia.
Qed.

Lemma settle_sent {R} (o : op R) w : sent Q 0 w (snd (settle E o w)).
Proof.
  destruct o; simpl;
    try (exists []; split; [apply eq_sym, app_nil_r|]; simpl; split; [constructor | lia]; fail);
    (eexists; split; [reflexivity|]; simpl; split; [constructor | lia]).
Qed.

Lemma issue_sent {R} (o : op R) w : request_ok Q o -> sent Q (cost o) w (issue o w).
Proof.
  destruct o; simpl; intros Ho; try apply sent_refl.
  - eexists. split; [reflexivity|]. simpl. split; [repeat constructor; exact Ho | lia].
  - eexists. split; [reflexivity|]. simpl. split; [constructor | lia].
Qed.

Lemma run_sent {A} n (p : prog A) w :
  sends_within Q n p -> sent Q n w (snd (run E p w)).
Proof.
  intros Hp. revert w. induction Hp as [n a|n e|n m R o k Ho Hk IH Hle]; intros w; simpl;
    try apply sent_refl.
  unfold perform.
  pose proof (issue_sent o w Ho) as H1.
  pose proof (settle_sent o (issue o w)) as H2.
  destruct (settle E o (issue o w)) as [r w1]. simpl in H2.
  apply (sent_trans (cost o) n m w (issue o w) _ H1); [|exact Hle].
  apply (sent_trans 0 n n _ w1 _ H2 (IH r w1)). lia.
Qed.

Lemma advance_sent {A} n (p : prog A) w :
  sends_within Q n p ->
  exists a b, (a + b <= n)%nat
              /\ sent Q a w (snd (advance E p w))
              /\ task_sends Q b (fst (advance E p w)).
Proof.
  intros Hp. revert w. induction Hp as [n a|n e|n m R o k Ho Hk IH Hle]; intros w; simpl.
  - exists 0%nat, 0%nat. split; [lia|]. split; [apply sent_refl | exact I].
  - exists 0%nat, 0%nat. split; [lia|]. split; [apply sent_refl | exact I].
  - destruct (waits o) eqn:Hw; simpl.
    + exists (cost o), n. split; [exact Hle|]. split; [apply issue_sent, Ho | exact Hk].
    + pose proof (settle_sent o w) as H1.
      destruct (settle E o w) as [r w1]. simpl in H1.
      destruct (IH r w1) as (a & b & Hab & H2 & Ht). exists a, b.
      split; [lia|]. split; [|exact Ht].
      apply (sent_trans 0 a a _ w1 _ H1 H2). lia.
Qed.

Lemma resume_sent {A} n (t : task A) w :
  task_sends Q n t ->
  exists a b, (a + b <= n)%nat
              /\ sent Q a w (snd (resume E t w))
              /\ task_sends Q b (fst (resume E t w)).
Proof.
  destruct t as [r|R o k]; simpl; intros Ht.
  - exists 0%nat, 0%nat. split; [lia|]. split; [apply sent_refl | exact I].
  - pose proof (settle_sent o w) as H1.
    destruct (settle E o w) as [r w1]. simpl in H1.
    destruct (advance_sent n (k r) w1 (Ht r)) as (a & b & Hab & H2 & Ht').
    exists a, b. split; [exact Hab|]. split; [|exact Ht'].
    apply (sent_trans 0 a a _ w1 _ H1 H2). lia.
Qed.

Lemma finish_sent {A} n (t : task A) w :
  task_sends Q n t -> sent Q n w (snd (finish E t w)).
Proof.
  destruct t as [r|R o k]; simpl; intros Ht; [apply sent_refl|].
  pose proof (settle_sent o w) as H1.
  destruct (settle E o w) as [r w1]. simpl in H1.
  apply (sent_trans 0 n n _ w1 _ H1 (run_sent n (k r) w1 (Ht r))). lia.
Qed.

Lemma start_all_sent {A} n (ps : list (prog A)) w :
  Forall (sends_within Q n) ps ->
  exists a b, (a + b <= n * length ps)%nat
              /\ sent Q a w (snd (start_all E ps w))
              /\ tasks_send Q b (fst (start_all E ps w)).
Proof.
  intros H. revert w. induction H as [|p ps Hp _ IH]; intros w; simpl.
  - exists 0%nat, 0%nat. split; [lia|]. split; [apply sent_refl | constructor].
  - destruct (advance_sent n p w Hp) as (a1 & b1 & Hab1 & H1 & Ht).
    destruct (advance E p w) as [t w1].
    destruct (IH w1) as (a2 & b2 & Hab2 & H2 & Hts).
    destruct (start_all E ps w1) as [ts w2]. simpl in *.
    exists (a1 + a2)%nat, (b1 + b2)%nat. split; [lia|]. split.
    + apply (sent_trans a1 a2 _ w w1 w2 H1 H2). lia.
    + apply (tasks_send_cons Q b1 b2 _ t ts Ht Hts). lia.
Qed.

Lemma tasks_send_lookup {A} n (ts : list (task A)) i t :
  tasks_send Q n ts -> ts !! i = Some t ->
  exists a b, (a + b <= n)%nat
              /\ task_sends Q a t
              /\ forall a' t', task_sends Q a' t' -> tasks_send Q (a' + b) (<[i:=t']> ts).
Proof.
  intros Hts. revert i. induction Hts as [n|a b n t0 ts Ht0 Hts IH Hle]; intros i Hi.
  - discriminate.
  - destruct i as [|i]; simpl in Hi.
    + injection Hi as ->. exists a, b. split; [exact Hle|]. split; [exact Ht0|].
      intros a' t' Ht'. simpl. apply (tasks_send_cons Q a' b _ t' ts Ht' Hts). lia.
    + destruct (IH i Hi) as (a1 & b1 & Hab & Ht & Hins).
      exists a1, (a + b1)%nat. split; [lia|]. split; [exact Ht|].
      intros a' t' Ht'. simpl.
      apply (tasks_send_cons Q a (a' + b1) _ t0 _ Ht0 (Hins a' t' Ht')). lia.
Qed.

Lemma tasks_send_mono {A} n m (ts : list (task A)) :
  tasks_send Q n ts -> (n <= m)%nat -> tasks_send Q m ts.
Proof.
  intros Hts Hm. destruct Hts as [n|a b n t ts Ht Hts Hle]; [constructor|].
  apply (tasks_send_cons Q a b m t ts Ht Hts). lia.
Qed.

Lemma settle_in_order_sent {A} n schedule (ts : list (task A)) w :
  tasks_send Q n ts ->
  exists a b, (a + b <= n)%nat
              /\ sent Q a w (snd (settle_in_order E schedule ts w))
              /\ tasks_send Q b (fst (settle_in_order E schedule ts w)).
Proof.
  revert n ts w. induction schedule as [|i later IH]; intros n ts w Hts; simpl.
  - exists 0%nat, n. split; [lia|]. split; [apply sent_refl | exact Hts].
  - destruct (rejection ts);
      [exists 0%nat, n; split; [lia|]; split; [apply sent_refl | exact Hts]|].
    destruct (ts !! i) as [t|] eqn:Hi; [|apply IH, Hts].
    destruct (tasks_send_lookup n ts i t Hts Hi) as (a1 & b1 & Hab1 & Ht & Hins).
    destruct (resume_sent a1 t w Ht) as (a2 & b2 & Hab2 & H1 & Ht').
    destruct (resume E t w) as [t' w1]. simpl in *.
    destruct (IH (b2 + b1)%nat (<[i:=t']> ts) w1 (Hins b2 t' Ht'))
      as (a3 & b3 & Hab3 & H2 & Hts').
    exists (a2 + a3)%nat, b3. split; [lia|]. split; [|exact Hts'].
    apply (sent_trans a2 a3 _ w w1 _ H1 H2). lia.
Qed.

Lemma finish_all_sent {A} n (ts : list (task A)) w :
  tasks_send Q n ts -> sent Q n w (snd (finish_all E ts w)).
Proof.
  intros H. revert w. induction H as [n|a b n t ts Ht Hts IH Hle]; intros w; simpl.
  - apply sent_refl.
  - pose proof (finish_sent a t w Ht) as H1.
    destruct (finish E t w) as [[e|x] w1]; simpl in H1.
    + apply (sent_trans a 0 n w w1 w1 H1 (sent_refl 0 w1)). lia.
    + specialize (IH w1).
      destruct (finish_all E ts w1) as [[e|l] w2]; simpl in *;
        apply (sent_trans a b n w w1 w2 H1 IH Hle).
Qed.

Lemma run_all_sent {A} n schedule (ps : list (prog A)) w :
  Forall (sends_within Q n) ps ->
  sent Q (n * length ps) w (snd (run_all E ps schedule w)).
Proof.
  intros H. unfold run_all.
  destruct (start_all_sent n ps w H) as (a1 & b1 & Hab1 & H1 & Hts).
  destruct (start_all E ps w) as [ts w1]. simpl in *.
  destruct (settle_in_order_sent b1 schedule ts w1 Hts) as (a2 & b2 & Hab2 & H2 & Hts').
  destruct (settle_in_order E schedule ts w1) as [ts' w2]. simpl in *.
  pose proof (finish_all_sent b2 ts' w2 Hts') as H3.
  apply (sent_trans a1 (a2 + b2) _ w w1 _ H1); [|lia].
  destruct (rejection ts').
  - apply (sent_trans a2 0 _ w1 w2 _ H2 (sent_refl 0 w2)). lia.
  - apply (sent_trans a2 b2 _ w1 w2 _ H2 H3). lia.
Qed.

(** The trees of the route, for one document. *)
Variable url : string.
Hypothesis Q_login : Q (login_request E).
Hypothesis Q_pdf : forall cookies manual, Q (pdf_request url cookies manual).

Lemma login_sends : sends_within Q 1 (login E).
Proof.
  unfold login. apply (sends_within_bind 1 0); [apply sends_within_fetch, Q_login|].
  intros r. destruct (length (setCookie r) =? 0)%nat; [constructor|].
  apply (sends_within_bind 0 0); [apply (sends_within_call (WriteCookies _)), I|]. intros _.
  apply (sends_within_bind 0 0); [apply (sends_within_call DateNow), I|]. intros now.
  apply (sends_within_bind 0 0); [apply (sends_within_call (WriteExpiry _)), I|]. intros _.
  constructor.
Qed.

Lemma getSessionCookies_sends : sends_within Q 1 (getSessionCookies E).
Proof.
  unfold getSessionCookies.
  apply (sends_within_bind 0 1); [apply (sends_within_call ReadCookies), I|]. intros cookies.
  apply (sends_within_bind 0 1); [apply (sends_within_call ReadExpiry), I|]. intros expiry.
  destruct cookies as [c|]; [|apply login_sends].
  destruct expiry as [e|]; [|apply login_sends].
  destruct (negb (String.eqb c "") && negb (e =? 0)); [|apply login_sends].
  apply (sends_within_bind 0 1); [apply (sends_within_call DateNow), I|]. intros now.
  destruct (now <? e); [constructor | apply login_sends].
Qed.

Lemma read_pdf_sends n r : sends_within Q n (read_pdf r).
Proof. unfold read_pdf. destruct (negb (isPDF (payload r))); constructor. Qed.

Lemma relogin_and_retry_sends : sends_within Q 2 (relogin_and_retry E url).
Proof.
  unfold relogin_and_retry.
  apply (sends_within_bind 0 2); [apply (sends_within_call (WriteCookies None)), I|]. intros _.
  apply (sends_within_bind 1 1); [apply getSessionCookies_sends|]. intros newCookies.
  apply (sends_within_bind 1 0); [apply sends_within_fetch, Q_pdf|]. intros r.
  destruct (negb (ok r)); [constructor | apply read_pdf_sends].
Qed.

Lemma on_response_sends r : sends_within Q 2 (on_response E url r).
Proof.
  unfold on_response.
  assert (sends_within Q 2
            (if negb (ok r) && negb (status r =? 302)
             then Throw (HttpError (status r) (statusText r))
             else read_pdf r)) as Hother
    by (destruct (negb (ok r) && negb (status r =? 302)); [constructor | apply read_pdf_sends]).
  destruct (status r =? 302); [|exact Hother].
  destruct (location r) as [target|]; [|exact Hother].
  destruct (negb (String.eqb target "") && includes "forward=" target);
    [apply relogin_and_retry_sends | exact Hother].
Qed.

Lemma attempt_body_sends attempt : sends_within Q 4 (attempt_body E url attempt).
Proof.
  unfold attempt_body, first_exchange.
  apply (sends_within_bind 2 2); [|apply on_response_sends].
  apply (sends_within_bind 0 2).
  { unfold backoff. destruct (1 <? attempt)%nat; [|constructor].
    apply (sends_within_call (Delay _)), I. }
  intros _. apply (sends_within_bind 1 1); [apply getSessionCookies_sends|]. intros cookies.
  apply sends_within_fetch, Q_pdf.
Qed.

Lemma attempts_sends maxRetries remaining attempt :
  sends_within Q (4 * remaining) (attempts E url maxRetries remaining attempt).
Proof.
  revert attempt. induction remaining as [|remaining IH]; intros attempt; cbn [attempts].
  - constructor.
  - replace (4 * S remaining)%nat with (4 + 4 * remaining)%nat by lia.
    apply sends_within_try_catch.
    + replace 4%nat with (4 + 0)%nat by lia.
      apply sends_within_bind; [apply attempt_body_sends | constructor].
    + intros err. destruct (is_last attempt maxRetries); [constructor | apply IH].
Qed.

End Sending.

Section RouteRequests.
Variable E : environment.

Lemma route_request_mono (l l' : list reservation) q :
  (forall r, r ∈ l -> r ∈ l') -> route_request E l q -> route_request E l' q.
Proof.
  intros Hsub [->|(r & h & i & c & m & Hr & Hh & Hi & ->)]; [left; reflexivity|].
  right. exists r, h, i, c, m. auto.
Qed.

Lemma template_sends {B} (Q : request -> Prop) n v (f : string -> prog B) :
  (forall s, ToString v = Some s -> sends_within Q n (f s)) ->
  sends_within Q n (let* s := template v in f s).
Proof.
  intros Hf. unfold template. destruct (ToString v) as [s|]; simpl; [auto | constructor].
Qed.

Lemma generatePdf_sends htlCode resId maxRetries :
  sends_within
    (fun q => q = login_request E
              \/ exists h i cookies manual,
                   ToString htlCode = Some h /\ ToString resId = Some i
                   /\ q = pdf_request (pdfUrl E h i) cookies manual)
    (4 * Z.to_nat (Qfloor maxRetries)) (generatePdfForReservation E htlCode resId maxRetries).
Proof.
  unfold generatePdfForReservation.
  apply template_sends. intros h Hh. apply template_sends. intros i Hi.
  apply attempts_sends; [left; reflexivity|].
  intros c m. right. exists h, i, c, m. auto.
Qed.

Lemma spec_task_sends (l : list reservation) r :
  r ∈ l -> sends_within (route_request E l) 12 (spec_task E r).
Proof.
  intros Hr. unfold spec_task.
  change 12%nat with (12 + 0 + 0)%nat.
  apply sends_within_try_catch; [|constructor].
  apply sends_within_bind.
  - eapply sends_within_mono with (n := (4 * Z.to_nat (Qfloor 3))%nat); [|reflexivity].
    unfold generatePdfForReservation.
    apply template_sends. intros h Hh. apply template_sends. intros i Hi.
    apply attempts_sends; [left; reflexivity|].
    intros c m. right. exists r, h, i, c, m. auto.
  - intros pdfBlob. apply template_sends. intros h _. apply template_sends. intros i _.
    constructor.
Qed.

Lemma batch_task_sends (l : list reservation) r :
  r ∈ l -> sends_within (route_request E l) 12 (batch_task E r).
Proof.
  intros Hr. rewrite batch_task_prints.
  destruct (prints r); [apply spec_task_sends, Hr | constructor].
Qed.

Lemma run_batch_sent schedule (batch reservations : list reservation) w :
  (forall r, r ∈ batch -> r ∈ reservations) ->
  sent (route_request E reservations) (12 * length batch) w
    (snd (run_batch E schedule batch w)).
Proof.
  intros Hsub. unfold run_batch.
  pose proof (run_all_sent E (route_request E reservations) 12 schedule
                (map (batch_task E) batch) w) as H.
  rewrite length_map in H. apply H.
  apply Forall_fmap, Forall_forall. intros r Hr. apply batch_task_sends, Hsub, Hr.
Qed.

Lemma sent_mono (Q : request -> Prop) a b w w' :
  sent Q a w w' -> (a <= b)%nat -> sent Q b w w'.
Proof. intros (evs & H & HQ & L) Hab. exists evs. split; [exact H|]. split; [exact HQ | lia]. Qed.

Lemma process_batches_sent schedules reservations w :
  sent (route_request E reservations) (12 * length reservations) w
    (snd (process_batches E schedules reservations 0 [] w)).
Proof.
  pose proof (process_batches_steps E (sent (route_request E reservations)) 12
                schedules reservations 0 [] w) as H.
  rewrite Nat.sub_0_r in H. apply H.
  - intros n w0. apply sent_refl.
  - intros a b n w1 w2 w3. apply sent_trans.
  - intros schedule batch w0 Hsub. apply run_batch_sent, Hsub.
  - intros w0. exists [TimerSet 200; TimerFired 200].
    split; [|split; [constructor | simpl; lia]].
    unfold delay, call. simpl. rewrite <- app_assoc. reflexivity.
Qed.

(** The world [POST] leaves is the one its loop leaves. *)
Lemma POST_world body items reservations schedules w :
  property body "reservationIds" = Some (Some (JArr items)) ->
  validate items = inr reservations ->
  snd (POST E (inr body) schedules w)
  = snd (process_batches E schedules reservations 0 [] w).
Proof.
  intros Hbody Hvalid. unfold POST. rewrite Hbody, Hvalid.
  destruct (process_batches E schedules reservations 0 [] w) as [[e|results] w'];
    [reflexivity|].
  destruct (length results =? 0)%nat; reflexivity.
Qed.

End RouteRequests.

(** ** Waits issued and settled *)

Lemma open_waits_app t1 t2 : open_waits (t1 ++ t2) = open_waits t1 + open_waits t2.
Proof.
  induction t1 as [|ev t1 IH]; simpl; [reflexivity|]. destruct ev; rewrite IH; lia.
Qed.

Lemma parked_cons {A} (t : task A) ts : parked (t :: ts) = parked [t] + parked ts.
Proof. destruct t; simpl; lia. Qed.

Lemma parked_insert {A} (ts : list (task A)) i t t' :
  ts !! i = Some t -> parked (<[i:=t']> ts) = parked ts - parked [t] + parked [t'].
Proof.
  revert i. induction ts as [|t0 ts IH]; intros i Hi; [discriminate|].
  destruct i as [|i]; simpl in Hi.
  - injection Hi as ->. simpl insert. rewrite (parked_cons t'), (parked_cons t). lia.
  - simpl insert. rewrite (parked_cons t0 (<[i:=t']> ts)), (parked_cons t0 ts), (IH i Hi).
    lia.
Qed.

Section Balance.
Variable E : environment.

Lemma moves_refl w : moves 0 w w.
Proof. exists []. split; [apply eq_sym, app_nil_r | reflexivity]. Qed.

Lemma moves_trans a b d w1 w2 w3 :
  moves a w1 w2 -> moves b w2 w3 -> d = a + b -> moves d w1 w3.
Proof.
  intros (e1 & H1 & D1) (e2 & H2 & D2) ->. exists (e1 ++ e2). split.
  - rewrite H2, H1, app_assoc. reflexivity.
  - rewrite open_waits_app. lia.
Qed.

Lemma issue_moves {R} (o : op R) w : moves (if waits o then 1 else 0) w (issue o w).
Proof.
  destruct o; simpl; try apply moves_refl; (eexists; split; [reflexivity|]; reflexivity).
Qed.

Lemma settle_moves {R} (o : op R) w :
  moves (if waits o then -1 else 0) w (snd (settle E o w)).
Proof.
  destruct o; simpl; try apply moves_refl;
    try (exists []; split; [apply eq_sym, app_nil_r | reflexivity]);
    (eexists; split; [reflexivity|]; reflexivity).
Qed.

Lemma run_moves {A} (p : prog A) w : moves 0 w (snd (run E p w)).
Proof.
  revert w. induction p as [a|e|R o k IH]; intros w; simpl; try apply moves_refl.
  unfold perform.
  pose proof (issue_moves o w) as H1.
  pose proof (settle_moves o (issue o w)) as H2.
  destruct (settle E o (issue o w)) as [r w1]. simpl in H2.
  eapply moves_trans; [exact H1 | |].
  - eapply moves_trans; [exact H2 | apply IH | reflexivity].
  - destruct (waits o); lia.
Qed.

Lemma advance_moves {A} (p : prog A) w :
  moves (parked [fst (advance E p w)]) w (snd (advance E p w)).
Proof.
  revert w. induction p as [a|e|R o k IH]; intros w; simpl; try apply moves_refl.
  destruct (waits o) eqn:Hw; simpl.
  - pose proof (issue_moves o w) as H. rewrite Hw in H. exact H.
  - pose proof (settle_moves o w) as H1. rewrite Hw in H1.
    destruct (settle E o w) as [r w1]. simpl in H1.
    eapply moves_trans; [exact H1 | apply IH | reflexivity].
Qed.


Lemma advance_parked {A} (p : prog A) w : well_parked (fst (advance E p w)).
Proof.
  revert w. induction p as [a|e|R o k IH]; intros w; simpl; try exact I.
  destruct (waits o) eqn:Hw; simpl; [exact Hw|].
  destruct (settle E o w) as [r w1]. apply IH.
Qed.

Lemma resume_parked {A} (t : task A) w : well_parked (fst (resume E t w)).
Proof.
  destruct t as [r|R o k]; simpl; [exact I|].
  destruct (settle E o w) as [r w1]. apply advance_parked.
Qed.

Lemma resume_moves {A} (t : task A) w :
  well_parked t ->
  moves (parked [fst (resume E t w)] - parked [t]) w (snd (resume E t w)).
Proof.
  destruct t as [r|R o k]; intros Hw.
  - simpl. apply moves_refl.
  - simpl in Hw. cbn [resume].
    pose proof (settle_moves o w) as H1. rewrite Hw in H1.
    destruct (settle E o w) as [r w1]. cbn [snd] in H1.
    eapply moves_trans; [exact H1 | apply advance_moves|].
    change (parked [Waiting o k]) with 1. lia.
Qed.

Lemma finish_moves {A} (t : task A) w :
  well_parked t -> moves (- parked [t]) w (snd (finish E t w)).
Proof.
  destruct t as [r|R o k]; intros Hw.
  - simpl. apply moves_refl.
  - simpl in Hw. cbn [finish].
    pose proof (settle_moves o w) as H1. rewrite Hw in H1.
    destruct (settle E o w) as [r w1]. cbn [snd] in H1.
    eapply moves_trans; [exact H1 | apply run_moves | reflexivity].
Qed.

Lemma start_all_moves {A} (ps : list (prog A)) w :
  Forall well_parked (fst (start_all E ps w))
  /\ moves (parked (fst (start_all E ps w))) w (snd (start_all E ps w)).
Proof.
  revert w. induction ps as [|p ps IH]; intros w; cbn [start_all].
  - split; [constructor | apply moves_refl].
  - pose proof (advance_moves p w) as H1. pose proof (advance_parked p w) as Hp.
    destruct (advance E p w) as [t w1]. destruct (IH w1) as [Hts H2].
    destruct (start_all E ps w1) as [ts w2]. cbn [fst snd] in *.
    split; [constructor; assumption|].
    eapply moves_trans; [exact H1 | exact H2 | apply parked_cons].
Qed.

Lemma settle_in_order_moves {A} schedule (ts : list (task A)) w :
  Forall well_parked ts ->
  Forall well_parked (fst (settle_in_order E schedule ts w))
  /\ moves (parked (fst (settle_in_order E schedule ts w)) - parked ts) w
       (snd (settle_in_order E schedule ts w)).
Proof.
  revert ts w. induction schedule as [|i later IH]; intros ts w Hts;
    cbn [settle_in_order].
  - cbn [fst snd]. split; [exact Hts|].
    eapply moves_trans; [apply moves_refl | apply moves_refl | lia].
  - destruct (rejection ts).
    { cbn [fst snd]. split; [exact Hts|].
      eapply moves_trans; [apply moves_refl | apply moves_refl | lia]. }
    destruct (ts !! i) as [t|] eqn:Hi; [|apply IH, Hts].
    pose proof (resume_moves t w (Forall_lookup_1 _ _ _ _ Hts Hi)) as H1.
    pose proof (resume_parked t w) as Hp.
    destruct (resume E t w) as [t' w1]. cbn [fst snd] in H1, Hp.
    destruct (IH (<[i:=t']> ts) w1) as [Hts' H2]; [apply Forall_insert; assumption|].
    split; [exact Hts'|].
    eapply moves_trans; [exact H1 | exact H2|].
    rewrite (parked_insert ts i t t' Hi). lia.
Qed.

Lemma finish_all_moves {A} (ts : list (task A)) w :
  Forall well_parked ts ->
  forall l, fst (finish_all E ts w) = inr l ->
  moves (- parked ts) w (snd (finish_all E ts w)).
Proof.
  intros Hts. revert w. induction Hts as [|t ts Ht _ IH]; intros w l; cbn [finish_all].
  - intros _. apply moves_refl.
  - pose proof (finish_moves t w Ht) as H1.
    destruct (finish E t w) as [[e|a] w1]; [discriminate|]. cbn [snd] in H1.
    specialize (IH w1).
    destruct (finish_all E ts w1) as [[e|l'] w2]; [discriminate|]. cbn [fst snd] in *.
    intros _. eapply moves_trans; [exact H1 | apply (IH l' eq_refl)|].
    rewrite (parked_cons t ts). lia.
Qed.

(** When [Promise.all] fulfils, every wait the group issued has settled. *)
Lemma run_all_moves {A} (ps : list (prog A)) schedule w l :
  fst (run_all E ps schedule w) = inr l ->
  moves 0 w (snd (run_all E ps schedule w)).
Proof.
  unfold run_all.
  destruct (start_all_moves ps w) as [Hts H1].
  destruct (start_all E ps w) as [ts w1]. cbn [fst snd] in Hts, H1.
  destruct (settle_in_order_moves schedule ts w1 Hts) as [Hts' H2].
  destruct (settle_in_order E schedule ts w1) as [ts' w2]. cbn [fst snd] in Hts', H2.
  destruct (rejection ts'); [discriminate|].
  intros Hl. pose proof (finish_all_moves ts' w2 Hts' l Hl) as H3.
  eapply moves_trans; [exact H1 | |].
  - eapply moves_trans; [exact H2 | exact H3 | reflexivity].
  - lia.
Qed.

End Balance.

(** ** Groups of twenty, one after the other *)

Section Batches.
Variable E : environment.

Lemma group_run_spec schedule (group : list reservation) w :
  Forall (fun r => prints r = true) group ->
  exists evs,
    history (snd (run_all E (map (spec_task E) group) schedule w)) = history w ++ evs
    /\ group_run E group evs.
Proof.
  intros Hgroup.
  destruct (run_batch_outcomes E schedule group w Hgroup) as (outs & Hout & _ & _).
  destruct (run_all_concurrent E schedule group w Hgroup)
    as (first & later & Hlen & Hfirst).
  destruct (run_all_moves E (map (spec_task E) group) schedule w outs) as (evs & H & Hopen).
  { rewrite Hout. reflexivity. }
  destruct (run_all_sent E (route_request E group) 12 schedule
              (map (spec_task E) group) w) as (evs1 & H1 & HQ & _).
  { apply Forall_fmap, Forall_forall. intros r Hr. apply spec_task_sends, Hr. }
  destruct (run_all_adds E (fun ms => ms <> 200) schedule
              (map (spec_task E) group) w) as (evs2 & H2 & HP).
  { apply Forall_fmap, Forall_forall. intros r _. apply spec_task_uses; lia. }
  rewrite H in H1, H2, Hfirst.
  apply app_inv_head in H1, H2, Hfirst. subst evs1 evs2.
  exists evs. split; [exact H|]. split; [|split; [|split]].
  - exists first, later. auto.
  - exact Hopen.
  - exact HQ.
  - apply pauses_none, HP.
Qed.

Lemma spec_orchestrate_in_groups schedules number groups w :
  Forall (fun r => prints r = true) (concat groups) ->
  exists evs,
    history (snd (spec_orchestrate E schedules number groups w)) = history w ++ evs
    /\ in_groups E groups evs.
Proof.
  revert number w. induction groups as [|g more IH]; intros number w Hall.
  - exists []. split; [apply eq_sym, app_nil_r | reflexivity].
  - simpl in Hall. apply Forall_app in Hall as [Hg Hmore].
    cbn [spec_orchestrate].
    destruct (group_run_spec (schedules number) g w Hg) as (evs1 & H1 & Hrun).
    destruct (run_all E (map (spec_task E) g) (schedules number) w) as [settled w1].
    cbn [snd] in H1.
    destruct more as [|g' more'].
    + simpl. exists evs1. split; [exact H1 | exact Hrun].
    + set (w2 := snd (run E (delay 200) w1)).
      destruct (IH (S number) w2 Hmore) as (evs2 & H2 & Hrest).
      destruct (spec_orchestrate E schedules (S number) (g' :: more') w2) as [later w3].
      cbn [snd] in H2 |- *.
      exists (evs1 ++ [TimerSet 200; TimerFired 200] ++ evs2). split.
      * rewrite H2. unfold w2, delay, call. simpl. rewrite H1, <- !app_assoc. reflexivity.
      * cbn [in_groups]. exists evs1, evs2. auto.
Qed.




End Batches.

(** ** The PDF signature *)

(** C10. [isPDF] accepts a buffer exactly when it has at least 4 bytes and
    the first 4 are "%PDF"; a shorter buffer is rejected; every buffer that
    [generatePdfForReservation] returns, and so every file of an archive
    that [POST] answers with, begins with "%PDF". *)
Theorem pdf_signature_guard :
  pdfSignature = list_byte_of_string "%PDF"
  /\ (forall b : buffer,
        isPDF b = true <-> (4 <= length b)%nat /\ take 4 b = pdfSignature)
  /\ (forall b : buffer, (length b < 4)%nat -> isPDF b = false)
  /\ (forall E htlCode resId maxRetries w buf w',
        run E (generatePdfForReservation E htlCode resId maxRetries) w
        = (inr (Some buf), w') ->
        take 4 buf = pdfSignature)
  /\ (forall E body schedules w resp w' files name bytes,
        POST E body schedules w = (resp, w') ->
        res_body resp = ZipBody files ->
        files !! name = Some (File bytes) ->
        take 4 bytes = pdfSignature).
Proof.
  split; [reflexivity|]. split; [apply isPDF_spec|]. split; [|split].
  - intros b Hb. destruct (isPDF b) eqn:H; [|reflexivity].
    apply isPDF_spec in H. lia.
  - intros E htlCode resId maxRetries w buf w' Hrun.
    pose proof (ends_in_run E _ _ w (generatePdf_ends E htlCode resId maxRetries)) as H.
    rewrite Hrun in H. apply isPDF_spec. apply (H (Some buf) buf); reflexivity.
  - intros E body schedules w resp w' files name bytes HPOST Hzip Hfile.
    destruct body as [err|decoded];
      [unfold POST in HPOST; injection HPOST as <- <-; discriminate|].
    destruct (property decoded "reservationIds") as [[v|]|] eqn:Hbody;
      [|unfold POST in HPOST; rewrite Hbody in HPOST;
        injection HPOST as <- <-; discriminate
       |unfold POST in HPOST; rewrite Hbody in HPOST;
        injection HPOST as <- <-; discriminate].
    destruct v; try (unfold POST in HPOST; rewrite Hbody in HPOST;
                     injection HPOST as <- <-; discriminate).
    destruct (validate items) as [e|reservations] eqn:Hvalid;
      [unfold POST in HPOST; rewrite Hbody, Hvalid in HPOST;
       injection HPOST as <- <-; discriminate|].
    destruct (POST_cases E decoded items reservations schedules w Hbody Hvalid)
      as [[Hall Heq]|[_ Heq]]; rewrite Heq in HPOST;
      [|injection HPOST as <- <-; discriminate].
    cbn zeta in HPOST.
    change (fst (spec_orchestrate E schedules 0
                   (spec_partition batchSize reservations) w))
      with (outcomes E schedules reservations w) in HPOST.
    destruct (length (non_null (outcomes E schedules reservations w)) =? 0)%nat;
      [injection HPOST as <- <-; discriminate|].
    injection HPOST as <- <-. cbn [res_body success_response] in Hzip.
    injection Hzip as <-. rewrite build_zip_add_all in Hfile.
    apply add_all_last_wins in Hfile.
    destruct (last_named name (non_null (outcomes E schedules reservations w)))
      as [result|] eqn:Hlast; [|rewrite lookup_empty in Hfile; discriminate].
    apply last_named_elem in Hlast as [Hin _].
    pose proof (outcomes_fetched E schedules reservations w Hall) as Hf.
    assert (exists r, fetched r (Some result)) as (r & Hr).
    { unfold non_null in Hin. apply list_elem_of_omap in Hin as (o & Ho & Hid).
      simpl in Hid. subst o.
      apply list_elem_of_lookup in Ho as (i & Hi).
      destruct (Forall2_lookup_r _ _ _ _ _ Hf Hi) as (r & _ & Hr). eauto. }
    destruct Hr as [Hr|(buf & nm & Hpdf & _ & [= ->])]; [discriminate|].
    simpl in Hfile. subst bytes. apply isPDF_spec, Hpdf.
Qed.

(** ** The properties on concrete runs *)

Import Scenario.

(** C8 on a login that is answered with two cookies. *)
Lemma login_caches_session_witness :
  fst (run (office two_cookies always_pdf) (login (office two_cookies always_pdf)) fresh)
  = inr "JSESSIONID=abc; lang=en"
  /\ sessionExpiry (snd (run (office two_cookies always_pdf)
                           (login (office two_cookies always_pdf)) fresh))
     = Some 1801000
  /\ before_semicolon "JSESSIONID=abc; Path=/; HttpOnly" = "JSESSIONID=abc".
Proof.
  destruct (login_caches_session (office two_cookies always_pdf) fresh)
    as (_ & Hok & Hstrip).
  destruct (Hok (accepted two_cookies)) as (H1 & _ & H3);
    [reflexivity | discriminate |].
  split; [exact H1|]. split; [exact H3|].
  apply (Hstrip "JSESSIONID=abc" " Path=/; HttpOnly"). reflexivity.
Defined.

(** C7 with a live session, and with none. *)
Lemma getSessionCookies_cached_or_fresh_witness :
  run (office two_cookies always_pdf) (getSessionCookies (office two_cookies always_pdf))
    signed_in
  = (inr "JSESSIONID=abc; lang=en", signed_in)
  /\ sessionCookies
       (snd (run (office two_cookies always_pdf)
               (getSessionCookies (office two_cookies always_pdf)) fresh))
     = Some "JSESSIONID=abc; lang=en".
Proof.
  split.
  - destruct (getSessionCookies_cached_or_fresh (office two_cookies always_pdf) signed_in)
      as (Hcached & _).
    apply Hcached; [reflexivity|]. split; [discriminate|].
    exists 1801000. split; [reflexivity|]. split; [discriminate | reflexivity].
  - destruct (getSessionCookies_cached_or_fresh (office two_cookies always_pdf) fresh)
      as (_ & _ & Hfresh).
    destruct Hfresh as (_ & Hcache); [discriminate|].
    apply (Hcache "JSESSIONID=abc; lang=en"). reflexivity.
Defined.

(** C7 as stated fails: a login answered with the single cookie
    ["; Path=/"] caches the empty header with an expiry in the future, and
    the next [getSessionCookies] logs in again. *)
Lemma empty_cookie_header_is_not_reused :
  let E := office ["; Path=/"] always_pdf in
  let w := snd (run E (login E) fresh) in
  fst (run E (login E) fresh) = inr ""
  /\ sessionCookies w = Some ""
  /\ sessionExpiry w = Some 1801000
  /\ clock E (history w) < 1801000
  /\ run E (getSessionCookies E) w <> (inr "", w)
  /\ history (snd (run E (getSessionCookies E) w))
     = history w ++ [Issued (login_request E);
                     Settled (login_request E) (inr (accepted ["; Path=/"]))].
Proof.
  cbv zeta. repeat split; try reflexivity. discriminate.
Qed.


(** C3 on an expired session, with a budget of a single attempt. *)
Lemma login_redirect_recovered_in_place_witness :
  let E := office two_cookies expired_once in
  let url := pdfUrl E "H1" "99" in
  fst (run E (attempts E url 1 1 1) signed_in) = inr (Some pdf_document)
  /\ timers (history (snd (run E (attempts E url 1 1 1) signed_in))) = [].
Proof.
  intros E url.
  destruct (login_redirect_recovered_in_place E url 1 signed_in
              (expired_once (pdf_request url "JSESSIONID=abc; lang=en" true))
              (snd (run E (first_exchange E url 1) signed_in))
              "/login/?forward=%2Fres%2Fprint.cfm")
    as (_ & _ & _ & _ & Hloop); try reflexivity.
  rewrite (Hloop 1%Q 0%nat). split; reflexivity.
Defined.

(** C3 as stated fails: a 307 redirect to the login page is an HTTP error
    of the attempt; the session is kept and nothing more is sent. *)
Lemma redirect_307_not_recovered :
  let E := office two_cookies temporary_redirect in
  let url := pdfUrl E "H1" "99" in
  let r := temporary_redirect (pdf_request url "JSESSIONID=abc; lang=en" true) in
  let w1 := snd (run E (first_exchange E url 1) signed_in) in
  run E (first_exchange E url 1) signed_in = (inr r, w1)
  /\ 300 <= status r < 400
  /\ (exists target, location r = Some target /\ includes "forward=" target = true)
  /\ run E (attempt_body E url 1) signed_in
     = (inl (HttpError 307 "Temporary Redirect"), w1)
  /\ sessionCookies w1 = Some "JSESSIONID=abc; lang=en"
  /\ since signed_in w1
     = [Issued (pdf_request url "JSESSIONID=abc; lang=en" true);
        Settled (pdf_request url "JSESSIONID=abc; lang=en" true) (inr r)].
Proof.
  cbv zeta. split; [reflexivity|]. split; [simpl; lia|].
  split; [eexists; split; reflexivity|]. repeat split; reflexivity.
Qed.

(** C4 on a document that is not found. *)
Lemma http_error_is_transient_witness :
  let E := office two_cookies not_found in
  let url := pdfUrl E "H1" "99" in
  fst (run E (attempt_body E url 1) signed_in) = inl (HttpError 404 "Not Found")
  /\ fst (run E (attempts E url 1 1 1) signed_in)
     = inl (FailedAfter 1 "HTTP 404: Not Found").
Proof.
  intros E url.
  destruct (http_error_is_transient E url 1 signed_in
              (not_found (pdf_request url "JSESSIONID=abc; lang=en" true))
              (snd (run E (first_exchange E url 1) signed_in)))
    as (Herror & _); [reflexivity|].
  destruct Herror as (Hbody & Hloop); [reflexivity | discriminate |].
  split; [rewrite Hbody; reflexivity|].
  rewrite (Hloop 1%Q 0%nat). reflexivity.
Defined.

(** C4 as stated fails: a 302 whose target is not the login page is not
    successful, yet the attempt goes on to the signature check; it throws
    the non-PDF error for a page and returns the body when it is a PDF. *)
Lemma plain_302_skips_status_error :
  let url := "https://pms.example/res/print.cfm?htl_code=H1&res_id=99&download" in
  let page := moved html_page (pdf_request url "JSESSIONID=abc; lang=en" true) in
  let file := moved pdf_document (pdf_request url "JSESSIONID=abc; lang=en" true) in
  ok page = false
  /\ status page = 302
  /\ (forall target, location page = Some target -> includes "forward=" target = false)
  /\ fst (run (office two_cookies (moved html_page))
            (first_exchange (office two_cookies (moved html_page)) url 1) signed_in)
     = inr page
  /\ fst (run (office two_cookies (moved html_page))
            (attempt_body (office two_cookies (moved html_page)) url 1) signed_in)
     = inl NotPdf
  /\ ok file = false
  /\ fst (run (office two_cookies (moved pdf_document))
            (attempt_body (office two_cookies (moved pdf_document)) url 1) signed_in)
     = inr pdf_document.
Proof.
  cbv zeta. repeat split; try reflexivity.
  intros target [= <-]. reflexivity.
Qed.

(** C5 on a body without [reservationIds], and on an element without
    [res_id]. *)
Lemma malformed_request_rejected_witness :
  POST (office two_cookies always_pdf) (inr (JObj [("reservations", JArr [])])) in_turn fresh
  = (json_error "Invalid or missing reservationIds" 400, fresh)
  /\ exists msg,
       POST (office two_cookies always_pdf)
         (inr (request_body [item "H1" "99"; JObj [("htl_code", JStr "H1")]])) in_turn fresh
       = (json_error msg 400, fresh).
Proof.
  split.
  - destruct (malformed_request_rejected (office two_cookies always_pdf)
                (JObj [("reservations", JArr [])]) in_turn fresh) as (Hshape & _);
      [discriminate|].
    apply Hshape. intros items. discriminate.
  - destruct (malformed_request_rejected (office two_cookies always_pdf)
                (request_body [item "H1" "99"; JObj [("htl_code", JStr "H1")]])
                in_turn fresh) as (_ & Hitem); [discriminate|].
    destruct (Hitem [item "H1" "99"; JObj [("htl_code", JStr "H1")]]
                (JObj [("htl_code", JStr "H1")])) as (msg & HPOST & _).
    + reflexivity.
    + right. left.
    + right. exact I.
    + exists msg. exact HPOST.
Defined.

(** C5 as stated fails: a body that is not JSON, and the body [null], are
    answered with status 500. *)
Lemma undecodable_body_is_500 :
  fst (POST (office two_cookies always_pdf)
         (inl (SyntaxError "Unexpected end of JSON input")) in_turn fresh)
  = json_error "Unexpected end of JSON input" 500
  /\ res_status (fst (POST (office two_cookies always_pdf) (inr JNull) in_turn fresh)) = 500
  /\ forall items, property JNull "reservationIds" <> Some (Some (JArr items)).
Proof. repeat split; try reflexivity. intros items. discriminate. Qed.

(** C9 on two reservations whose documents are HTML pages, and on a
    reservation whose hotel code does not print. *)
Lemma no_success_is_server_error_witness :
  (exists w',
     POST (office two_cookies always_html)
       (inr (request_body [item "H1" "99"; item "H2" "7"])) interleaved fresh
     = (json_error "Failed to fetch any PDFs" 500, w'))
  /\ exists w',
       POST (office two_cookies always_pdf)
         (inr (request_body [JObj [("htl_code", unprintable); ("res_id", JStr "99")]]))
         in_turn fresh
       = (json_error "Cannot convert object to primitive value" 500, w').
Proof.
  split.
  - destruct (no_success_is_server_error (office two_cookies always_html)
                (request_body [item "H1" "99"; item "H2" "7"])
                [item "H1" "99"; item "H2" "7"]
                [{| htl_code := JStr "H1"; res_id := JStr "99" |};
                 {| htl_code := JStr "H2"; res_id := JStr "7" |}]
                interleaved fresh) as (resp & msg & w' & HPOST & -> & _ & _ & _ & ->).
    + reflexivity.
    + reflexivity.
    + intros _. vm_compute. repeat constructor.
    + exists w'. exact HPOST.
  - destruct (no_success_is_server_error (office two_cookies always_pdf)
                (request_body [JObj [("htl_code", unprintable); ("res_id", JStr "99")]])
                [JObj [("htl_code", unprintable); ("res_id", JStr "99")]]
                [{| htl_code := unprintable; res_id := JStr "99" |}]
                in_turn fresh) as (resp & msg & w' & HPOST & -> & _ & _ & _ & ->).
    + reflexivity.
    + reflexivity.
    + intros Hprints. apply Forall_inv in Hprints. discriminate.
    + exists w'. exact HPOST.
Defined.

(** C1 on two reservations of which only the first has a document. *)
Lemma archive_holds_distinct_successes_witness :
  exists files w',
    POST (office two_cookies only_H1)
      (inr (request_body [item "H1" "99"; item "H2" "7"])) interleaved fresh
    = (success_response 1 1 files, w')
    /\ files !! "H1-99.pdf" = Some (File pdf_document)
    /\ size files = 1%nat.
Proof.
  destruct (archive_holds_distinct_successes (office two_cookies only_H1)
              (request_body [item "H1" "99"; item "H2" "7"])
              [item "H1" "99"; item "H2" "7"]
              [{| htl_code := JStr "H1"; res_id := JStr "99" |};
               {| htl_code := JStr "H2"; res_id := JStr "7" |}]
              interleaved fresh)
    as (files & w' & HPOST & _ & _ & Hfiles & _ & Hplain & _).
  - reflexivity.
  - reflexivity.
  - repeat constructor.
  - eexists. vm_compute. left.
  - destruct Hplain as (_ & Hdistinct); [vm_compute; repeat constructor|].
    destruct Hdistinct as (Hsize & _).
    { vm_compute. apply NoDup_singleton. }
    exists files, w'. split; [exact HPOST|]. split; [|exact Hsize].
    apply Hfiles. eexists. split; vm_compute; reflexivity.
Defined.

(** C1 as stated fails: the same reservation sent twice is fetched twice,
    the success header says 2, and the archive holds one file; and one
    reservation whose hotel code is "A/B" is fetched once, the success
    header says 1, and the archive holds two entries, the folder "A/" and
    the file. *)
Lemma archive_entries_are_not_one_per_success :
  let E := office two_cookies always_pdf in
  let body := request_body [item "H1" "99"; item "H1" "99"] in
  let reservation := {| htl_code := JStr "H1"; res_id := JStr "99" |} in
  let outs := outcomes E in_turn [reservation; reservation] fresh in
  validate [item "H1" "99"; item "H1" "99"] = inr [reservation; reservation]
  /\ length (non_null outs) = 2%nat
  /\ (exists files w',
        POST E (inr body) in_turn fresh = (success_response 2 0 files, w')
        /\ size files = 1%nat
        /\ map_to_list files = [("H1-99.pdf", File pdf_document)])
  /\ exists files w',
       POST E (inr (request_body [item "A/B" "1"])) in_turn fresh
       = (success_response 1 0 files, w')
       /\ size files = 2%nat
       /\ files !! "A/" = Some Folder
       /\ files !! "A/B-1.pdf" = Some (File pdf_document).
Proof.
  cbv zeta. split; [reflexivity|]. split; [reflexivity|]. split.
  - eexists _, _. split; [reflexivity|]. split; reflexivity.
  - eexists _, _. split; [reflexivity|]. repeat split; reflexivity.
Qed.


(** C10 on a PDF and on a three-byte buffer. *)
Lemma pdf_signature_guard_witness :
  isPDF Scenario.pdf_document = true
  /\ isPDF (list_byte_of_string "%PD") = false
  /\ take 4 Scenario.pdf_document = list_byte_of_string "%PDF".
Proof.
  destruct pdf_signature_guard as (Hsig & Hiff & Hshort & Hfetch & _).
  split; [apply Hiff; split; [vm_compute; lia | reflexivity]|].
  split; [apply Hshort; vm_compute; lia|].
  rewrite <- Hsig.
  apply (Hfetch (office two_cookies always_pdf) (JStr "H1") (JStr "99") 3%Q signed_in
           pdf_document
           (snd (run (office two_cookies always_pdf)
                   (generatePdfForReservation (office two_cookies always_pdf)
                      (JStr "H1") (JStr "99") 3) signed_in))).
  reflexivity.
Defined.

(** * Further properties of the route *)

(** ** What validation accepts *)

Section Validation.

Lemma validate_item_accepts item r :
  validate_item item = inr r
  <-> property item "htl_code" = Some (Some (htl_code r))
      /\ truthy (Some (htl_code r)) = true
      /\ property item "res_id" = Some (Some (res_id r))
      /\ truthy (Some (res_id r)) = true.
Proof.
  unfold validate_item. split.
  - destruct (property item "htl_code") as [[h|]|]; try discriminate.
    destruct (truthy (Some h)) eqn:Hh; [|discriminate]. cbn [negb].
    destruct (property item "res_id") as [[i|]|]; try discriminate.
    destruct (truthy (Some i)) eqn:Hi; [|discriminate]. cbn [negb].
    intros [= <-]. auto.
  - destruct r as [h i]. cbn [htl_code res_id]. intros (-> & Hh & -> & Hi).
    rewrite Hh, Hi. reflexivity.
Qed.

(** X1. Validation accepts a list exactly when every element has a truthy
    [htl_code] and a truthy [res_id]; the reservations are then these values,
    one per element and in the order of the list. *)
Theorem validate_accepts_truthy items reservations :
  validate items = inr reservations
  <-> Forall2 (fun item r =>
                 property item "htl_code" = Some (Some (htl_code r))
                 /\ truthy (Some (htl_code r)) = true
                 /\ property item "res_id" = Some (Some (res_id r))
                 /\ truthy (Some (res_id r)) = true)
        items reservations.
Proof.
  split.
  - revert reservations. induction items as [|item items IH]; intros rs H; simpl in H.
    + injection H as <-. constructor.
    + destruct (validate_item item) as [e|r] eqn:Hitem; [discriminate|].
      destruct (validate items) as [e|rs'] eqn:Hrest; [discriminate|].
      injection H as <-. constructor; [apply validate_item_accepts, Hitem | apply IH; reflexivity].
  - induction 1 as [|item r items rs Hitem _ IH]; simpl; [reflexivity|].
    apply validate_item_accepts in Hitem. rewrite Hitem, IH. reflexivity.
Qed.

End Validation.

Lemma validate_accepts_truthy_witness :
  validate [JObj [("htl_code", JNum {| is_zero := false; decimal := "7" |});
                  ("res_id", JStr "99"); ("note", JNull)]]
  = inr [{| htl_code := JNum {| is_zero := false; decimal := "7" |};
            res_id := JStr "99" |}].
Proof.
  apply validate_accepts_truthy. repeat constructor.
Defined.

(** ** The answers of the handler *)

Section Shapes.
Variable E : environment.

Lemma add_all_nonempty results zip :
  results <> [] -> add_all results zip <> ∅.
Proof.
  destruct results as [|result results _] using rev_ind; [congruence|].
  intros _. rewrite add_all_snoc. unfold zip_file. apply insert_non_empty.
Qed.

(** Every way [POST] ends. *)
Lemma POST_shapes body schedules w :
  (exists msg, POST E body schedules w = (json_error msg 400, w))
  \/ (exists msg w', POST E body schedules w = (json_error msg 500, w'))
  \/ (exists pdfResults failCount w',
        pdfResults <> []
        /\ POST E body schedules w
           = (success_response (length pdfResults) failCount (build_zip pdfResults), w')).
Proof.
  unfold POST. destruct body as [err|decoded]; [right; left; eauto|].
  destruct (property decoded "reservationIds") as [[v|]|]; [|left; eauto|right; left; eauto].
  destruct v; try (left; eauto; fail).
  destruct (validate items) as [e|reservations]; [left; eauto|].
  destruct (process_batches E schedules reservations 0 [] w) as [[e|pdfResults] w'];
    [right; left; eauto|].
  destruct pdfResults as [|result pdfResults]; [right; left; eauto|].
  right. right. eexists _, _, _. split; [|reflexivity]. discriminate.
Qed.

(** X3. [POST] answers with 200, 400 or 500. A 200 carries an archive, which
    is never empty; every other answer carries a JSON error message and no
    archive; and a 400 is given before anything is sent upstream or
    written to the session. *)
Theorem POST_answers body schedules w :
  let resp := fst (POST E body schedules w) in
  let w' := snd (POST E body schedules w) in
  (res_status resp = 200 \/ res_status resp = 400 \/ res_status resp = 500)
  /\ (res_status resp = 400 -> w' = w)
  /\ (res_status resp = 200 ->
      exists files, res_body resp = ZipBody files /\ files <> ∅)
  /\ (res_status resp <> 200 ->
      exists msg, res_body resp = JsonBody (JObj [("error", JStr msg)])).
Proof.
  cbv zeta.
  destruct (POST_shapes body schedules w)
    as [(msg & ->)|[(msg & w' & ->)|(pdfResults & failCount & w' & Hne & ->)]]; simpl.
  - split; [auto|]. split; [auto|]. split; [discriminate | eauto].
  - split; [auto|]. split; [discriminate|]. split; [discriminate | eauto].
  - split; [auto|]. split; [discriminate|]. split; [|congruence].
    intros _. eexists. split; [reflexivity|].
    rewrite build_zip_add_all. apply add_all_nonempty, Hne.
Qed.

(** X4. The header [Access-Control-Allow-Origin: *] that [OPTIONS] announces
    is on the answer of [POST] exactly when the status is 200: the route
    sets no header on a 400 or a 500. *)
Theorem cors_header_only_on_success body schedules w :
  let resp := fst (POST E body schedules w) in
  ("Access-Control-Allow-Origin", "*") ∈ preflight_headers OPTIONS
  /\ (("Access-Control-Allow-Origin", "*") ∈ res_headers resp <-> res_status resp = 200)
  /\ (res_status resp <> 200 -> res_headers resp = []).
Proof.
  cbv zeta. split; [left|].
  destruct (POST_shapes body schedules w)
    as [(msg & ->)|[(msg & w' & ->)|(pdfResults & failCount & w' & Hne & ->)]]; simpl.
  - split; [|reflexivity]. split; [intros H; inversion H | discriminate].
  - split; [|reflexivity]. split; [intros H; inversion H | discriminate].
  - split; [|congruence]. split; [reflexivity|]. intros _. right. right. left.
Qed.

(** X5. An empty [reservationIds] is answered with 500 "Failed to fetch any
    PDFs", and nothing is sent upstream. *)
Theorem POST_empty_list body schedules w :
  property body "reservationIds" = Some (Some (JArr [])) ->
  POST E (inr body) schedules w = (json_error "Failed to fetch any PDFs" 500, w).
Proof.
  intros Hbody. rewrite (POST_valid E body [] [] schedules w Hbody eq_refl (List.Forall_nil _)). reflexivity.
Qed.

End Shapes.

Lemma POST_answers_witness :
  snd (POST (office two_cookies always_pdf)
         (inr (request_body [item "H1" ""])) interleaved fresh) = fresh
  /\ exists files,
       res_body (fst (POST (office two_cookies always_pdf)
                        (inr (request_body [item "H1" "99"])) interleaved fresh))
       = ZipBody files /\ files <> ∅.
Proof.
  split.
  - apply (POST_answers (office two_cookies always_pdf)
             (inr (request_body [item "H1" ""])) interleaved fresh). reflexivity.
  - apply (POST_answers (office two_cookies always_pdf)
             (inr (request_body [item "H1" "99"])) interleaved fresh). reflexivity.
Defined.

Lemma cors_header_only_on_success_witness :
  res_headers (fst (POST (office two_cookies always_html)
                      (inr (request_body [item "H1" "99"])) interleaved fresh)) = [].
Proof.
  apply (cors_header_only_on_success (office two_cookies always_html)
           (inr (request_body [item "H1" "99"])) interleaved fresh).
  vm_compute. discriminate.
Defined.

Lemma POST_empty_list_witness :
  POST (office two_cookies always_pdf) (inr (request_body [])) interleaved fresh
  = (json_error "Failed to fetch any PDFs" 500, fresh).
Proof. apply POST_empty_list. reflexivity. Defined.

(** ** The session and the backoff *)

Section SessionMore.
Variable E : environment.

(** X6. A login that fails leaves the cached session as it was, and fails
    either because the answer had no cookie or because [fetch] rejected. *)
Theorem failed_login_keeps_session w e w' :
  run E (login E) w = (inl e, w') ->
  sessionCookies w' = sessionCookies w
  /\ sessionExpiry w' = sessionExpiry w
  /\ (e = LoginNoCookies \/ exists msg, e = FetchFailed msg).
Proof.
  rewrite login_run. cbv zeta.
  destruct (upstream E _ _) as [msg|r].
  - intros [= <- <-]. simpl. eauto.
  - destruct (length (setCookie r) =? 0)%nat; [|discriminate].
    intros [= <- <-]. simpl. auto.
Qed.

(** X7. The header a login returns is what [getSessionCookies] returns,
    without a request, in every later world that still holds this session
    and whose clock is less than 30 minutes after the login; from 30
    minutes on it logs in again. The header must not be empty and the
    expiry not 0, which the truthiness test would take for no session. *)
Theorem fresh_session_is_reused w header w1 w2 :
  run E (login E) w = (inr header, w1) ->
  header <> "" ->
  clock E (history w1) + 30 * 60 * 1000 <> 0 ->
  sessionCookies w2 = sessionCookies w1 ->
  sessionExpiry w2 = sessionExpiry w1 ->
  (clock E (history w2) < clock E (history w1) + 30 * 60 * 1000 ->
   run E (getSessionCookies E) w2 = (inr header, w2))
  /\ (clock E (history w1) + 30 * 60 * 1000 <= clock E (history w2) ->
      run E (getSessionCookies E) w2 = run E (login E) w2).
Proof.
  intros Hlogin Hne Hexp Hc He.
  assert (sessionCookies w1 = Some header
          /\ sessionExpiry w1 = Some (clock E (history w1) + 30 * 60 * 1000)) as [Hc1 He1].
  { rewrite login_run in Hlogin. cbv zeta in Hlogin.
    destruct (upstream E _ _) as [msg|r]; [discriminate|].
    destruct (length (setCookie r) =? 0)%nat; [discriminate|].
    injection Hlogin as <- <-. simpl. auto. }
  rewrite getSessionCookies_run, Hc, He, Hc1, He1.
  apply String.eqb_neq in Hne. apply Z.eqb_neq in Hexp. rewrite Hne, Hexp. cbn [negb andb].
  split; intros Hclock.
  - apply Z.ltb_lt in Hclock. rewrite Hclock. reflexivity.
  - apply Z.ltb_ge in Hclock. rewrite Hclock. reflexivity.
Qed.

(** No attempt is the last one when [maxRetries] is not a whole number. *)
Lemma is_last_never maxRetries :
  (forall n : nat, ~ maxRetries == whole n) -> forall a, is_last a maxRetries = false.
Proof.
  intros Hnot a. unfold is_last. destruct (Qeq_bool (whole a) maxRetries) eqn:H;
    [|reflexivity].
  apply Qeq_bool_eq in H. exfalso. apply (Hnot a). symmetry. exact H.
Qed.

Lemma floor_below_one maxRetries :
  (maxRetries < 1)%Q -> Z.to_nat (Qfloor maxRetries) = 0%nat.
Proof.
  intros H. pose proof (Qfloor_le maxRetries) as Hfloor.
  assert (inject_Z (Qfloor maxRetries) < inject_Z 1)%Q as Hlt
    by (eapply Qle_lt_trans; [exact Hfloor | exact H]).
  rewrite <- Zlt_Qlt in Hlt. lia.
Qed.

(** X8. [generatePdfForReservation] falls off its loop and gives
    [undefined] only when [maxRetries] is less than 1, and then without
    doing anything, or when [maxRetries] is not a whole number and every
    attempt the loop makes has failed. With a whole [maxRetries] of at
    least 1 it returns a buffer or throws. *)
Theorem undefined_only_without_attempts htlCode resId maxRetries w :
  let outcome := run E (generatePdfForReservation E htlCode resId maxRetries) w in
  let rounds := Z.to_nat (Qfloor maxRetries) in
  (forall h i, ToString htlCode = Some h -> ToString resId = Some i ->
     ((maxRetries < 1)%Q -> outcome = (inr None, w))
     /\ ((forall n : nat, ~ maxRetries == whole n) ->
         (exists buf, fst outcome = inr (Some buf))
         \/ (fst outcome = inr None
             /\ attempts_made E (pdfUrl E h i) maxRetries rounds 1 w = rounds)))
  /\ (forall n : nat, maxRetries == whole n -> (1 <= n)%nat ->
        (exists buf, fst outcome = inr (Some buf)) \/ (exists e, fst outcome = inl e))
  /\ (fst outcome = inr None ->
      (maxRetries < 1)%Q \/ (forall n : nat, ~ maxRetries == whole n)).
Proof.
  intros outcome rounds.
  assert (forall n : nat, maxRetries == whole n -> (1 <= n)%nat ->
            (exists buf, fst outcome = inr (Some buf)) \/ (exists e, fst outcome = inl e))
    as Hwhole.
  { intros n Hn H1. subst outcome. rewrite generatePdf_run.
    destruct (ToString htlCode) as [h|]; [|right; eexists; reflexivity].
    destruct (ToString resId) as [i|]; [|right; eexists; reflexivity].
    destruct (attempts_run_from E (pdfUrl E h i) maxRetries rounds 1 w)
      as (_ & _ & Hout & _).
    assert (rounds = n) as Hrounds by (apply (floor_whole n maxRetries Hn)).
    destruct (Hout n Hn) as [Hbuf|(_ & e & He)]; [lia | lia | left; exact Hbuf |].
    right. eexists. exact He. }
  split; [|split; [exact Hwhole|]].
  - intros h i Hh Hi.
    assert (outcome = run E (attempts E (pdfUrl E h i) maxRetries rounds 1) w) as Hrun.
    { subst outcome. rewrite generatePdf_run, Hh, Hi. reflexivity. }
    split.
    + intros Hlow. rewrite Hrun. subst rounds. rewrite (floor_below_one _ Hlow).
      reflexivity.
    + intros Hnot. rewrite Hrun.
      destruct (attempts_run_from E (pdfUrl E h i) maxRetries rounds 1 w)
        as (_ & _ & _ & Hnever).
      destruct (Hnever (is_last_never maxRetries Hnot)) as [Hbuf|[Hmade Hnone]];
        [left; exact Hbuf | right; split; assumption].
  - intros Hnone.
    destruct (Qlt_le_dec maxRetries 1) as [Hlow|Hhigh]; [left; exact Hlow|].
    right. intros n Hn.
    assert (1 <= n)%nat as H1.
    { rewrite Hn in Hhigh. unfold whole in Hhigh.
      change 1%Q with (inject_Z 1) in Hhigh. rewrite <- Zle_Qle in Hhigh. lia. }
    destruct (Hwhole n Hn H1) as [(buf & H)|(e & H)]; rewrite H in Hnone; discriminate.
Qed.

Lemma backoffDelay_bounds attempt :
  (2 <= attempt)%nat -> 2000 <= backoffDelay attempt <= 5000.
Proof.
  intros H. unfold backoffDelay.
  assert (2 ^ 1 <= 2 ^ (Z.of_nat attempt - 1)) by (apply Z.pow_le_mono_r; lia).
  change (2 ^ 1) with 2 in *. lia.
Qed.

Lemma backoffDelay_monotone a b :
  (a <= b)%nat -> backoffDelay a <= backoffDelay b.
Proof.
  intros H. unfold backoffDelay.
  destruct a as [|a].
  - change (Z.of_nat 0 - 1) with (-1). rewrite Z.pow_neg_r by lia.
    assert (0 <= 2 ^ (Z.of_nat b - 1)) by (apply Z.pow_nonneg; lia). lia.
  - assert (2 ^ (Z.of_nat (S a) - 1) <= 2 ^ (Z.of_nat b - 1))
      by (apply Z.pow_le_mono_r; lia).
    lia.
Qed.

Lemma total_backoff first count :
  (2 <= first)%nat ->
  total_ms (map backoffDelay (seq first count)) <= 5000 * Z.of_nat count.
Proof.
  revert first. induction count as [|count IH]; intros first H; [simpl; lia|].
  cbn [seq map total_ms foldr]. fold (total_ms (map backoffDelay (seq (S first) count))).
  pose proof (backoffDelay_bounds first H). specialize (IH (S first) ltac:(lia)). lia.
Qed.

Lemma backoff_timers_map first count :
  (2 <= first)%nat ->
  flat_map (fun a => if (1 <? a)%nat then [backoffDelay a] else []) (seq first count)
  = map backoffDelay (seq first count).
Proof.
  revert first. induction count as [|count IH]; intros first H; [reflexivity|].
  simpl seq. cbn [flat_map map]. destruct (Nat.ltb_spec 1 first); [|lia].
  rewrite IH by lia. reflexivity.
Qed.

(** X9. Each wait between attempts lasts between 2 and 5 seconds, never
    less than the wait before it, and 5 seconds from the fourth attempt on.
    One call of [generatePdfForReservation] waits at most
    [5000 * (maxRetries - 1)] ms in all, and at most 6000 ms with the
    default of 3. *)
Theorem backoff_is_bounded htlCode resId maxRetries w :
  let w' := snd (run E (generatePdfForReservation E htlCode resId maxRetries) w) in
  (forall attempt, (2 <= attempt)%nat -> 2000 <= backoffDelay attempt <= 5000)
  /\ (forall a b, (1 <= a)%nat -> (a <= b)%nat -> backoffDelay a <= backoffDelay b)
  /\ (forall attempt, (4 <= attempt)%nat -> backoffDelay attempt = 5000)
  /\ total_ms (timers (since w w'))
     <= 5000 * Z.of_nat (Z.to_nat (Qfloor maxRetries) - 1)
  /\ (maxRetries == 3 -> total_ms (timers (since w w')) <= 6000).
Proof.
  intros w'.
  assert (exists made, (made <= Z.to_nat (Qfloor maxRetries))%nat
                       /\ timers (since w w') = map backoffDelay (seq 2 (made - 1)))
    as (made & Hle & Hmap).
  { subst w'. rewrite generatePdf_run.
    destruct (ToString htlCode) as [h|];
      [|exists 0%nat; split; [lia|]; cbn [snd];
        rewrite (since_app w w []) by (symmetry; apply app_nil_r); reflexivity].
    destruct (ToString resId) as [i|];
      [|exists 0%nat; split; [lia|]; cbn [snd];
        rewrite (since_app w w []) by (symmetry; apply app_nil_r); reflexivity].
    destruct (attempts_run_from E (pdfUrl E h i) maxRetries
                (Z.to_nat (Qfloor maxRetries)) 1 w) as (Hle & Htimers & _).
    eexists. split; [exact Hle|]. rewrite Htimers.
    destruct (attempts_made _ _ _ _ _ _) as [|m]; [reflexivity|].
    replace (S m - 1)%nat with m by lia. simpl seq. cbn [flat_map Nat.ltb Nat.leb app].
    apply backoff_timers_map. lia. }
  split; [apply backoffDelay_bounds|].
  split; [intros a b _; apply backoffDelay_monotone|].
  split; [|split].
  - intros attempt H. unfold backoffDelay.
    assert (2 ^ 3 <= 2 ^ (Z.of_nat attempt - 1)) by (apply Z.pow_le_mono_r; lia).
    change (2 ^ 3) with 8 in *. lia.
  - rewrite Hmap. pose proof (total_backoff 2 (made - 1) ltac:(lia)). lia.
  - intros H3. rewrite Hmap. rewrite (floor_whole 3 maxRetries H3) in Hle.
    assert (made - 1 = 0 \/ made - 1 = 1 \/ made - 1 = 2)%nat as [->|[->| ->]] by lia;
      vm_compute; discriminate.
Qed.

End SessionMore.

Lemma failed_login_keeps_session_witness :
  sessionCookies (snd (run (office [] always_pdf) (login (office [] always_pdf)) signed_in))
  = Some "JSESSIONID=abc; lang=en".
Proof.
  apply (failed_login_keeps_session (office [] always_pdf) signed_in LoginNoCookies).
  reflexivity.
Defined.

Lemma fresh_session_is_reused_witness :
  let E := office two_cookies always_pdf in
  let w1 := snd (run E (login E) fresh) in
  run E (getSessionCookies E) w1 = (inr "JSESSIONID=abc; lang=en", w1).
Proof.
  intros E w1.
  apply (fresh_session_is_reused E fresh "JSESSIONID=abc; lang=en" w1 w1);
    try reflexivity; discriminate.
Defined.

Lemma undefined_only_without_attempts_witness :
  let E := office two_cookies always_html in
  run E (generatePdfForReservation E (JStr "H1") (JStr "99") 0) fresh = (inr None, fresh)
  /\ run E (generatePdfForReservation E (JStr "H1") (JStr "99") (-1)) fresh
     = (inr None, fresh)
  /\ fst (run E (generatePdfForReservation E (JStr "H1") (JStr "99") (5 # 2)) signed_in)
     = inr None
  /\ attempts_made E (pdfUrl E "H1" "99") (5 # 2) 2 1 signed_in = 2%nat.
Proof.
  intros E.
  destruct (undefined_only_without_attempts E (JStr "H1") (JStr "99") 0 fresh)
    as (Hzero & _).
  destruct (undefined_only_without_attempts E (JStr "H1") (JStr "99") (-1) fresh)
    as (Hnegative & _).
  destruct (undefined_only_without_attempts E (JStr "H1") (JStr "99") (5 # 2) signed_in)
    as (Hhalf & _).
  split; [apply (Hzero "H1" "99"); reflexivity|].
  split; [apply (Hnegative "H1" "99"); reflexivity|].
  destruct (Hhalf "H1" "99" eq_refl eq_refl) as (_ & Hfails).
  destruct Hfails as [(buf & Hbuf)|[Hnone Hmade]].
  - intros n Hn. unfold whole, Qeq in Hn. simpl in Hn. lia.
  - vm_compute in Hbuf. discriminate.
  - split; [exact Hnone | exact Hmade].
Defined.

Lemma backoff_is_bounded_witness :
  let E := office two_cookies always_html in
  total_ms (timers (since signed_in
                      (snd (run E (generatePdfForReservation E (JStr "H1") (JStr "99") 3)
                              signed_in)))) <= 6000
  /\ 2000 <= backoffDelay 2 <= 5000.
Proof.
  intros E.
  destruct (backoff_is_bounded E (JStr "H1") (JStr "99") 3 signed_in)
    as (Hbounds & _ & _ & _ & Hdefault).
  split; [apply Hdefault; reflexivity | apply Hbounds; lia].
Defined.

(** ** The requests of the handler *)

Section HandlerRequests.
Variable E : environment.

Lemma in_groups_requests groups t :
  in_groups E groups t -> (length (concat groups) <= length (requests t))%nat.
Proof.
  revert t. induction groups as [|g more IH]; intros t; [intros ->; simpl; lia|].
  assert (forall seg, group_run E g seg -> (length g <= length (requests seg))%nat)
    as Hgroup.
  { intros seg ((first & later & Hlen & ->) & _).
    rewrite requests_app, requests_Issued, length_app. lia. }
  cbn [in_groups]. destruct more as [|g' more'].
  - intros Hrun. simpl. rewrite app_nil_r. apply Hgroup, Hrun.
  - intros (first & rest & -> & Hrun & Hrest).
    rewrite !requests_app, !length_app. change (concat (g :: g' :: more'))
      with (g ++ concat (g' :: more')). rewrite length_app.
    pose proof (Hgroup first Hrun). pose proof (IH rest Hrest). lia.
Qed.

(** X10. Whatever the order in which the answers arrive, a valid request
    makes the handler send only two kinds of request: the login, and the
    download of the document of one of the reservations it was given. *)
Theorem requests_stay_on_route body items reservations schedules w :
  property body "reservationIds" = Some (Some (JArr items)) ->
  validate items = inr reservations ->
  Forall (route_request E reservations)
    (requests (since w (snd (POST E (inr body) schedules w)))).
Proof.
  intros Hbody Hvalid.
  rewrite (POST_world E body items reservations schedules w Hbody Hvalid).
  destruct (process_batches_sent E schedules reservations w) as (evs & H & HQ & _).
  rewrite (since_app _ _ _ H). exact HQ.
Qed.

(** X11. One call of [generatePdfForReservation] sends at most four
    requests an attempt, [4 * maxRetries] in all, each of them the login or
    the download of its document. *)
Theorem four_requests_an_attempt htlCode resId maxRetries w :
  let sent_requests :=
    requests (since w (snd (run E (generatePdfForReservation E htlCode resId maxRetries) w))) in
  (length sent_requests <= 4 * Z.to_nat (Qfloor maxRetries))%nat
  /\ Forall (fun q => q = login_request E
                      \/ exists h i cookies manual,
                           ToString htlCode = Some h /\ ToString resId = Some i
                           /\ q = pdf_request (pdfUrl E h i) cookies manual)
       sent_requests.
Proof.
  cbv zeta.
  destruct (run_sent E _ (4 * Z.to_nat (Qfloor maxRetries)) _ w
              (generatePdf_sends E htlCode resId maxRetries))
    as (evs & H & HQ & L).
  rewrite (since_app _ _ _ H). auto.
Qed.

(** X12. Whatever the order in which the answers arrive, a valid request
    makes the handler send at most twelve requests for each reservation,
    and at least one for each when all their values print. *)
Theorem twelve_requests_a_reservation body items reservations schedules w :
  property body "reservationIds" = Some (Some (JArr items)) ->
  validate items = inr reservations ->
  let sent_requests := requests (since w (snd (POST E (inr body) schedules w))) in
  (length sent_requests <= 12 * length reservations)%nat
  /\ (Forall (fun r => prints r = true) reservations ->
      (length reservations <= length sent_requests)%nat).
Proof.
  intros Hbody Hvalid. cbv zeta.
  rewrite (POST_world E body items reservations schedules w Hbody Hvalid).
  split.
  - destruct (process_batches_sent E schedules reservations w) as (evs & H & _ & L).
    rewrite (since_app _ _ _ H). exact L.
  - intros Hall.
    rewrite (process_batches_refines E schedules reservations 0 [] w Hall 0%nat)
      by reflexivity.
    change (drop 0 reservations) with reservations. cbn [snd].
    destruct (spec_orchestrate_in_groups E schedules 0
                (spec_partition batchSize reservations) w) as (evs & H & Hgroups).
    { rewrite spec_partition_concat by (unfold batchSize; lia). exact Hall. }
    rewrite (since_app _ _ _ H). apply in_groups_requests in Hgroups.
    rewrite spec_partition_concat in Hgroups by (unfold batchSize; lia). exact Hgroups.
Qed.

End HandlerRequests.

Lemma requests_stay_on_route_witness :
  let E := office two_cookies only_H1 in
  Forall (route_request E [{| htl_code := JStr "H1"; res_id := JStr "99" |};
                           {| htl_code := JStr "H2"; res_id := JStr "7" |}])
    (requests (since fresh
                 (snd (POST E (inr (request_body [item "H1" "99"; item "H2" "7"]))
                         interleaved fresh)))).
Proof.
  intros E.
  apply (requests_stay_on_route E (request_body [item "H1" "99"; item "H2" "7"])
           [item "H1" "99"; item "H2" "7"]); reflexivity.
Defined.

Lemma twelve_requests_a_reservation_witness :
  let E := office two_cookies only_H1 in
  (2 <= length (requests (since fresh
                            (snd (POST E (inr (request_body [item "H1" "99"; item "H2" "7"]))
                                    interleaved fresh)))) <= 24)%nat.
Proof.
  intros E.
  destruct (twelve_requests_a_reservation E (request_body [item "H1" "99"; item "H2" "7"])
              [item "H1" "99"; item "H2" "7"]
              [{| htl_code := JStr "H1"; res_id := JStr "99" |};
               {| htl_code := JStr "H2"; res_id := JStr "7" |}] interleaved fresh)
    as (Hmost & Hleast); [reflexivity | reflexivity |].
  split; [apply Hleast; repeat constructor | exact Hmost].
Defined.

(** ** One task alone; the order of the results *)

Section Alone.
Variable E : environment.

Lemma issue_no_wait {R} (o : op R) w : waits o = false -> issue o w = w.
Proof. destruct o; simpl; intros H; try discriminate; reflexivity. Qed.

Lemma finish_advance {A} (p : prog A) w :
  finish E (fst (advance E p w)) (snd (advance E p w)) = run E p w.
Proof.
  revert w. induction p as [a|e|R o k IH]; intros w; simpl; try reflexivity.
  unfold perform. destruct (waits o) eqn:Hw; simpl; [reflexivity|].
  rewrite (issue_no_wait o w Hw). destruct (settle E o w) as [r w1]. apply IH.
Qed.

Lemma finish_resume {A} (t : task A) w :
  finish E (fst (resume E t w)) (snd (resume E t w)) = finish E t w.
Proof.
  destruct t as [r|R o k]; simpl; [reflexivity|].
  destruct (settle E o w) as [r w1]. apply finish_advance.
Qed.

Lemma settle_in_order_single {A} schedule (t : task A) w :
  exists t' w',
    settle_in_order E schedule [t] w = ([t'], w') /\ finish E t' w' = finish E t w.
Proof.
  revert t w. induction schedule as [|i later IH]; intros t w; cbn [settle_in_order].
  - eauto.
  - destruct (rejection [t]); [eauto|].
    destruct i as [|i]; simpl; [|apply IH].
    pose proof (finish_resume t w) as H.
    destruct (resume E t w) as [t1 w1]. simpl in H.
    destruct (IH t1 w1) as (t' & w' & Heq & Hfin). exists t', w'.
    split; [exact Heq | congruence].
Qed.

Lemma run_all_single {A} (p : prog A) schedule w :
  run_all E [p] schedule w
  = match run E p w with
    | (inl e, w') => (inl e, w')
    | (inr a, w') => (inr [a], w')
    end.
Proof.
  unfold run_all. cbn [start_all]. pose proof (finish_advance p w) as H.
  destruct (advance E p w) as [t w1]. cbn [fst snd] in H.
  destruct (settle_in_order_single schedule t w1) as (t' & w' & -> & Hfin).
  rewrite <- H, <- Hfin.
  destruct t' as [[e|a]|R o k]; cbn [rejection finish_all finish]; try reflexivity.
Qed.

Lemma spec_task_run r h i w :
  ToString (htl_code r) = Some h -> ToString (res_id r) = Some i ->
  run E (spec_task E r) w =
    match run E (generatePdfForReservation E (htl_code r) (res_id r) 3) w with
    | (inr pdfBlob, w') =>
        (inr (Some {| result_htl_code := htl_code r; result_res_id := res_id r;
                      filename := h +:+ "-" +:+ i +:+ ".pdf"; blob := pdfBlob |}), w')
    | (inl _, w') => (inr None, w')
    end.
Proof.
  intros Hh Hi. unfold spec_task. rewrite run_try_catch, run_bind.
  destruct (run E (generatePdfForReservation E (htl_code r) (res_id r) 3) w)
    as [[e|pdfBlob] w']; [reflexivity|].
  unfold template. rewrite Hh, Hi. reflexivity.
Qed.

(** The loop is left in the first group when one of its values does not
    print: the tasks of the group have been started and nothing has
    settled. *)
Lemma process_batches_first_rejects schedules reservations i pdfResults w :
  Exists (fun r => prints r = false) (slice i (i + batchSize) reservations) ->
  process_batches E schedules reservations i pdfResults w
  = (inl (TypeError "Cannot convert object to primitive value"),
     snd (start_all E (map (batch_task E) (slice i (i + batchSize) reservations)) w)).
Proof.
  apply (process_batches_elim E
           (fun schedules reservations i pdfResults w result =>
              Exists (fun r => prints r = false) (slice i (i + batchSize) reservations) ->
              result
              = (inl (TypeError "Cannot convert object to primitive value"),
                 snd (start_all E
                        (map (batch_task E) (slice i (i + batchSize) reservations)) w))));
    clear schedules reservations i pdfResults w.
  - intros schedules reservations i Hi pdfResults w _ Hex.
    unfold slice in Hex. rewrite drop_ge, take_nil in Hex by lia. inversion Hex.
  - intros schedules reservations i Hi pdfResults w e w1 Hrun _ Hbad.
    rewrite (run_batch_rejects E _ _ w Hbad) in Hrun. injection Hrun as <- <-.
    reflexivity.
  - intros schedules reservations i Hi pdfResults w batchResults w1 _ Hrun _ Hbad.
    rewrite (run_batch_rejects E _ _ w Hbad) in Hrun. discriminate.
Qed.

(** X13. A request for a single reservation whose values print is one call
    of [generatePdfForReservation] run on its own: the answer is the
    archive with the buffer it returns, filed under the name of the
    reservation, or 500 when it throws, and the session and the history
    are left as that call leaves them. When a value does not print the
    answer is 500 with the message of the [TypeError], and nothing has
    been sent. *)
Theorem single_reservation_is_one_call body item r schedules w :
  property body "reservationIds" = Some (Some (JArr [item])) ->
  validate_item item = inr r ->
  POST E (inr body) schedules w =
    match archive_name r with
    | Some name =>
        match run E (generatePdfForReservation E (htl_code r) (res_id r) 3) w with
        | (inr (Some buf), w') =>
            (success_response 1 0 (zip_file name (Some buf) ∅), w')
        | (_, w') => (json_error "Failed to fetch any PDFs" 500, w')
        end
    | None => (json_error "Cannot convert object to primitive value" 500, w)
    end.
Proof.
  intros Hbody Hitem.
  assert (validate [item] = inr [r]) as Hvalid by (simpl; rewrite Hitem; reflexivity).
  destruct (archive_name r) as [name|] eqn:Hname.
  - assert (prints r = true) as Hprints by (unfold prints; rewrite Hname; reflexivity).
    unfold archive_name in Hname.
    destruct (ToString (htl_code r)) as [h|] eqn:Hh; [|discriminate].
    destruct (ToString (res_id r)) as [i|] eqn:Hi; [|discriminate].
    injection Hname as <-.
    rewrite (POST_valid E body [item] [r] schedules w Hbody Hvalid)
      by (constructor; [exact Hprints | constructor]).
    change (spec_partition batchSize [r]) with [[r]].
    cbn [spec_orchestrate map].
    rewrite (run_all_single (spec_task E r) (schedules 0%nat) w), (spec_task_run r h i w Hh Hi).
    pose proof (ends_in_run E _ _ w
                  (attempts_defined E (pdfUrl E h i) 3 3 3 1
                     ltac:(reflexivity) ltac:(lia) ltac:(lia))) as Hdef.
    rewrite generatePdf_run, Hh, Hi. change (Z.to_nat (Qfloor 3)) with 3%nat.
    destruct (run E (attempts E (pdfUrl E h i) 3 3 1) w) as [[e|pdfBlob] w'];
      [reflexivity|].
    destruct (Hdef pdfBlob eq_refl) as (buf & -> & _). reflexivity.
  - assert (prints r = false) as Hprints by (unfold prints; rewrite Hname; reflexivity).
    unfold POST. rewrite Hbody, Hvalid.
    rewrite process_batches_first_rejects
      by (change (slice 0 (0 + batchSize) [r]) with [r]; left; exact Hprints).
    change (slice 0 (0 + batchSize) [r]) with [r]. cbn [map start_all].
    rewrite batch_task_prints, Hprints. reflexivity.
Qed.

Lemma kept_in_order (reservations : list reservation) outs :
  Forall2 fetched reservations outs ->
  exists kept,
    kept `sublist_of` reservations
    /\ Forall2 (fun r result =>
                  result_htl_code result = htl_code r
                  /\ result_res_id result = res_id r
                  /\ archive_name r = Some (filename result)
                  /\ exists buf, blob result = Some buf /\ isPDF buf = true)
         kept (non_null outs).
Proof.
  induction 1 as [|r o rs outs Hr _ (kept & Hsub & Hall)].
  - exists []. split; [apply sublist_nil | constructor].
  - destruct Hr as [->|(buf & name & Hpdf & Hname & ->)].
    + exists kept. rewrite non_null_cons_None. split; [apply sublist_cons, Hsub | exact Hall].
    + exists (r :: kept). rewrite non_null_cons_Some.
      split; [apply sublist_skip, Hsub|]. constructor; [|exact Hall].
      simpl. eauto 10.
Qed.

(** X14. When all values print, the loop over the groups does not end in
    an error, and its results keep the order of the request whatever the
    order in which the fetches finish: they are the results of a
    subsequence of the reservations, each with the fields and the name of
    its reservation and a PDF as blob. When a value does not print, the
    loop ends in the [TypeError] and has no results. *)
Theorem results_keep_request_order schedules reservations w :
  (Forall (fun r => prints r = true) reservations ->
   exists pdfResults kept,
     fst (process_batches E schedules reservations 0 [] w) = inr pdfResults
     /\ kept `sublist_of` reservations
     /\ Forall2 (fun r result =>
                   result_htl_code result = htl_code r
                   /\ result_res_id result = res_id r
                   /\ archive_name r = Some (filename result)
                   /\ exists buf, blob result = Some buf /\ isPDF buf = true)
          kept pdfResults)
  /\ (Exists (fun r => prints r = false) reservations ->
      fst (process_batches E schedules reservations 0 [] w)
      = inl (TypeError "Cannot convert object to primitive value")).
Proof.
  split.
  - intros Hall.
    rewrite (process_batches_refines E schedules reservations 0 [] w Hall 0 eq_refl).
    cbn [fst drop app].
    destruct (kept_in_order reservations (outcomes E schedules reservations w)
                (outcomes_fetched E schedules reservations w Hall)) as (kept & Hsub & Hkept).
    exists (non_null (outcomes E schedules reservations w)), kept. auto.
  - intros Hbad. apply (process_batches_rejects E schedules reservations 0 [] w). exact Hbad.
Qed.

(** X15. With a cached session that is still good, a document that the
    booking system serves at once is fetched with a single request, which
    carries the cached cookie header and does not follow redirects; the
    bytes received are returned as they are and the session is untouched. *)
Theorem served_at_once htlCode resId h i maxRetries w cookies expiry r :
  ToString htlCode = Some h ->
  ToString resId = Some i ->
  let q := pdf_request (pdfUrl E h i) cookies true in
  (1 <= maxRetries)%Q ->
  sessionCookies w = Some cookies -> cookies <> "" ->
  sessionExpiry w = Some expiry -> expiry <> 0 ->
  clock E (history w) < expiry ->
  upstream E (history w ++ [Issued q]) q = inr r ->
  ok r = true ->
  isPDF (payload r) = true ->
  run E (generatePdfForReservation E htlCode resId maxRetries) w
  = (inr (Some (payload r)), record [Settled q (inr r)] (record [Issued q] w)).
Proof.
  intros Hh Hi q Hmax Hc Hne He Hne0 Hclock Hup Hok Hpdf.
  rewrite generatePdf_run, Hh, Hi.
  assert (1 <= Z.to_nat (Qfloor maxRetries))%nat as Hrounds.
  { apply Qfloor_resp_le in Hmax. change (Qfloor 1) with 1 in Hmax. lia. }
  destruct (Z.to_nat (Qfloor maxRetries)) as [|n]; [lia|].
  rewrite attempts_step, attempt_body_run.
  unfold first_exchange, backoff. cbn [Nat.ltb Nat.leb bind].
  rewrite run_bind, getSessionCookies_run, Hc, He.
  apply String.eqb_neq in Hne. apply Z.eqb_neq in Hne0. apply Z.ltb_lt in Hclock.
  rewrite Hne, Hne0, Hclock. cbn [negb andb].
  rewrite fetch_run. unfold perform. cbn [issue settle record history].
  fold q. rewrite Hup.
  rewrite on_response_run.
  assert ((status r =? 302) = false) as ->.
  { unfold ok in Hok. apply andb_prop in Hok as [_ H]. apply Z.leb_le in H.
    apply Z.eqb_neq. lia. }
  rewrite Hok, Hpdf. reflexivity.
Qed.

End Alone.

Lemma single_reservation_is_one_call_witness :
  POST (office two_cookies always_pdf) (inr (request_body [item "H1" "99"])) interleaved
    signed_in
  = match run (office two_cookies always_pdf)
            (generatePdfForReservation (office two_cookies always_pdf)
               (JStr "H1") (JStr "99") 3) signed_in with
    | (inr (Some buf), w') =>
        (success_response 1 0 (zip_file "H1-99.pdf" (Some buf) ∅), w')
    | (_, w') => (json_error "Failed to fetch any PDFs" 500, w')
    end
  /\ POST (office two_cookies always_pdf)
       (inr (request_body [JObj [("htl_code", unprintable); ("res_id", JStr "99")]]))
       interleaved signed_in
     = (json_error "Cannot convert object to primitive value" 500, signed_in).
Proof.
  split.
  - apply (single_reservation_is_one_call (office two_cookies always_pdf)
             (request_body [item "H1" "99"]) (item "H1" "99")
             {| htl_code := JStr "H1"; res_id := JStr "99" |}); reflexivity.
  - apply (single_reservation_is_one_call (office two_cookies always_pdf)
             (request_body [JObj [("htl_code", unprintable); ("res_id", JStr "99")]])
             (JObj [("htl_code", unprintable); ("res_id", JStr "99")])
             {| htl_code := unprintable; res_id := JStr "99" |}); reflexivity.
Defined.

Lemma results_keep_request_order_witness :
  exists pdfResults,
    fst (process_batches (office two_cookies only_H1) interleaved
           [{| htl_code := JStr "H2"; res_id := JStr "7" |};
            {| htl_code := JStr "H1"; res_id := JStr "99" |}] 0 [] fresh)
    = inr pdfResults
    /\ map filename pdfResults = ["H1-99.pdf"].
Proof.
  destruct (results_keep_request_order (office two_cookies only_H1) interleaved
              [{| htl_code := JStr "H2"; res_id := JStr "7" |};
               {| htl_code := JStr "H1"; res_id := JStr "99" |}] fresh)
    as (Hkeeps & _).
  destruct Hkeeps as (pdfResults & kept & Hrun & _); [repeat constructor|].
  exists pdfResults. split; [exact Hrun|].
  vm_compute in Hrun. injection Hrun as <-. reflexivity.
Defined.

Lemma served_at_once_witness :
  let E := office two_cookies always_pdf in
  let q := pdf_request (pdfUrl E "H1" "99") "JSESSIONID=abc; lang=en" true in
  run E (generatePdfForReservation E (JStr "H1") (JStr "99") 3) signed_in
  = (inr (Some pdf_document),
     record [Settled q (inr (always_pdf q))] (record [Issued q] signed_in)).
Proof.
  intros E q.
  apply (served_at_once E (JStr "H1") (JStr "99") "H1" "99" 3 signed_in
           "JSESSIONID=abc; lang=en" 1801000 (always_pdf q));
    try reflexivity; try discriminate; lia.
Defined.

(** ** A group that starts without a session *)

Section ColdStart.
Variable E : environment.

Lemma spec_task_cold r w :
  prints r = true ->
  sessionCookies w = None ->
  exists k,
    advance E (spec_task E r) w
    = (Waiting (Fetch (login_request E)) k, record [Issued (login_request E)] w).
Proof.
  intros Hr Hc. apply prints_values in Hr as (h & i & Hh & Hi).
  unfold spec_task, generatePdfForReservation, template. rewrite Hh, Hi. cbn [bind].
  change (Z.to_nat (Qfloor 3)) with 3%nat. cbn [attempts].
  unfold attempt_body, first_exchange, backoff, getSessionCookies, call.
  cbn [Nat.ltb Nat.leb bind try_catch advance waits settle].
  rewrite Hc. cbn. eexists. reflexivity.
Qed.

Lemma start_all_cold (batch : list reservation) w :
  sessionCookies w = None ->
  history (snd (start_all E (map (batch_task E) batch) w))
  = history w
    ++ replicate (length (List.filter prints batch)) (Issued (login_request E)).
Proof.
  revert w. induction batch as [|r batch IH]; intros w Hc; cbn [map start_all List.filter].
  - apply eq_sym, app_nil_r.
  - rewrite batch_task_prints. destruct (prints r) eqn:Hr.
    + destruct (spec_task_cold r w Hr Hc) as (k & ->).
      specialize (IH (record [Issued (login_request E)] w) Hc).
      destruct (start_all E _ (record [Issued (login_request E)] w)) as [ts w2].
      simpl in *. rewrite IH, <- app_assoc. reflexivity.
    + cbn [advance]. specialize (IH w Hc).
      destruct (start_all E _ w) as [ts w2]. exact IH.
Qed.

Lemma start_all_history {A} (ps : list (prog A)) w :
  exists evs, history (snd (start_all E ps w)) = history w ++ evs.
Proof.
  revert w. induction ps as [|p ps IH]; intros w; cbn [start_all].
  - exists []. apply eq_sym, app_nil_r.
  - destruct (advance_history E p w) as [evs1 H1].
    destruct (advance E p w) as [t w1]. simpl in H1.
    destruct (IH w1) as [evs2 H2]. destruct (start_all E ps w1) as [ts w2].
    simpl in *. exists (evs1 ++ evs2). rewrite H2, H1, <- app_assoc. reflexivity.
Qed.

Lemma run_all_after_start {A} (ps : list (prog A)) schedule w :
  exists evs,
    history (snd (run_all E ps schedule w))
    = history (snd (start_all E ps w)) ++ evs.
Proof.
  unfold run_all. destruct (start_all E ps w) as [ts w1].
  destruct (settle_in_order_history E schedule ts w1) as [evs2 H2].
  destruct (settle_in_order E schedule ts w1) as [ts' w2]. simpl in H2.
  destruct (finish_all_history E ts' w2) as [evs3 H3].
  destruct (rejection ts') as [e|]; simpl.
  - exists evs2. exact H2.
  - exists (evs2 ++ evs3). rewrite H3, H2, <- app_assoc. reflexivity.
Qed.

(** The history of the loop begins with the start of the tasks of its
    first group. *)
Lemma process_batches_starts schedules reservations i pdfResults w :
  exists later,
    history (snd (process_batches E schedules reservations i pdfResults w))
    = history (snd (start_all E
                      (map (batch_task E) (slice i (i + batchSize) reservations)) w))
      ++ later.
Proof.
  apply (process_batches_elim E
           (fun schedules reservations i pdfResults w result =>
              exists later,
                history (snd result)
                = history (snd (start_all E
                                  (map (batch_task E)
                                     (slice i (i + batchSize) reservations)) w))
                  ++ later));
    clear schedules reservations i pdfResults w.
  - intros schedules reservations i Hi pdfResults w _. exists [].
    unfold slice. rewrite drop_ge, take_nil by lia. apply eq_sym, app_nil_r.
  - intros schedules reservations i Hi pdfResults w e w1 Hrun _.
    pose proof (run_all_after_start
                  (map (batch_task E) (slice i (i + batchSize) reservations))
                  (schedules (i / batchSize)%nat) w) as H.
    unfold run_batch in Hrun. rewrite Hrun in H. exact H.
  - intros schedules reservations i Hi pdfResults w batchResults w1 (later & IH) Hrun _.
    pose proof (run_all_after_start
                  (map (batch_task E) (slice i (i + batchSize) reservations))
                  (schedules (i / batchSize)%nat) w) as (evs1 & H1).
    unfold run_batch in Hrun. rewrite Hrun in H1. simpl in H1.
    assert (exists evs, history (pause_between E i (length reservations) w1)
                        = history w1 ++ evs) as (evs2 & H2).
    { unfold pause_between. destruct (i + batchSize <? length reservations)%nat;
        [apply run_history | exists []; apply eq_sym, app_nil_r]. }
    destruct (start_all_history
                (map (batch_task E)
                   (slice (i + batchSize) (i + batchSize + batchSize) reservations))
                (pause_between E i (length reservations) w1)) as (evs3 & H3).
    exists (evs1 ++ evs2 ++ evs3 ++ later).
    rewrite IH, H3, H2, H1, <- !app_assoc. reflexivity.
Qed.

(** X16. The session cache does not stop the callbacks of a group from
    logging in side by side: each of them tests the cache before any
    answer has arrived. When the handler starts with no session, the first
    requests it sends are logins, one for every reservation of the first
    group whose values print, which is every one of them when all values
    print. *)
Theorem cold_start_logs_in_for_each body items reservations schedules w :
  property body "reservationIds" = Some (Some (JArr items)) ->
  validate items = inr reservations ->
  sessionCookies w = None ->
  (exists later,
     since w (snd (POST E (inr body) schedules w))
     = replicate (length (List.filter prints (take batchSize reservations)))
         (Issued (login_request E)) ++ later)
  /\ (Forall (fun r => prints r = true) reservations ->
      length (List.filter prints (take batchSize reservations))
      = min batchSize (length reservations)).
Proof.
  intros Hbody Hvalid Hc. split.
  - rewrite (POST_world E body items reservations schedules w Hbody Hvalid).
    destruct (process_batches_starts schedules reservations 0 [] w) as (later & H).
    rewrite (start_all_cold _ w Hc) in H. unfold slice in H.
    change (0 + batchSize - 0)%nat with batchSize in H. rewrite drop_0 in H.
    exists later. apply since_app. rewrite H, <- app_assoc. reflexivity.
  - intros Hall. rewrite <- length_take.
    assert (Forall (fun r => prints r = true) (take batchSize reservations)) as Htake
      by (apply Forall_take, Hall).
    induction Htake as [|r rs Hr _ IH]; [reflexivity|].
    cbn [List.filter]. rewrite Hr. simpl. rewrite IH. reflexivity.
Qed.

End ColdStart.

Lemma cold_start_logs_in_for_each_witness :
  let E := office two_cookies always_pdf in
  (exists later,
     since fresh (snd (POST E (inr (request_body [item "H1" "99"; item "H2" "7"]))
                         interleaved fresh))
     = [Issued (login_request E); Issued (login_request E)] ++ later)
  /\ exists later,
       since fresh
         (snd (POST E
                 (inr (request_body [item "H1" "99";
                                     JObj [("htl_code", unprintable);
                                           ("res_id", JStr "7")]]))
                 interleaved fresh))
       = [Issued (login_request E)] ++ later.
Proof.
  intros E. split.
  - apply (cold_start_logs_in_for_each E (request_body [item "H1" "99"; item "H2" "7"])
             [item "H1" "99"; item "H2" "7"]
             [{| htl_code := JStr "H1"; res_id := JStr "99" |};
              {| htl_code := JStr "H2"; res_id := JStr "7" |}]); reflexivity.
  - apply (cold_start_logs_in_for_each E
             (request_body [item "H1" "99";
                            JObj [("htl_code", unprintable); ("res_id", JStr "7")]])
             [item "H1" "99"; JObj [("htl_code", unprintable); ("res_id", JStr "7")]]
             [{| htl_code := JStr "H1"; res_id := JStr "99" |};
              {| htl_code := unprintable; res_id := JStr "7" |}]); reflexivity.
Defined.

(** ** The waits and the errors of the handler *)

Section Waits.
Variable E : environment.

Lemma process_batches_waits schedules reservations w :
  adds_timers (fun ms => ms = 200 \/ ms = 2000 \/ ms = 4000) w
    (snd (process_batches E schedules reservations 0 [] w)).
Proof.
  apply (process_batches_steps E
           (fun _ => adds_timers (fun ms => ms = 200 \/ ms = 2000 \/ ms = 4000)) 0
           schedules reservations 0 [] w).
  - intros _ w0. apply adds_timers_refl.
  - intros _ _ _ w1 w2 w3 H1 H2 _. eapply adds_timers_trans; eassumption.
  - intros schedule batch w0 _. unfold run_batch.
    apply run_all_adds, Forall_fmap, Forall_forall. intros r _.
    apply batch_task_uses; auto.
  - intros w0. apply run_adds, uses_only_call. simpl. auto.
Qed.

(** X17. Whatever it is sent and whatever the order of the answers, every
    timer the handler sets lasts 200, 2000 or 4000 ms: with the three
    attempts the handler allows a fetch, the cap of 5000 ms on the backoff
    is never reached. *)
Theorem handler_timers body schedules w :
  Forall (fun ms => ms = 200 \/ ms = 2000 \/ ms = 4000)
    (timers (since w (snd (POST E body schedules w)))).
Proof.
  assert (timers (since w w) = []) as Hsame
    by (unfold since; rewrite drop_all; reflexivity).
  destruct body as [err|decoded]; [simpl; rewrite Hsame; constructor|].
  destruct (property decoded "reservationIds") as [[v|]|] eqn:Hbody;
    try (unfold POST; rewrite Hbody; simpl; rewrite Hsame; constructor).
  destruct v as [| | | |items|];
    try (unfold POST; rewrite Hbody; simpl; rewrite Hsame; constructor).
  destruct (validate items) as [e|reservations] eqn:Hvalid;
    [unfold POST; rewrite Hbody, Hvalid; simpl; rewrite Hsame; constructor|].
  rewrite (POST_world E decoded items reservations schedules w Hbody Hvalid).
  destruct (process_batches_waits schedules reservations w) as (evs & H & HP).
  rewrite (since_app _ _ _ H). exact HP.
Qed.

(** X18. A 500 has four causes only: the body could not be decoded, it
    decoded to [null], no document was fetched, or a value that passed
    validation does not print. The error of a single fetch never reaches
    the answer. *)
Theorem server_error_causes body schedules w :
  res_status (fst (POST E body schedules w)) = 500 ->
  (exists err, body = inl err /\ POST E body schedules w = (json_error (message err) 500, w))
  \/ (body = inr JNull /\ snd (POST E body schedules w) = w)
  \/ (exists decoded items reservations,
        body = inr decoded
        /\ property decoded "reservationIds" = Some (Some (JArr items))
        /\ validate items = inr reservations
        /\ ((Forall (fun r => prints r = true) reservations
             /\ Forall (fun o => o = None) (outcomes E schedules reservations w)
             /\ fst (POST E body schedules w)
                = json_error "Failed to fetch any PDFs" 500)
            \/ (Exists (fun r => prints r = false) reservations
                /\ fst (POST E body schedules w)
                   = json_error "Cannot convert object to primitive value" 500))).
Proof.
  destruct body as [err|decoded]; [left; eauto|]. intros Hstatus. right.
  destruct (property decoded "reservationIds") as [[v|]|] eqn:Hbody.
  - destruct v as [| | | |items|];
      try (unfold POST in Hstatus; rewrite Hbody in Hstatus; discriminate).
    destruct (validate items) as [e|reservations] eqn:Hvalid;
      [unfold POST in Hstatus; rewrite Hbody, Hvalid in Hstatus; discriminate|].
    right. exists decoded, items, reservations.
    repeat (split; [reflexivity || assumption|]).
    destruct (POST_cases E decoded items reservations schedules w Hbody Hvalid)
      as [[Hall Heq]|[Hbad Heq]]; rewrite Heq in Hstatus |- *.
    + left. split; [exact Hall|]. cbv zeta in Hstatus |- *.
      change (fst (spec_orchestrate E schedules 0
                     (spec_partition batchSize reservations) w))
        with (outcomes E schedules reservations w) in Hstatus |- *.
      destruct (length (non_null (outcomes E schedules reservations w)) =? 0)%nat
        eqn:Hlen; [|discriminate].
      split; [|reflexivity].
      apply Nat.eqb_eq in Hlen.
      induction (outcomes E schedules reservations w) as [|[result|] outs IH];
        [constructor|discriminate|].
      constructor; [reflexivity | apply IH, Hlen].
    + right. split; [exact Hbad | reflexivity].
  - unfold POST in Hstatus. rewrite Hbody in Hstatus. discriminate.
  - left. destruct decoded; try discriminate. split; reflexivity.
Qed.

End Waits.

Lemma server_error_causes_witness :
  POST (office two_cookies always_pdf) (inl (SyntaxError "Unexpected end of JSON input"))
    interleaved fresh
  = (json_error "Unexpected end of JSON input" 500, fresh)
  /\ fst (POST (office two_cookies always_pdf)
            (inr (request_body [JObj [("htl_code", unprintable); ("res_id", JStr "99")]]))
            interleaved fresh)
     = json_error "Cannot convert object to primitive value" 500.
Proof.
  split.
  - destruct (server_error_causes (office two_cookies always_pdf)
                (inl (SyntaxError "Unexpected end of JSON input")) interleaved fresh
                eq_refl)
      as [(err & Herr & H)|[[Hnull _]|(decoded & items & reservations & Hdec & _)]].
    + injection Herr as <-. exact H.
    + discriminate Hnull.
    + discriminate Hdec.
  - destruct (server_error_causes (office two_cookies always_pdf)
                (inr (request_body
                        [JObj [("htl_code", unprintable); ("res_id", JStr "99")]]))
                interleaved fresh eq_refl)
      as [(err & Herr & _)|[[Hnull _]|(decoded & items & reservations & _ & _ & _ & H)]].
    + discriminate Herr.
    + discriminate Hnull.
    + destruct H as [(_ & _ & H)|(_ & H)]; [vm_compute in H; discriminate | exact H].
Defined.
